(** * The model install service of InvokeAI

    A shallow embedding of
    [invokeai/app/services/model_install/model_install_default.py]
    (class [ModelInstallService]) and the properties of its install
    pipeline: path placement, registration, source classification, the
    job table, the install worker and the download callbacks.

    Conventions.
    - Python exceptions are values of [exn]; a method is a function from
      the service state to an [outcome] (normal return, raised exception,
      or a thread blocked for ever on the service lock).
    - [pathlib.Path] is a record of an anchor flag and the list of path
      components; the file system is a tree of directories and regular
      files (no symbolic links, no [..] components, and the working
      directory of the process is the root of the tree).
    - Python objects that are shared and mutated (install jobs, download
      jobs) live in stores indexed by a reference; lists, queues and the
      download cache hold references. *)

From stdpp Require Import gmap strings list pretty.
From Stdlib Require Import Ascii.
From Stdlib Require String.

(** ** Strings *)

Module Str.

Fixpoint take (n : nat) (s : string) : string :=
  match n, s with
  | S n', String c s' => String c (take n' s')
  | _, _ => ""
  end.

Fixpoint drop (n : nat) (s : string) : string :=
  match n, s with
  | S n', String _ s' => drop n' s'
  | _, _ => s
  end.

(** [s.rfind(".")], [None] standing for [-1]. *)
Fixpoint rfind_dot (s : string) : option nat :=
  match s with
  | EmptyString => None
  | String c s' =>
      match rfind_dot s' with
      | Some i => Some (S i)
      | None => if Ascii.eqb c "." then Some 0 else None
      end
  end.

(** [c in s] for a character. *)
Fixpoint mem (c : ascii) (s : string) : bool :=
  match s with
  | EmptyString => false
  | String d s' => Ascii.eqb c d || mem c s'
  end.

(** [s.lower()] on the letters of ASCII. *)
Definition lower_char (c : ascii) : ascii :=
  let n := nat_of_ascii c in
  if (65 <=? n) && (n <=? 90) then ascii_of_nat (n + 32) else c.

Fixpoint lower (s : string) : string :=
  match s with
  | EmptyString => EmptyString
  | String c s' => String (lower_char c) (lower s')
  end.

(** [needle in s] for a substring. *)
Fixpoint contains (needle s : string) : bool :=
  String.prefix needle s ||
  match s with
  | EmptyString => false
  | String _ s' => contains needle s'
  end.

(** [s.split("/")]. *)
Fixpoint split_slash (s : string) : list string :=
  match s with
  | EmptyString => [""]
  | String c s' =>
      if Ascii.eqb c "/" then "" :: split_slash s'
      else match split_slash s' with
           | w :: ws => String c w :: ws
           | [] => [String c ""]
           end
  end.

Fixpoint join_slash (l : list string) : string :=
  match l with
  | [] => ""
  | [x] => x
  | x :: l' => x +:+ "/" +:+ join_slash l'
  end.

(** [f"{n:02d}"]: decimal, padded with zeros to two digits. *)
Definition fmt02d (n : nat) : string :=
  let s := pretty n in
  if String.length s <? 2 then "0" +:+ s else s.

End Str.

(** ** Paths ([pathlib.PurePosixPath]) *)

Record Path := mkPath { anchored : bool; parts : list string }.

#[global] Instance Path_eq_dec : EqDecision Path.
Proof. solve_decision. Defined.

Inductive exn :=
  | FileExistsError
  | FileNotFoundError
  | IsADirectoryError
  | NotADirectoryError
  | SameFileError
  | ShutilError
  | OSError
  | ValueError (msg : string)
  | KeyError
  | AssertionError
  | DuplicateModelException
  | UnknownModelException
  | InvalidModelConfigException (msg : string)
  | OtherError (cls msg : string).

#[global] Instance exn_eq_dec : EqDecision exn.
Proof. solve_decision. Defined.

Module PurePath.

(** [Path(s)]: empty components and [.] components are dropped. *)
Definition of_string (s : string) : Path :=
  mkPath (String.prefix "/" s)
         (filter (λ w, w ≠ "" ∧ w ≠ ".") (Str.split_slash s)).

(** [p.as_posix()] and [str(p)]. *)
Definition as_posix (p : Path) : string :=
  if anchored p then "/" +:+ Str.join_slash (parts p)
  else match parts p with
       | [] => "."
       | _ => Str.join_slash (parts p)
       end.

(** [p.name]: the last component, empty for the root and for [.]. *)
Definition name (p : Path) : string := List.last (parts p) "".

(** [p.parent]. *)
Definition parent (p : Path) : Path :=
  mkPath (anchored p) (removelast (parts p)).

(** [p / q]. *)
Definition join (p q : Path) : Path :=
  if anchored q then q else mkPath (anchored p) (parts p ++ parts q).

(** [p / s] for a string operand. *)
Definition join_str (p : Path) (s : string) : Path := join p (of_string s).

(** The suffix of a file name: from the last dot, when that dot is
    neither the first nor the last character. *)
Definition suffix_of (nm : string) : string :=
  match Str.rfind_dot nm with
  | Some i =>
      if (0 <? i) && (i <? String.length nm - 1) then Str.drop i nm else ""
  | None => ""
  end.

Definition stem_of (nm : string) : string :=
  match Str.rfind_dot nm with
  | Some i =>
      if (0 <? i) && (i <? String.length nm - 1) then Str.take i nm else nm
  | None => nm
  end.

Definition suffix (p : Path) : string := suffix_of (name p).
Definition stem (p : Path) : string := stem_of (name p).

(** [p.with_name(nm)]: fails on a path without a name and on an invalid
    replacement. *)
Definition with_name (p : Path) (nm : string) : exn + Path :=
  if bool_decide (name p = "") then
    inl (ValueError "path has an empty name")
  else if bool_decide (nm = "") || Str.mem "/" nm || bool_decide (nm = ".")
  then inl (ValueError "invalid name")
  else inr (mkPath (anchored p) (removelast (parts p) ++ [nm])).

(** [p.with_stem(st)] is [p.with_name(st + p.suffix)]. *)
Definition with_stem (p : Path) (st : string) : exn + Path :=
  with_name p (st +:+ suffix p).

(** [p.with_suffix(sfx)]. *)
Definition with_suffix (p : Path) (sfx : string) : exn + Path :=
  if Str.mem "/" sfx then inl (ValueError "invalid suffix")
  else if (negb (bool_decide (sfx = "")) && negb (String.prefix "." sfx))
          || bool_decide (sfx = ".")
  then inl (ValueError "invalid suffix")
  else if bool_decide (name p = "") then
    inl (ValueError "path has an empty name")
  else inr (mkPath (anchored p)
                   (removelast (parts p) ++ [stem p +:+ sfx])).

Fixpoint is_prefix (l1 l2 : list string) : bool :=
  match l1, l2 with
  | [], _ => true
  | x :: l1', y :: l2' => bool_decide (x = y) && is_prefix l1' l2'
  | _ :: _, [] => false
  end.

(** [p.is_relative_to(q)]: purely lexical. *)
Definition is_relative_to (p q : Path) : bool :=
  bool_decide (anchored p = anchored q) && is_prefix (parts q) (parts p).

(** [p.relative_to(q)]. *)
Definition relative_to (p q : Path) : exn + Path :=
  if is_relative_to p q
  then inr (mkPath false (drop (length (parts q)) (parts p)))
  else inl (ValueError "not in the subpath").

(** [p.is_absolute()]. *)
Definition is_absolute (p : Path) : bool := anchored p.

(** [p.resolve()]: with the working directory at the root and neither
    links nor [..] components, resolving anchors the path. *)
Definition resolve (p : Path) : Path := mkPath true (parts p).

End PurePath.


(** ** The file system

    A directory is an association list from names to nodes (the first
    binding of a name is the live one), a regular file carries its bytes.
    The functions of [os], [shutil] and [pathlib] that the service calls
    are given with the error each raises. *)

#[warnings="-register-all"]
Inductive node :=
  | File (data : string)
  | Dir (entries : list (string * node)).

Module FS.

Fixpoint assoc (x : string) (l : list (string * node)) : option node :=
  match l with
  | [] => None
  | (y, n) :: l' => if bool_decide (x = y) then Some n else assoc x l'
  end.

Fixpoint set_assoc (x : string) (v : node) (l : list (string * node))
  : list (string * node) :=
  match l with
  | [] => [(x, v)]
  | (y, n) :: l' =>
      if bool_decide (x = y) then (y, v) :: l' else (y, n) :: set_assoc x v l'
  end.

Fixpoint del_assoc (x : string) (l : list (string * node))
  : list (string * node) :=
  match l with
  | [] => []
  | (y, n) :: l' =>
      if bool_decide (x = y) then del_assoc x l' else (y, n) :: del_assoc x l'
  end.

Fixpoint lookup (n : node) (p : list string) : option node :=
  match p with
  | [] => Some n
  | x :: p' =>
      match n with
      | Dir l => match assoc x l with
                 | Some c => lookup c p'
                 | None => None
                 end
      | File _ => None
      end
  end.

(** The error of a system call on a path that [lookup] does not find:
    [ENOTDIR] when a regular file is in the way, [ENOENT] otherwise. *)
Fixpoint missing_error (n : node) (p : list string) : exn :=
  match p with
  | [] => FileNotFoundError
  | x :: p' =>
      match n with
      | Dir l => match assoc x l with
                 | Some c => missing_error c p'
                 | None => FileNotFoundError
                 end
      | File _ => NotADirectoryError
      end
  end.

(** Bind [v] at [p]; the parent of [p] must be an existing directory. *)
Fixpoint put (n : node) (p : list string) (v : node) : option node :=
  match p with
  | [] => Some v
  | x :: p' =>
      match n with
      | Dir l =>
          match p' with
          | [] => Some (Dir (set_assoc x v l))
          | _ :: _ =>
              match assoc x l with
              | Some c =>
                  match put c p' v with
                  | Some c' => Some (Dir (set_assoc x c' l))
                  | None => None
                  end
              | None => None
              end
          end
      | File _ => None
      end
  end.

(** Unbind [p], which must exist and must not be the root. *)
Fixpoint remove (n : node) (p : list string) : option node :=
  match p with
  | [] => None
  | x :: p' =>
      match n with
      | Dir l =>
          match assoc x l with
          | Some c =>
              match p' with
              | [] => Some (Dir (del_assoc x l))
              | _ :: _ =>
                  match remove c p' with
                  | Some c' => Some (Dir (set_assoc x c' l))
                  | None => None
                  end
              end
          | None => None
          end
      | File _ => None
      end
  end.

(** [Path.mkdir(parents=True, exist_ok=True)]: missing directories are
    created; a regular file at the path itself raises [FileExistsError],
    a regular file on the way raises [NotADirectoryError]. *)
Fixpoint mkdirs (n : node) (p : list string) : exn + node :=
  match p with
  | [] => match n with
          | Dir _ => inr n
          | File _ => inl FileExistsError
          end
  | x :: p' =>
      match n with
      | Dir l =>
          match mkdirs (default (Dir []) (assoc x l)) p' with
          | inr c' => inr (Dir (set_assoc x c' l))
          | inl e => inl e
          end
      | File _ => inl NotADirectoryError
      end
  end.

(** Sum of the sizes of the regular files of a tree. *)
Fixpoint size (n : node) : nat :=
  match n with
  | File d => String.length d
  | Dir l =>
      (fix go (l : list (string * node)) : nat :=
         match l with
         | [] => 0
         | (_, c) :: l' => size c + go l'
         end) l
  end.

Definition exists_ (fs : node) (p : Path) : bool :=
  bool_decide (is_Some (lookup fs (parts p))).

Definition is_dir (fs : node) (p : Path) : bool :=
  match lookup fs (parts p) with Some (Dir _) => true | _ => false end.

Definition is_file (fs : node) (p : Path) : bool :=
  match lookup fs (parts p) with Some (File _) => true | _ => false end.

Definition mkdir_parents (fs : node) (p : Path) : exn + node :=
  mkdirs fs (parts p).

(** [p1] is a proper ancestor of [p2]. *)
Definition inside (p1 p2 : list string) : bool :=
  PurePath.is_prefix p1 p2 && negb (bool_decide (p1 = p2)).

(** [open(p).read()]. *)
Definition read (fs : node) (p : Path) : exn + string :=
  match lookup fs (parts p) with
  | Some (File d) => inr d
  | Some (Dir _) => inl IsADirectoryError
  | None => inl (missing_error fs (parts p))
  end.

(** [open(p, "wb").write(d)]: creates or truncates a regular file. *)
Definition write (fs : node) (p : Path) (d : string) : exn + node :=
  match lookup fs (parts p) with
  | Some (Dir _) => inl IsADirectoryError
  | _ =>
      match put fs (parts p) (File d) with
      | Some fs' => inr fs'
      | None => inl (missing_error fs (removelast (parts p)))
      end
  end.

(** [shutil.copyfile(src, dst)]: an existing regular file at [dst] is
    replaced. *)
Definition copyfile (fs : node) (src dst : Path) : exn + node :=
  if exists_ fs src && bool_decide (parts src = parts dst)
  then inl SameFileError
  else match read fs src with
       | inl e => inl e
       | inr d => write fs dst d
       end.

(** [shutil.copytree(src, dst)] with [dirs_exist_ok=False]: the
    destination must not exist; its missing ancestors are created. *)
Definition copytree (fs : node) (src dst : Path) : exn + node :=
  match lookup fs (parts src) with
  | None => inl (missing_error fs (parts src))
  | Some (File _) => inl NotADirectoryError
  | Some (Dir l) =>
      if exists_ fs dst then inl FileExistsError
      else if PurePath.is_prefix (parts src) (parts dst)
      then inl ShutilError
      else
        match mkdirs fs (removelast (parts dst)) with
        | inl FileExistsError => inl NotADirectoryError
        | inl e => inl e
        | inr fs1 =>
            match put fs1 (parts dst) (Dir l) with
            | Some fs2 => inr fs2
            | None => inl OSError
            end
        end
  end.

(** [os.rename(src, dst)]. *)
Definition rename (fs : node) (src dst : Path) : exn + node :=
  match lookup fs (parts src) with
  | None => inl (missing_error fs (parts src))
  | Some s =>
      if bool_decide (parts src = parts dst) then inr fs
      else if PurePath.is_prefix (parts src) (parts dst)
              || PurePath.is_prefix (parts dst) (parts src)
      then inl OSError
      else
        let go :=
          match remove fs (parts src) with
          | Some fs1 =>
              match put fs1 (parts dst) s with
              | Some fs2 => inr fs2
              | None => inl (missing_error fs (removelast (parts dst)))
              end
          | None => inl OSError
          end in
        match lookup fs (parts dst), s with
        | Some (Dir _), File _ => inl IsADirectoryError
        | Some (Dir (_ :: _)), Dir _ => inl OSError
        | Some (File _), Dir _ => inl NotADirectoryError
        | _, _ => go
        end
  end.

(** [shutil.rmtree(p)]. *)
Definition rmtree (fs : node) (p : Path) : exn + node :=
  match lookup fs (parts p) with
  | None => inl (missing_error fs (parts p))
  | Some (File _) => inl NotADirectoryError
  | Some (Dir _) =>
      match remove fs (parts p) with
      | Some fs' => inr fs'
      | None => inl OSError
      end
  end.

(** [os.mkdir(p)]. *)
Definition mkdir (fs : node) (p : Path) : exn + node :=
  match lookup fs (parts p) with
  | Some _ => inl FileExistsError
  | None =>
      match lookup fs (removelast (parts p)) with
      | Some (Dir _) =>
          match put fs (parts p) (Dir []) with
          | Some fs' => inr fs'
          | None => inl OSError
          end
      | Some (File _) => inl NotADirectoryError
      | None => inl (missing_error fs (removelast (parts p)))
      end
  end.

(** [Path.unlink()]. *)
Definition unlink (fs : node) (p : Path) : exn + node :=
  match lookup fs (parts p) with
  | None => inl (missing_error fs (parts p))
  | Some (Dir _) => inl IsADirectoryError
  | Some (File _) =>
      match remove fs (parts p) with
      | Some fs' => inr fs'
      | None => inl OSError
      end
  end.

(** [shutil.move(src, dst)]: into [dst] when it is a directory, onto
    [dst] otherwise; when [os.rename] fails the source is copied and
    then deleted. *)
Definition move_onto (fs : node) (src real_dst : Path) : exn + node :=
  match rename fs src real_dst with
  | inr fs' => inr fs'
  | inl _ =>
      if is_dir fs src then
        if PurePath.is_prefix (parts src) (parts real_dst)
        then inl ShutilError
        else match copytree fs src real_dst with
             | inl e => inl e
             | inr fs1 => rmtree fs1 src
             end
      else match copyfile fs src real_dst with
           | inl e => inl e
           | inr fs1 => unlink fs1 src
           end
  end.

Definition move (fs : node) (src dst : Path) : exn + node :=
  if is_dir fs dst && negb (bool_decide (parts src = parts dst)) then
    let real_dst := PurePath.join_str dst (PurePath.name src) in
    if exists_ fs real_dst then inl ShutilError
    else move_onto fs src real_dst
  else move_onto fs src dst.

(** [Path.stat().st_size] summed as [_stat_size] does. *)
Definition stat_size (fs : node) (p : Path) : nat :=
  match lookup fs (parts p) with
  | Some n => size n
  | None => 0
  end.

End FS.

(** ** Data model *)

(** [InstallStatus] of [model_install_base.py]. *)
Inductive InstallStatus :=
  | WAITING | DOWNLOADING | DOWNLOADS_DONE | RUNNING
  | COMPLETED | ERROR | CANCELLED.

#[global] Instance InstallStatus_eq_dec : EqDecision InstallStatus.
Proof. solve_decision. Defined.

(** [ModelSource]: the three kinds of source of an install. *)
Inductive ModelSource :=
  | LocalModelSource (path : Path) (inplace : option bool)
  | HFModelSource (repo_id : string) (variant : option string)
                  (subfolder : option Path) (access_token : option string)
  | URLModelSource (url : string) (access_token : option string).

#[global] Instance ModelSource_eq_dec : EqDecision ModelSource.
Proof. solve_decision. Defined.

(** Repository metadata attached to a remote job. *)
Inductive Metadata :=
  | HuggingFaceMetadata (api_response : string)
  | OtherMetadata.

Record RemoteModelFile := mkRemoteModelFile {
  rf_url : string;
  rf_path : Path;
  rf_size : nat;
}.

(** A model configuration record ([AnyModelConfig]); [config_path] is
    present on the checkpoint configurations ([CheckpointConfigBase]). *)
Module ModelConfig.
Record t := mk {
  key : string;
  base : string;
  type : string;
  name : string;
  path : string;
  config_path : option string;
}.
Definition set_path (v : string) (c : t) : t :=
  mk (key c) (base c) (type c) (name c) v (config_path c).
Definition set_config_path (v : option string) (c : t) : t :=
  mk (key c) (base c) (type c) (name c) (path c) v.
End ModelConfig.

(** Modelled from the spec: [DownloadJob] of the download service, which
    is not part of this file. The install service reads these attributes
    of a part; [complete] and [in_terminal_state] are the part's own status
    predicates. *)
Module DownloadJob.
Record t := mk {
  source : string;
  dest : Path;
  access_token : option string;
  download_path : option Path;
  bytes : nat;
  total_bytes : nat;
  content_type : option string;
  complete : bool;
  in_terminal_state : bool;
}.
End DownloadJob.

(** Modelled from the spec: [ModelInstallJob] of [model_install_base.py],
    which is not part of this file: the attributes that the service reads
    and writes, the status predicates, [cancel] (mark cancelled) and
    [set_error] (status [ERROR] with the error and its type recorded). *)
Module Job.
Record t := mk {
  id : nat;
  source : ModelSource;
  config_in : gmap string string;
  config_out : option ModelConfig.t;
  source_metadata : option Metadata;
  local_path : Path;
  _install_tmpdir : option Path;
  inplace : bool;
  download_parts : list nat;
  bytes : nat;
  total_bytes : nat;
  status : InstallStatus;
  error : option string;
  error_type : option string;
}.

Definition set_status (v : InstallStatus) (j : t) : t :=
  mk (id j) (source j) (config_in j) (config_out j) (source_metadata j)
     (local_path j) (_install_tmpdir j) (inplace j) (download_parts j)
     (bytes j) (total_bytes j) v (error j) (error_type j).
Definition set_source (v : ModelSource) (j : t) : t :=
  mk (id j) v (config_in j) (config_out j) (source_metadata j)
     (local_path j) (_install_tmpdir j) (inplace j) (download_parts j)
     (bytes j) (total_bytes j) (status j) (error j) (error_type j).
Definition set_config_in (v : gmap string string) (j : t) : t :=
  mk (id j) (source j) v (config_out j) (source_metadata j)
     (local_path j) (_install_tmpdir j) (inplace j) (download_parts j)
     (bytes j) (total_bytes j) (status j) (error j) (error_type j).
Definition set_config_out (v : option ModelConfig.t) (j : t) : t :=
  mk (id j) (source j) (config_in j) v (source_metadata j)
     (local_path j) (_install_tmpdir j) (inplace j) (download_parts j)
     (bytes j) (total_bytes j) (status j) (error j) (error_type j).
Definition set_local_path (v : Path) (j : t) : t :=
  mk (id j) (source j) (config_in j) (config_out j) (source_metadata j)
     v (_install_tmpdir j) (inplace j) (download_parts j)
     (bytes j) (total_bytes j) (status j) (error j) (error_type j).
Definition set__install_tmpdir (v : option Path) (j : t) : t :=
  mk (id j) (source j) (config_in j) (config_out j) (source_metadata j)
     (local_path j) v (inplace j) (download_parts j)
     (bytes j) (total_bytes j) (status j) (error j) (error_type j).
Definition set_download_parts (v : list nat) (j : t) : t :=
  mk (id j) (source j) (config_in j) (config_out j) (source_metadata j)
     (local_path j) (_install_tmpdir j) (inplace j) v
     (bytes j) (total_bytes j) (status j) (error j) (error_type j).
Definition set_bytes (v : nat) (j : t) : t :=
  mk (id j) (source j) (config_in j) (config_out j) (source_metadata j)
     (local_path j) (_install_tmpdir j) (inplace j) (download_parts j)
     v (total_bytes j) (status j) (error j) (error_type j).
Definition set_total_bytes (v : nat) (j : t) : t :=
  mk (id j) (source j) (config_in j) (config_out j) (source_metadata j)
     (local_path j) (_install_tmpdir j) (inplace j) (download_parts j)
     (bytes j) v (status j) (error j) (error_type j).
Definition set_error_fields (e et : option string) (j : t) : t :=
  mk (id j) (source j) (config_in j) (config_out j) (source_metadata j)
     (local_path j) (_install_tmpdir j) (inplace j) (download_parts j)
     (bytes j) (total_bytes j) (status j) e et.

Definition in_terminal_state (j : t) : bool :=
  bool_decide (status j = COMPLETED) || bool_decide (status j = ERROR)
  || bool_decide (status j = CANCELLED).
Definition cancelled (j : t) : bool := bool_decide (status j = CANCELLED).
Definition errored (j : t) : bool := bool_decide (status j = ERROR).
Definition complete (j : t) : bool := bool_decide (status j = COMPLETED).
Definition downloading (j : t) : bool := bool_decide (status j = DOWNLOADING).
Definition downloads_done (j : t) : bool :=
  bool_decide (status j = DOWNLOADS_DONE).
Definition waiting (j : t) : bool := bool_decide (status j = WAITING).

Definition cancel (j : t) : t := set_status CANCELLED j.
End Job.

(** The class name and the message of an exception ([type(e).__name__]
    and [str(e)]). *)
Definition exn_class (e : exn) : string :=
  match e with
  | FileExistsError => "FileExistsError"
  | FileNotFoundError => "FileNotFoundError"
  | IsADirectoryError => "IsADirectoryError"
  | NotADirectoryError => "NotADirectoryError"
  | SameFileError => "SameFileError"
  | ShutilError => "Error"
  | OSError => "OSError"
  | ValueError _ => "ValueError"
  | KeyError => "KeyError"
  | AssertionError => "AssertionError"
  | DuplicateModelException => "DuplicateModelException"
  | UnknownModelException => "UnknownModelException"
  | InvalidModelConfigException _ => "InvalidModelConfigException"
  | OtherError c _ => c
  end.

Definition exn_message (e : exn) : string :=
  match e with
  | ValueError m | InvalidModelConfigException m | OtherError _ m => m
  | _ => ""
  end.

Definition job_set_error (e : exn) (j : Job.t) : Job.t :=
  Job.set_status ERROR
    (Job.set_error_fields (Some (exn_message e)) (Some (exn_class e)) j).

(** The read-only application configuration; [legacy_models_yaml_path] is
    the one attribute the service assigns. *)
Module AppConfig.
Record t := mk {
  root_path : Path;
  models_path : Path;
  legacy_conf_path : Path;
  convert_cache_path : Path;
  legacy_models_yaml_path : option Path;
  scan_models_on_startup : bool;
  remote_api_tokens : list (string * string);
  hashing_algorithm : string;
}.
Definition set_legacy_models_yaml_path (v : option Path) (c : t) : t :=
  mk (root_path c) (models_path c) (legacy_conf_path c)
     (convert_cache_path c) v (scan_models_on_startup c)
     (remote_api_tokens c) (hashing_algorithm c).
End AppConfig.

(** Notifications put on the event bus. *)
Inductive Event :=
  | emit_model_install_running (source : string)
  | emit_model_install_downloading
      (source local_path : string) (parts : list (string * string * nat * nat))
      (bytes total_bytes id : nat)
  | emit_model_install_downloads_done (source : string)
  | emit_model_install_completed (source key : string) (id : nat)
  | emit_model_install_error (source error_type error : string) (id : nat)
  | emit_model_install_cancelled (source : string) (id : nat).

(** A stanza of the legacy [models.yaml] and the parsed file. *)
Record Stanza := mkStanza {
  stanza_path : string;
  stanza_description : option string;
  stanza_config : option string;
}.

Record LegacyYaml := mkLegacyYaml {
  yaml_metadata : option (gmap string string);
  yaml_models : list (string * Stanza);
}.

(** ** The state of the service

    The attributes of [ModelInstallService] together with the world it
    acts on: the file system ([st_fs]), the records store
    ([_record_store], keyed by the opaque model key), the event bus (when
    one is configured, the list of the notifications emitted so far), the
    stores of the job objects and of the download-job objects ([st_jobs],
    [st_parts], indexed by reference), the install queue with its count of
    unfinished tasks, and the download jobs submitted to the download
    queue ([_download_queue]). [_lock] tells whether the service lock is
    held; the three [threading.Event] latches are booleans. *)

Record State := mkState {
  st_fs : node;
  _app_config : AppConfig.t;
  _record_store : gmap string ModelConfig.t;
  _event_bus : option (list Event);
  st_jobs : list Job.t;
  st_parts : list DownloadJob.t;
  _install_jobs : list nat;
  _install_queue : list nat;
  st_unfinished_tasks : nat;
  _lock : bool;
  _stop_event : bool;
  _downloads_changed_event : bool;
  _install_completed_event : bool;
  _download_queue : list nat;
  _download_cache : gmap string nat;
  _next_job_id : nat;
}.

Definition set_st_fs (v : node) (s : State) : State :=
  mkState v (_app_config s) (_record_store s) (_event_bus s) (st_jobs s)
    (st_parts s) (_install_jobs s) (_install_queue s) (st_unfinished_tasks
    s) (_lock s) (_stop_event s) (_downloads_changed_event s)
    (_install_completed_event s) (_download_queue s) (_download_cache s)
    (_next_job_id s).
Definition set__app_config (v : AppConfig.t) (s : State) : State :=
  mkState (st_fs s) v (_record_store s) (_event_bus s) (st_jobs s)
    (st_parts s) (_install_jobs s) (_install_queue s) (st_unfinished_tasks
    s) (_lock s) (_stop_event s) (_downloads_changed_event s)
    (_install_completed_event s) (_download_queue s) (_download_cache s)
    (_next_job_id s).
Definition set__record_store (v : gmap string ModelConfig.t) (s : State) : State :=
  mkState (st_fs s) (_app_config s) v (_event_bus s) (st_jobs s) (st_parts
    s) (_install_jobs s) (_install_queue s) (st_unfinished_tasks s) (_lock
    s) (_stop_event s) (_downloads_changed_event s)
    (_install_completed_event s) (_download_queue s) (_download_cache s)
    (_next_job_id s).
Definition set__event_bus (v : option (list Event)) (s : State) : State :=
  mkState (st_fs s) (_app_config s) (_record_store s) v (st_jobs s)
    (st_parts s) (_install_jobs s) (_install_queue s) (st_unfinished_tasks
    s) (_lock s) (_stop_event s) (_downloads_changed_event s)
    (_install_completed_event s) (_download_queue s) (_download_cache s)
    (_next_job_id s).
Definition set_st_jobs (v : list Job.t) (s : State) : State :=
  mkState (st_fs s) (_app_config s) (_record_store s) (_event_bus s) v
    (st_parts s) (_install_jobs s) (_install_queue s) (st_unfinished_tasks
    s) (_lock s) (_stop_event s) (_downloads_changed_event s)
    (_install_completed_event s) (_download_queue s) (_download_cache s)
    (_next_job_id s).
Definition set_st_parts (v : list DownloadJob.t) (s : State) : State :=
  mkState (st_fs s) (_app_config s) (_record_store s) (_event_bus s)
    (st_jobs s) v (_install_jobs s) (_install_queue s)
    (st_unfinished_tasks s) (_lock s) (_stop_event s)
    (_downloads_changed_event s) (_install_completed_event s)
    (_download_queue s) (_download_cache s) (_next_job_id s).
Definition set__install_jobs (v : list nat) (s : State) : State :=
  mkState (st_fs s) (_app_config s) (_record_store s) (_event_bus s)
    (st_jobs s) (st_parts s) v (_install_queue s) (st_unfinished_tasks s)
    (_lock s) (_stop_event s) (_downloads_changed_event s)
    (_install_completed_event s) (_download_queue s) (_download_cache s)
    (_next_job_id s).
Definition set__install_queue (v : list nat) (s : State) : State :=
  mkState (st_fs s) (_app_config s) (_record_store s) (_event_bus s)
    (st_jobs s) (st_parts s) (_install_jobs s) v (st_unfinished_tasks s)
    (_lock s) (_stop_event s) (_downloads_changed_event s)
    (_install_completed_event s) (_download_queue s) (_download_cache s)
    (_next_job_id s).
Definition set_st_unfinished_tasks (v : nat) (s : State) : State :=
  mkState (st_fs s) (_app_config s) (_record_store s) (_event_bus s)
    (st_jobs s) (st_parts s) (_install_jobs s) (_install_queue s) v (_lock
    s) (_stop_event s) (_downloads_changed_event s)
    (_install_completed_event s) (_download_queue s) (_download_cache s)
    (_next_job_id s).
Definition set__lock (v : bool) (s : State) : State :=
  mkState (st_fs s) (_app_config s) (_record_store s) (_event_bus s)
    (st_jobs s) (st_parts s) (_install_jobs s) (_install_queue s)
    (st_unfinished_tasks s) v (_stop_event s) (_downloads_changed_event s)
    (_install_completed_event s) (_download_queue s) (_download_cache s)
    (_next_job_id s).
Definition set__stop_event (v : bool) (s : State) : State :=
  mkState (st_fs s) (_app_config s) (_record_store s) (_event_bus s)
    (st_jobs s) (st_parts s) (_install_jobs s) (_install_queue s)
    (st_unfinished_tasks s) (_lock s) v (_downloads_changed_event s)
    (_install_completed_event s) (_download_queue s) (_download_cache s)
    (_next_job_id s).
Definition set__downloads_changed_event (v : bool) (s : State) : State :=
  mkState (st_fs s) (_app_config s) (_record_store s) (_event_bus s)
    (st_jobs s) (st_parts s) (_install_jobs s) (_install_queue s)
    (st_unfinished_tasks s) (_lock s) (_stop_event s) v
    (_install_completed_event s) (_download_queue s) (_download_cache s)
    (_next_job_id s).
Definition set__install_completed_event (v : bool) (s : State) : State :=
  mkState (st_fs s) (_app_config s) (_record_store s) (_event_bus s)
    (st_jobs s) (st_parts s) (_install_jobs s) (_install_queue s)
    (st_unfinished_tasks s) (_lock s) (_stop_event s)
    (_downloads_changed_event s) v (_download_queue s) (_download_cache s)
    (_next_job_id s).
Definition set__download_queue (v : list nat) (s : State) : State :=
  mkState (st_fs s) (_app_config s) (_record_store s) (_event_bus s)
    (st_jobs s) (st_parts s) (_install_jobs s) (_install_queue s)
    (st_unfinished_tasks s) (_lock s) (_stop_event s)
    (_downloads_changed_event s) (_install_completed_event s) v
    (_download_cache s) (_next_job_id s).
Definition set__download_cache (v : gmap string nat) (s : State) : State :=
  mkState (st_fs s) (_app_config s) (_record_store s) (_event_bus s)
    (st_jobs s) (st_parts s) (_install_jobs s) (_install_queue s)
    (st_unfinished_tasks s) (_lock s) (_stop_event s)
    (_downloads_changed_event s) (_install_completed_event s)
    (_download_queue s) v (_next_job_id s).
Definition set__next_job_id (v : nat) (s : State) : State :=
  mkState (st_fs s) (_app_config s) (_record_store s) (_event_bus s)
    (st_jobs s) (st_parts s) (_install_jobs s) (_install_queue s)
    (st_unfinished_tasks s) (_lock s) (_stop_event s)
    (_downloads_changed_event s) (_install_completed_event s)
    (_download_queue s) (_download_cache s) v.

(** ** Outcomes and the service monad

    A method either returns, raises, or blocks for ever acquiring the
    service lock (a [threading.Lock], which is not re-entrant); each
    outcome carries the state reached. *)

Inductive outcome (A : Type) :=
  | Ok (a : A) (s : State)
  | Raise (e : exn) (s : State)
  | Blocked (s : State).
Arguments Ok {A} a s.
Arguments Raise {A} e s.
Arguments Blocked {A} s.

Definition M (A : Type) : Type := State → outcome A.

#[global] Instance M_ret : MRet M := λ A a s, Ok a s.
#[global] Instance M_bind : MBind M := λ A B f m s,
  match m s with
  | Ok a s' => f a s'
  | Raise e s' => Raise e s'
  | Blocked s' => Blocked s'
  end.

Definition final_state {A} (o : outcome A) : State :=
  match o with Ok _ s | Raise _ s | Blocked s => s end.

Definition raise {A} (e : exn) : M A := λ s, Raise e s.
Definition gets {A} (f : State → A) : M A := λ s, Ok (f s) s.
Definition modify (f : State → State) : M unit := λ s, Ok tt (f s).

(** [try: m except <classes selected by h> as e: h e]. *)
Definition try_except {A} (m : M A) (h : exn → option (M A)) : M A := λ s,
  match m s with
  | Raise e s' => match h e with
                  | Some k => k s'
                  | None => Raise e s'
                  end
  | o => o
  end.

(** [try: m finally: f]; an exception raised by [f] replaces the outcome
    of [m]. *)
Definition try_finally {A} (m : M A) (f : M unit) : M A := λ s,
  match m s with
  | Ok a s' => match f s' with
               | Ok _ s'' => Ok a s''
               | Raise e s'' => Raise e s''
               | Blocked s'' => Blocked s''
               end
  | Raise e s' => match f s' with
                  | Ok _ s'' => Raise e s''
                  | Raise e' s'' => Raise e' s''
                  | Blocked s'' => Blocked s''
                  end
  | Blocked s' => Blocked s'
  end.

(** [with self._lock: m]. *)
Definition with_lock {A} (m : M A) : M A := λ s,
  if _lock s then Blocked s
  else match m (set__lock true s) with
       | Ok a s' => Ok a (set__lock false s')
       | Raise e s' => Raise e (set__lock false s')
       | Blocked s' => Blocked s'
       end.

(** Lifting a file-system call. *)
Definition fs_call (f : node → exn + node) : M unit := λ s,
  match f (st_fs s) with
  | inr fs' => Ok tt (set_st_fs fs' s)
  | inl e => Raise e s
  end.

Definition of_sum {A} (r : exn + A) : M A :=
  match r with inr a => mret a | inl e => raise e end.

(** Reading and updating a job object and a download-job object. *)
Definition get_job (r : nat) : M Job.t := λ s,
  match st_jobs s !! r with
  | Some j => Ok j s
  | None => Raise (OtherError "ReferenceError" "no such job object") s
  end.

Definition update_job (r : nat) (f : Job.t → Job.t) : M unit := λ s,
  match st_jobs s !! r with
  | Some j => Ok tt (set_st_jobs (<[r := f j]> (st_jobs s)) s)
  | None => Raise (OtherError "ReferenceError" "no such job object") s
  end.

Definition get_part (r : nat) : M DownloadJob.t := λ s,
  match st_parts s !! r with
  | Some d => Ok d s
  | None => Raise (OtherError "ReferenceError" "no such download job") s
  end.

(** The download-job objects of a job. *)
Definition job_parts (s : State) (j : Job.t) : list DownloadJob.t :=
  omap (λ r, st_parts s !! r) (Job.download_parts j).

(** [if self._event_bus: self._event_bus.emit_...]. *)
Definition emit (ev : Event) : M unit :=
  modify (λ s, match _event_bus s with
               | Some log => set__event_bus (Some (log ++ [ev])) s
               | None => s
               end).

(** ** Regular expressions

    The fragment of Python's [re] that the patterns of the service use,
    with its backtracking order: alternatives from left to right, [?] and
    [+] greedy. A match is computed in continuation-passing style; the
    result is the table of the captured groups of the first successful
    path. *)

Module Regex.

Inductive re :=
  | Lit (s : string)            (* the characters of [s] *)
  | Cls (p : ascii → bool)      (* one character of a class *)
  | Plus (p : ascii → bool)     (* one or more characters of a class *)
  | Seq (r1 r2 : re)
  | Alt (r1 r2 : re)
  | Opt (r : re)
  | Group (n : nat) (r : re)    (* capturing group number [n] *)
  | Eol.                        (* [$] *)

Definition captures := gmap nat string.

Fixpoint strip_prefix (lit s : string) : option string :=
  match lit, s with
  | EmptyString, _ => Some s
  | String a lit', String b s' =>
      if Ascii.eqb a b then strip_prefix lit' s' else None
  | String _ _, EmptyString => None
  end.

Fixpoint plus_from (p : ascii → bool) (s : string)
    (k : string → option captures) : option captures :=
  match s with
  | String c s' =>
      if p c then
        match plus_from p s' k with
        | Some r => Some r
        | None => k s'
        end
      else None
  | EmptyString => None
  end.

Definition newline : ascii := ascii_of_nat 10.

Fixpoint run (r : re) (s : string) (caps : captures)
    (k : string → captures → option captures) : option captures :=
  match r with
  | Lit l => match strip_prefix l s with
             | Some s' => k s' caps
             | None => None
             end
  | Cls p => match s with
             | String c s' => if p c then k s' caps else None
             | EmptyString => None
             end
  | Plus p => plus_from p s (λ s', k s' caps)
  | Seq r1 r2 => run r1 s caps (λ s' caps', run r2 s' caps' k)
  | Alt r1 r2 => match run r1 s caps k with
                 | Some c => Some c
                 | None => run r2 s caps k
                 end
  | Opt r1 => match run r1 s caps k with
              | Some c => Some c
              | None => k s caps
              end
  | Group n r1 =>
      run r1 s caps
          (λ s' caps',
             k s' (<[n := Str.take (String.length s - String.length s') s]>
                     caps'))
  | Eol => if bool_decide (s = "") || bool_decide (s = String newline "")
           then k s caps else None
  end.

(** [re.match(r, s)]: a match at the start of [s]. *)
Definition match_ (r : re) (s : string) : option captures :=
  run r s ∅ (λ _ caps, Some caps).

(** [m.group(n)]. *)
Definition group (m : captures) (n : nat) : option string := m !! n.

Fixpoint seq (rs : list re) : re :=
  match rs with
  | [] => Lit ""
  | [r] => r
  | r :: rs' => Seq r (seq rs')
  end.

(** ["|".join(words)] as a pattern; the words are taken literally. *)
Fixpoint alternatives (words : list string) : re :=
  match words with
  | [] => Lit ""
  | [w] => Lit w
  | w :: ws => Alt (Lit w) (alternatives ws)
  end.

Definition none_of (cs : string) : ascii → bool := λ c, negb (Str.mem c cs).
Definition any_char : ascii → bool := λ c, negb (Ascii.eqb c newline).

End Regex.

(** [^([^/:]+/[^/:]+)(?::(<variants>)?(?::/?([^:]+))?)?$] *)
Definition hf_repoid_re (variants : list string) : Regex.re :=
  Regex.seq
    [ Regex.Group 1
        (Regex.seq [Regex.Plus (Regex.none_of "/:"); Regex.Lit "/";
                    Regex.Plus (Regex.none_of "/:")]);
      Regex.Opt
        (Regex.seq
           [ Regex.Lit ":";
             Regex.Opt (Regex.Group 2 (Regex.alternatives variants));
             Regex.Opt
               (Regex.seq [Regex.Lit ":"; Regex.Opt (Regex.Lit "/");
                           Regex.Group 3 (Regex.Plus (Regex.none_of ":"))]) ]);
      Regex.Eol ].

(** [^https?://[^/]+] *)
Definition url_re : Regex.re :=
  Regex.seq [Regex.Lit "http"; Regex.Opt (Regex.Lit "s"); Regex.Lit "://";
             Regex.Plus (Regex.none_of "/")].

(** [^https?://huggingface.co/[^/]+/[^/]+$], in which the dot stands for
    any character. *)
Definition hf_url_re : Regex.re :=
  Regex.seq [Regex.Lit "http"; Regex.Opt (Regex.Lit "s");
             Regex.Lit "://huggingface"; Regex.Cls Regex.any_char;
             Regex.Lit "co/"; Regex.Plus (Regex.none_of "/"); Regex.Lit "/";
             Regex.Plus (Regex.none_of "/"); Regex.Eol].


(** ** The collaborators of the service

    The probe, the download queue, the metadata fetchers, the YAML parser
    and the other functions that the service calls but does not define.
    They are parameters of the development. *)

Record Host := mkHost {
  (** [ModelProbe.probe(path, config, hash_algo)] on the current disk. *)
  probe : node → Path → gmap string string → string → exn + ModelConfig.t;
  (** What [DownloadQueueService.cancel_job] does to a download job. *)
  dq_cancel_job : DownloadJob.t → DownloadJob.t;
  (** [str(source)]. *)
  str_source : ModelSource → string;
  (** [MODEL_SOURCE_TO_TYPE_MAP[source.__class__]]. *)
  source_type_of : ModelSource → string;
  (** [ModelSourceType.Path]. *)
  source_type_path : string;
  (** [ModelRepoVariant.__members__.values()]. *)
  variants : list string;
  (** [AnyHttpUrl(s)]: the text of the URL object built from [s]. *)
  any_http_url : string → string;
  (** [re.search(pattern, s)] for the patterns of the configuration. *)
  re_search : string → string → bool;
  (** [HfFolder.get_token()]. *)
  hf_get_token : option string;
  (** [self._guess_variant()]. *)
  guess_variant : option string;
  (** [HuggingFaceMetadataFetch(session).from_id(repo_id, variant)]
      followed by [download_urls(variant, subfolder, session)]. *)
  hf_from_id :
    string → option string → option string → option Path →
    exn + (Metadata * list RemoteModelFile);
  (** [HuggingFaceMetadataFetch(session).from_url(url)] followed by
      [download_urls(session)]. *)
  hf_from_url : string → exn + (Metadata * list RemoteModelFile);
  (** The random part of the name that [mkdtemp] chooses. *)
  mkdtemp_suffix : node → string;
  (** [yaml.safe_load] on the text of a file. *)
  yaml_safe_load : string → exn + LegacyYaml;
}.

Definition TMPDIR_PREFIX : string := "tmpinstall_".

(** Modelled from the spec: the records store (its implementation is not
    part of this file): entries are kept by their opaque key; adding an
    entry under a key already present fails with [Duplicate], reading a
    missing key fails. *)
Definition add_model (info : ModelConfig.t) : M unit := λ s,
  match _record_store s !! ModelConfig.key info with
  | Some _ => Raise DuplicateModelException s
  | None =>
      Ok tt (set__record_store
               (<[ModelConfig.key info := info]> (_record_store s)) s)
  end.

Definition get_model (key : string) : M ModelConfig.t := λ s,
  match _record_store s !! key with
  | Some c => Ok c s
  | None => Raise UnknownModelException s
  end.

Definition all_models (s : State) : list ModelConfig.t :=
  (map_to_list (_record_store s)).*2.

(** [Queue.put], [Queue.get(timeout=1)] and [Queue.task_done]. *)
Definition queue_put (job : nat) : M unit :=
  modify (λ s, set_st_unfinished_tasks (S (st_unfinished_tasks s))
                 (set__install_queue (_install_queue s ++ [job]) s)).

Definition queue_get : M (option nat) := λ s,
  match _install_queue s with
  | job :: q => Ok (Some job) (set__install_queue q s)
  | [] => Ok None s
  end.

Definition queue_task_done : M unit := λ s,
  match st_unfinished_tasks s with
  | S n => Ok tt (set_st_unfinished_tasks n s)
  | 0 => Raise (ValueError "task_done() called too many times") s
  end.


(** [for x in l: f x]. *)
Fixpoint for_each {A} (l : list A) (f : A → M unit) : M unit :=
  match l with
  | [] => mret tt
  | x :: l' => f x;; for_each l' f
  end.

(** Creation of a job object and of a download-job object; the result is
    the reference of the new object. *)
Definition new_job (j : Job.t) : M nat := λ s,
  Ok (length (st_jobs s)) (set_st_jobs (st_jobs s ++ [j]) s).

Definition new_part (d : DownloadJob.t) : M nat := λ s,
  Ok (length (st_parts s)) (set_st_parts (st_parts s ++ [d]) s).

(** [self._download_cache[url]] and [self._download_cache.pop(url, None)]. *)
Definition cache_lookup (url : string) : M nat := λ s,
  match _download_cache s !! url with
  | Some job => Ok job s
  | None => Raise KeyError s
  end.

Definition cache_pop (url : string) : M (option nat) := λ s,
  Ok (_download_cache s !! url)
     (set__download_cache (delete url (_download_cache s)) s).

(** The iterations of the worker loop end with [continue] or [break]. *)
Inductive loop_ctl := Continue | Break.

Section Service.

Context (H : Host).

(** *** Cancellation and the install queue

    [_put_in_queue], [cancel_job] and [_cancel_download_parts] call each
    other. [cancel_job] takes the service lock around
    [_cancel_download_parts], so a call of [cancel_job] made from inside
    that block never gets past the lock: the recursion is two calls
    deep at most ([cancel_job_depth]). *)

Definition _put_in_queue_ (cancel_job : nat → M unit) (job : nat) : M unit :=
  stop ← gets _stop_event;
  if (stop : bool) then cancel_job job else queue_put job.

Definition _cancel_download_parts_ (cancel_job : nat → M unit)
    (install_job : nat) : M unit :=
  j ← get_job install_job;
  modify (λ s, set_st_parts
                 (foldr (λ r ps, alter (dq_cancel_job H) r ps)
                        (st_parts s) (Job.download_parts j)) s);;
  s ← gets id;
  if forallb DownloadJob.in_terminal_state (job_parts s j)
  then _put_in_queue_ cancel_job install_job
  else mret tt.

Definition cancel_job_ (cancel_job : nat → M unit) (job : nat) : M unit :=
  update_job job Job.cancel;;
  with_lock (_cancel_download_parts_ cancel_job job).

Fixpoint cancel_job_n (n : nat) : nat → M unit :=
  match n with
  | 0 => λ _ s, Blocked s
  | S n' => cancel_job_ (cancel_job_n n')
  end.

Definition cancel_job : nat → M unit := cancel_job_n 2.
Definition _put_in_queue : nat → M unit := _put_in_queue_ cancel_job.
Definition _cancel_download_parts : nat → M unit :=
  _cancel_download_parts_ cancel_job.

(** *** Placing a model in the models directory *)

Definition _copy_model (old_path new_path : Path) : M Path :=
  if bool_decide (old_path = new_path) then mret old_path
  else
    fs_call (λ fs, FS.mkdir_parents fs (PurePath.parent new_path));;
    is_dir ← gets (λ s, FS.is_dir (st_fs s) old_path);
    (if (is_dir : bool)
     then fs_call (λ fs, FS.copytree fs old_path new_path)
     else fs_call (λ fs, FS.copyfile fs old_path new_path));;
    mret new_path.

(** The loop of [_move_model]: [new_path] is replaced by the first
    candidate [<stem>_<counter><suffix>] that does not exist. The loop
    is given fuel; [None] stands for a run that has not finished. *)
Fixpoint unique_path (fuel : nat) (fs : node) (new_path : Path)
    (counter : nat) : option (exn + Path) :=
  if negb (FS.exists_ fs new_path) then Some (inr new_path)
  else
    match fuel with
    | 0 => None
    | S fuel' =>
        match PurePath.with_stem new_path
                (PurePath.stem new_path +:+ "_" +:+ Str.fmt02d counter) with
        | inl e => Some (inl e)
        | inr path =>
            unique_path fuel' fs
              (if negb (FS.exists_ fs path) then path else new_path)
              (S counter)
        end
    end.

Definition _move_model (fuel : nat) (old_path new_path : Path)
    : State → option (outcome Path) := λ s,
  if bool_decide (old_path = new_path) then Some (Ok old_path s)
  else
    match fs_call (λ fs, FS.mkdir_parents fs (PurePath.parent new_path)) s with
    | Ok _ s1 =>
        match unique_path fuel (st_fs s1) new_path 1 with
        | None => None
        | Some (inl e) => Some (Raise e s1)
        | Some (inr new_path') =>
            Some ((fs_call (λ fs, FS.move fs old_path new_path');;
                   mret new_path') s1)
        end
    | Raise e s1 => Some (Raise e s1)
    | Blocked s1 => Some (Blocked s1)
    end.

(** *** Registration *)

(** [path.relative_to(root) if path.is_relative_to(root) else path]. *)
Definition relativize (path root : Path) : M Path :=
  if PurePath.is_relative_to path root
  then of_sum (PurePath.relative_to path root)
  else mret path.

Definition _register (model_path : Path) (config : gmap string string)
    (info : option ModelConfig.t) : M string :=
  s ← gets id;
  info ← match info with
         | Some i => mret i
         | None =>
             of_sum (probe H (st_fs s) model_path config
                       (AppConfig.hashing_algorithm (_app_config s)))
         end;
  let model_path := PurePath.resolve model_path in
  (* Models in the Invoke-managed models dir should use relative paths. *)
  model_path ← relativize model_path (AppConfig.models_path (_app_config s));
  let info := ModelConfig.set_path (PurePath.as_posix model_path) info in
  info ← match ModelConfig.config_path info with
         | Some config_path =>
             let legacy_conf_path :=
               AppConfig.legacy_conf_path (_app_config s) in
             let legacy_config_path :=
               PurePath.join_str legacy_conf_path config_path in
             legacy_config_path ← relativize legacy_config_path legacy_conf_path;
             mret (ModelConfig.set_config_path
                     (Some (PurePath.as_posix legacy_config_path)) info)
         | None => mret info
         end;
  add_model info;;
  mret (ModelConfig.key info).

(** [config.get(k)] taken as a truth value: a missing key and an empty
    string are both false. *)
Definition config_get (config : gmap string string) (k : string)
    : option string :=
  match config !! k with
  | Some "" => None
  | o => o
  end.

(** The configuration after the assignments of [register_path]. *)
Definition register_path_config (model_path : Path)
    (config : gmap string string) : gmap string string :=
  let config :=
    match config_get config "source" with
    | Some _ => config
    | None =>
        <["source" := PurePath.as_posix (PurePath.resolve model_path)]> config
    end in
  <["source_type" := source_type_path H]> config.

Definition register_path (model_path : Path) (config : gmap string string)
    : M string :=
  _register model_path (register_path_config model_path config) None.

Definition install_path (model_path : Path) (config : gmap string string)
    : M string :=
  s ← gets id;
  info ← of_sum (probe H (st_fs s) model_path config
                   (AppConfig.hashing_algorithm (_app_config s)));
  preferred_name ←
    match config_get config "name" with
    | Some preferred_name =>
        p ← of_sum (PurePath.with_suffix
                      (PurePath.of_string preferred_name)
                      (PurePath.suffix model_path));
        mret (Some p)
    | None => mret None
    end;
  let dest_path :=
    PurePath.join
      (PurePath.join_str
         (PurePath.join_str (AppConfig.models_path (_app_config s))
                            (ModelConfig.base info))
         (ModelConfig.type info))
      (default (PurePath.of_string (PurePath.name model_path))
               preferred_name) in
  new_path ←
    try_except (_copy_model model_path dest_path)
      (λ excp, match excp with
               | FileExistsError => Some (raise DuplicateModelException)
               | _ => None
               end);
  _register new_path config (Some info).

(** *** Events *)

Definition _signal_job_running (job : nat) : M unit :=
  update_job job (Job.set_status RUNNING);;
  j ← get_job job;
  emit (emit_model_install_running (str_source H (Job.source j))).

Definition _signal_job_downloading (job : nat) : M unit :=
  j ← get_job job;
  s ← gets id;
  let parts :=
    (λ x, (DownloadJob.source x,
           from_option PurePath.as_posix "None" (DownloadJob.download_path x),
           DownloadJob.bytes x, DownloadJob.total_bytes x))
      <$> job_parts s j in
  emit (emit_model_install_downloading
          (str_source H (Job.source j))
          (PurePath.as_posix (Job.local_path j)) parts
          (Job.bytes j) (Job.total_bytes j) (Job.id j)).

Definition _signal_job_downloads_done (job : nat) : M unit :=
  update_job job (Job.set_status DOWNLOADS_DONE);;
  j ← get_job job;
  emit (emit_model_install_downloads_done (str_source H (Job.source j))).

Definition _signal_job_completed (job : nat) : M unit :=
  update_job job (Job.set_status COMPLETED);;
  j ← get_job job;
  match Job.config_out j with
  | None => raise AssertionError
  | Some config_out =>
      emit (emit_model_install_completed
              (str_source H (Job.source j)) (ModelConfig.key config_out)
              (Job.id j))
  end.

Definition _signal_job_errored (job : nat) : M unit :=
  j ← get_job job;
  bus ← gets _event_bus;
  match bus with
  | Some _ =>
      match Job.error_type j, Job.error j with
      | Some error_type, Some error =>
          emit (emit_model_install_error
                  (str_source H (Job.source j)) error_type error (Job.id j))
      | _, _ => raise AssertionError
      end
  | None => mret tt
  end.

Definition _signal_job_cancelled (job : nat) : M unit :=
  j ← get_job job;
  emit (emit_model_install_cancelled (str_source H (Job.source j)) (Job.id j)).

(** *** The install worker *)

Definition _stat_size (path : Path) : M nat :=
  gets (λ s, FS.stat_size (st_fs s) path).

Definition _register_or_install (job : nat) : M unit :=
  j ← get_job job;
  total_bytes ← _stat_size (Job.local_path j);
  update_job job (Job.set_total_bytes total_bytes);;
  update_job job (Job.set_bytes total_bytes);;
  _signal_job_running job;;
  update_job job
    (λ j, Job.set_config_in
            (<["source_type" := source_type_of H (Job.source j)]>
               (<["source" := str_source H (Job.source j)]> (Job.config_in j)))
            j);;
  update_job job
    (λ j, match Job.source_metadata j with
          | Some (HuggingFaceMetadata api_response) =>
              Job.set_config_in
                (<["source_api_response" := api_response]> (Job.config_in j)) j
          | _ => j
          end);;
  j ← get_job job;
  key ← (if Job.inplace j then
           (* [register_path] assigns into the job's own dictionary *)
           update_job job
             (Job.set_config_in
                (register_path_config (Job.local_path j) (Job.config_in j)));;
           register_path (Job.local_path j) (Job.config_in j)
         else install_path (Job.local_path j) (Job.config_in j));
  config_out ← get_model key;
  update_job job (Job.set_config_out (Some config_out));;
  _signal_job_completed job.

Definition is_html (x : DownloadJob.t) : bool :=
  match DownloadJob.content_type x with
  | Some content_type => Str.contains "text/html" content_type
  | None => false
  end.

Definition _set_error (job : nat) (excp : exn) : M unit :=
  j ← get_job job;
  s ← gets id;
  (if existsb is_html (job_parts s j) then
     update_job job
       (job_set_error
          (InvalidModelConfigException
             ("At least one file in "
              +:+ PurePath.as_posix (Job.local_path j)
              +:+ " is an HTML page, not a model. This can happen when an access token is required to download.")))
   else update_job job (job_set_error excp));;
  _signal_job_errored job.

(** The [try] block of the worker for the job taken from the queue. *)
Definition process_job (job : nat) : M unit :=
  j ← get_job job;
  if Job.cancelled j then _signal_job_cancelled job
  else if Job.errored j then _signal_job_errored job
  else if Job.waiting j || Job.downloads_done j
  then _register_or_install job
  else mret tt.

(** The [finally] block. *)
Definition finish_job (job : nat) : M unit :=
  j ← get_job job;
  match Job._install_tmpdir j with
  | Some tmpdir => fs_call (λ fs, FS.rmtree fs tmpdir)
  | None => mret tt
  end;;
  modify (set__install_completed_event true);;
  queue_task_done.

(** The per-job block: [try ... except Exception ... finally ...]. *)
Definition install_job_block (job : nat) : M unit :=
  try_finally
    (try_except (process_job job) (λ e, Some (_set_error job e)))
    (finish_job job).

(** One iteration of the loop of [_install_next_item]. *)
Definition _install_next_item_step : M loop_ctl :=
  stop ← gets _stop_event;
  if (stop : bool) then mret Break
  else
    job ← queue_get;
    match job with
    | None => mret Continue
    | Some job => install_job_block job;; mret Continue
    end.

(** The loop, for at most [n] iterations. *)
Fixpoint _install_next_item (n : nat) : M unit :=
  match n with
  | 0 => mret tt
  | S n' =>
      c ← _install_next_item_step;
      match c with
      | Break => mret tt
      | Continue => _install_next_item n'
      end
  end.

(** *** Callbacks of the download queue

    Each takes the reference of the download job it is called for and
    runs under the service lock. *)

Definition sum_parts (f : DownloadJob.t → nat) (s : State) (j : Job.t) : nat :=
  foldr (λ x acc, f x + acc) 0 (job_parts s j).

Definition _download_started_callback (download_job : nat) : M unit :=
  with_lock
    (d ← get_part download_job;
     install_job ← cache_lookup (DownloadJob.source d);
     update_job install_job (Job.set_status DOWNLOADING);;
     download_path ← match DownloadJob.download_path d with
                     | Some p => mret p
                     | None => raise AssertionError
                     end;
     j ← get_job install_job;
     match Job._install_tmpdir j with
     | Some tmpdir =>
         if bool_decide (Job.local_path j = tmpdir) then
           partial_path ← of_sum (PurePath.relative_to download_path tmpdir);
           dest_name ← match parts partial_path with
                       | x :: _ => mret x
                       | [] => raise (OtherError "IndexError" "")
                       end;
           update_job install_job
             (Job.set_local_path (PurePath.join_str tmpdir dest_name))
         else mret tt
     | None => mret tt
     end;;
     (* Update the total bytes count for remote sources. *)
     j ← get_job install_job;
     s ← gets id;
     if bool_decide (Job.total_bytes j = 0) then
       update_job install_job
         (Job.set_total_bytes (sum_parts DownloadJob.total_bytes s j))
     else mret tt).

Definition _download_progress_callback (download_job : nat) : M unit :=
  with_lock
    (d ← get_part download_job;
     install_job ← cache_lookup (DownloadJob.source d);
     j ← get_job install_job;
     if Job.cancelled j then _cancel_download_parts install_job
     else
       s ← gets id;
       update_job install_job (Job.set_bytes (sum_parts DownloadJob.bytes s j));;
       _signal_job_downloading install_job).

Definition _download_complete_callback (download_job : nat) : M unit :=
  with_lock
    (d ← get_part download_job;
     install_job ← cache_lookup (DownloadJob.source d);
     j ← get_job install_job;
     s ← gets id;
     (* are there any more active jobs left in this task? *)
     (if Job.downloading j && forallb DownloadJob.complete (job_parts s j)
      then _signal_job_downloads_done install_job;;
           _put_in_queue install_job
      else mret tt);;
     (* Let other threads know that the number of downloads has changed *)
     cache_pop (DownloadJob.source d);;
     modify (set__downloads_changed_event true)).

Definition _download_error_callback (download_job : nat)
    (excp : option exn) : M unit :=
  with_lock
    (d ← get_part download_job;
     install_job ← cache_pop (DownloadJob.source d);
     match install_job, excp with
     | Some install_job, Some excp =>
         update_job install_job (job_set_error excp);;
         _cancel_download_parts install_job;;
         modify (set__downloads_changed_event true)
     | _, _ => raise AssertionError
     end).

Definition _download_cancelled_callback (download_job : nat) : M unit :=
  with_lock
    (d ← get_part download_job;
     install_job ← cache_pop (DownloadJob.source d);
     match install_job with
     | None => mret tt
     | Some install_job =>
         modify (set__downloads_changed_event true);;
         j ← get_job install_job;
         (* if install job has already registered an error, then do not
            replace its status with cancelled *)
         (if negb (Job.errored j) then update_job install_job Job.cancel
          else mret tt);;
         _cancel_download_parts install_job;;
         modify (set__downloads_changed_event true)
     end).

(** *** Creating jobs *)

Definition list_jobs (s : State) : list nat := _install_jobs s.

Definition _next_id : M nat :=
  with_lock
    (id ← gets _next_job_id;
     modify (λ s, set__next_job_id (S (_next_job_id s)) s);;
     mret id).

Definition _import_local_model (source_path : Path) (inplace : option bool)
    (config : gmap string string) : M nat :=
  id ← _next_id;
  new_job
    (Job.mk id (LocalModelSource source_path inplace) config None None
            source_path None (default false inplace) [] 0 0 WAITING
            None None).

(** [x or y] on optional strings: the empty string counts as absent. *)
Definition or_else (x y : option string) : option string :=
  match x with
  | Some "" | None => y
  | _ => x
  end.

Definition source_access_token (source : ModelSource) : option string :=
  match source with
  | HFModelSource _ _ _ t | URLModelSource _ t => t
  | LocalModelSource _ _ => None
  end.

Definition _import_remote_model (source : ModelSource)
    (remote_files : list RemoteModelFile) (metadata : option Metadata)
    (config : gmap string string) : M nat :=
  match remote_files with
  | [] => raise (ValueError (str_source H source
                             +:+ ": No downloadable files found"))
  | first :: _ =>
      s ← gets id;
      let tmpdir :=
        PurePath.join_str (AppConfig.models_path (_app_config s))
          (TMPDIR_PREFIX +:+ mkdtemp_suffix H (st_fs s)) in
      fs_call (λ fs, FS.mkdir fs tmpdir);;
      id ← _next_id;
      install_job ←
        new_job (Job.mk id source config None metadata tmpdir None false []
                        0 0 WAITING None None);
      (* In the event that there is a subfolder specified in the source,
         we need to remove it from the destination path *)
      rs ← match source with
           | HFModelSource _ _ (Some subfolder) _ =>
               match parts (rf_path first) with
               | x :: _ =>
                   let root := mkPath false [x] in
                   mret (root, PurePath.join root subfolder)
               | [] => raise (OtherError "IndexError" "")
               end
           | _ => mret (mkPath false [], mkPath false [])
           end;
      let '(root, subfolder) := rs in
      update_job install_job (Job.set__install_tmpdir (Some tmpdir));;
      for_each remote_files
        (λ model_file,
           let url := rf_url model_file in
           rel ← of_sum (PurePath.relative_to (rf_path model_file) subfolder);
           let path := PurePath.join root rel in
           update_job install_job
             (λ j, Job.set_total_bytes (Job.total_bytes j + rf_size model_file) j);;
           let dest := PurePath.join tmpdir (PurePath.parent path) in
           fs_call (λ fs, FS.mkdir_parents fs dest);;
           download_job ←
             new_part (DownloadJob.mk url dest (source_access_token source)
                                      None 0 0 None false false);
           (* matches a download job to an install job *)
           modify (λ s, set__download_cache
                          (<[url := install_job]> (_download_cache s)) s);;
           update_job install_job
             (λ j, Job.set_download_parts
                     (Job.download_parts j ++ [download_job]) j);;
           modify (λ s, set__download_queue
                          (_download_queue s ++ [download_job]) s));;
      mret install_job
  end.

Definition _import_from_hf (repo_id : string) (variant : option string)
    (subfolder : option Path) (access_token : option string)
    (config : gmap string string) : M nat :=
  (* Add user's cached access token to HuggingFace requests *)
  let access_token := or_else access_token (hf_get_token H) in
  r ← of_sum (hf_from_id H repo_id variant
                (or_else variant (guess_variant H)) subfolder);
  let '(metadata, remote_files) := r in
  _import_remote_model (HFModelSource repo_id variant subfolder access_token)
                       remote_files (Some metadata) config.

(** [get_fetcher_from_url]: only bare repository URLs of HuggingFace
    have a fetcher. *)
Definition get_fetcher_from_url (url : string) : exn + unit :=
  match Regex.match_ hf_url_re (Str.lower url) with
  | Some _ => inr tt
  | None => inl (ValueError ("Unsupported model source: '" +:+ url +:+ "'"))
  end.

Definition _import_from_url (url : string) (access_token : option string)
    (config : gmap string string) : M nat :=
  r ← match get_fetcher_from_url url with
      | inr _ =>
          r ← of_sum (hf_from_url H url);
          mret (Some (fst r), snd r)
      | inl _ =>
          mret (None, [mkRemoteModelFile url (mkPath false []) 0])
      end;
  let '(metadata, remote_files) := r in
  _import_remote_model (URLModelSource url access_token)
                       remote_files metadata config.

(** The jobs of the table with the given source that are not in a
    terminal state. *)
Definition similar_jobs (s : State) (source : ModelSource) : list nat :=
  List.filter
    (λ r, match st_jobs s !! r with
          | Some x => bool_decide (Job.source x = source)
                      && negb (Job.in_terminal_state x)
          | None => false
          end)
    (list_jobs s).

Definition import_model (source : ModelSource) (config : gmap string string)
    : M nat :=
  s ← gets id;
  match similar_jobs s source with
  | job :: _ => mret job
  | [] =>
      install_job ←
        match source with
        | LocalModelSource path inplace =>
            install_job ← _import_local_model path inplace config;
            _put_in_queue install_job;;  (* synchronously install *)
            mret install_job
        | HFModelSource repo_id variant subfolder access_token =>
            _import_from_hf repo_id variant subfolder access_token config
        | URLModelSource url access_token =>
            _import_from_url url access_token config
        end;
      modify (λ s, set__install_jobs (_install_jobs s ++ [install_job]) s);;
      mret install_job
  end.

(** *** Interpreting a source string *)

(** The first configured token whose pattern is found in the source. *)
Fixpoint first_token (pairs : list (string * string)) (source : string)
    : option string :=
  match pairs with
  | [] => None
  | (url_regex, token) :: pairs' =>
      if re_search H url_regex source then Some token
      else first_token pairs' source
  end.

Definition nonempty (o : option string) : option string := or_else o None.

(** The source object that [heuristic_import] builds, or the exception
    it raises. *)
Definition heuristic_source (source : string) (access_token : option string)
    (inplace : option bool) : M ModelSource :=
  s ← gets id;
  if FS.exists_ (st_fs s) (PurePath.of_string source) then
    (* A local file or directory *)
    mret (LocalModelSource (PurePath.of_string source) inplace)
  else
    match Regex.match_ (hf_repoid_re (variants H)) source with
    | Some m =>
        mret (HFModelSource
                (default "" (Regex.group m 1))
                (nonempty (Regex.group m 2))  (* pass None rather than '' *)
                (PurePath.of_string <$> nonempty (Regex.group m 3))
                access_token)
    | None =>
        match Regex.match_ url_re source with
        | Some _ =>
            (* Pull the token from config if it exists and matches the URL *)
            let _token :=
              match access_token with
              | Some t => Some t
              | None =>
                  first_token
                    (AppConfig.remote_api_tokens (_app_config s)) source
              end in
            mret (URLModelSource (any_http_url H source) _token)
        | None =>
            raise (ValueError ("Unsupported model source: '"
                               +:+ source +:+ "'"))
        end
    end.

Definition heuristic_import (source : string) (config : gmap string string)
    (access_token : option string) (inplace : option bool) : M nat :=
  source_obj ← heuristic_source source access_token inplace;
  import_model source_obj config.

(** *** Migration of the legacy [models.yaml] *)

(** The body of the loop over the entries of the file. *)
Definition migrate_entry (entry : string * Stanza) : M unit :=
  let '(model_key, stanza) := entry in
  model_name ← match Str.split_slash model_key with
               | [_; _; model_name] => mret model_name
               | _ => raise (ValueError "wrong number of values to unpack")
               end;
  s ← gets id;
  let cfg := _app_config s in
  let model_path := PurePath.of_string (stanza_path stanza) in
  let model_path :=
    if PurePath.is_absolute model_path then model_path
    else PurePath.join (AppConfig.models_path cfg) model_path in
  let model_path := PurePath.resolve model_path in
  let config : gmap string string := {["name" := model_name]} in
  let config :=
    match stanza_description stanza with
    | Some d => <["description" := d]> config
    | None => config
    end in
  config ←
    match or_else (stanza_config stanza) None with
    | Some legacy_config_path =>
        (* In v3, these paths were relative to the root. Migrate them to
           be relative to the legacy_conf_dir. *)
        let legacy_config_path :=
          PurePath.join_str (AppConfig.root_path cfg) legacy_config_path in
        legacy_config_path ←
          relativize legacy_config_path (AppConfig.legacy_conf_path cfg);
        mret (<["config_path" := PurePath.as_posix legacy_config_path]> config)
    | None => mret config
    end;
  try_except (register_path model_path config;; mret tt)
             (λ _, Some (mret tt)).

Definition default_legacy_models_yaml_path (cfg : AppConfig.t) : Path :=
  default
    (PurePath.join_str (PurePath.join_str (AppConfig.root_path cfg) "configs")
                       "models.yaml")
    (AppConfig.legacy_models_yaml_path cfg).

(** The file that [_migrate_yaml] looks for. *)
Definition legacy_yaml_file (s : State) : Path :=
  let legacy_models_yaml_path :=
    default_legacy_models_yaml_path (_app_config s) in
  (* The old path may be relative to the root path *)
  if FS.exists_ (st_fs s) legacy_models_yaml_path
  then legacy_models_yaml_path
  else PurePath.join (AppConfig.root_path (_app_config s))
                     legacy_models_yaml_path.

Definition _migrate_yaml : M unit :=
  s ← gets id;
  let db_models := all_models s in
  let legacy_models_yaml_path := legacy_yaml_file s in
  (if FS.exists_ (st_fs s) legacy_models_yaml_path then
     text ← of_sum (FS.read (st_fs s) legacy_models_yaml_path);
     legacy_models_yaml ← of_sum (yaml_safe_load H text);
     yaml_metadata ← match yaml_metadata legacy_models_yaml with
                     | Some m => mret m
                     | None => raise KeyError
                     end;
     let yaml_version := yaml_metadata !! "version" in
     if bool_decide (yaml_version ≠ Some "3.0.0") then
       raise (ValueError
                ("Attempted migration of unsupported `models.yaml` v"
                 +:+ default "None" yaml_version
                 +:+ ". Only v3.0.0 is supported. Exiting."))
     else
       (if bool_decide (length db_models = 0)
           && negb (bool_decide (length (yaml_models legacy_models_yaml) = 0))
        then for_each (yaml_models legacy_models_yaml) migrate_entry
        else mret tt);;
       (* Rename `models.yaml` to `models.yaml.bak` to prevent re-migration *)
       target ← of_sum (PurePath.with_suffix legacy_models_yaml_path ".yaml.bak");
       fs_call (λ fs, FS.rename fs legacy_models_yaml_path target)
   else mret tt);;
  (* Unset the path - we are done with it either way *)
  modify (λ s, set__app_config
                 (AppConfig.set_legacy_models_yaml_path None (_app_config s))
                 s).

End Service.

(** ** The job table, deletion and housekeeping *)

(** Modelled from the spec: [del_model] and [update_model] of the records
    store (its implementation is not part of this file): both act on the
    entry kept under the key and fail on a key that is not there.
    [update_model] is given for the one change the service makes, that of
    the path. *)
Definition del_model (key : string) : M unit := λ s,
  match _record_store s !! key with
  | Some _ => Ok tt (set__record_store (delete key (_record_store s)) s)
  | None => Raise UnknownModelException s
  end.

Definition update_model_path (key : string) (path : string) : M unit := λ s,
  match _record_store s !! key with
  | Some c =>
      Ok tt (set__record_store
               (<[key := ModelConfig.set_path path c]> (_record_store s)) s)
  | None => Raise UnknownModelException s
  end.

(** [path.glob(prefix + "*")]: the entries of the directory [path] whose
    name starts with [prefix]; nothing when [path] is not a directory. *)
Definition glob_prefix (fs : node) (path : Path) (prefix : string)
    : list Path :=
  match FS.lookup fs (parts path) with
  | Some (Dir l) =>
      (λ nm, mkPath (anchored path) (parts path ++ [nm]))
        <$> filter (λ nm, String.prefix prefix nm = true) (remove_dups l.*1)
  | _ => []
  end.

Section Maintenance.

Context (H : Host).

Definition get_job_by_id (id : nat) : M nat :=
  s ← gets (λ s, s);
  let jobs :=
    List.filter
      (λ r, match st_jobs s !! r with
            | Some x => bool_decide (Job.id x = id)
            | None => false
            end)
      (_install_jobs s) in
  match jobs with
  | [] => raise (ValueError ("No job with id " +:+ pretty id +:+ " known"))
  | [job] => mret job
  | _ => raise AssertionError
  end.

Definition prune_jobs : M unit :=
  modify (λ s,
    let unfinished_jobs :=
      List.filter
        (λ r, match st_jobs s !! r with
              | Some x => negb (Job.in_terminal_state x)
              | None => false
              end)
        (_install_jobs s) in
    set__install_jobs unfinished_jobs s).

(** The second loop of [_clear_pending_jobs]: items are taken from the
    install queue and marked done until the queue is empty. The loop is
    unfolded as many times as it can iterate. *)
Fixpoint drain_install_queue (n : nat) : M unit :=
  match n with
  | 0 => mret tt
  | S n' =>
      job ← queue_get;
      match job with
      | Some _ => queue_task_done;; drain_install_queue n'
      | None => mret tt
      end
  end.

Definition _clear_pending_jobs : M unit :=
  s ← gets id;
  for_each (list_jobs s)
    (λ job, j ← get_job job;
            if negb (Job.in_terminal_state j) then cancel_job H job
            else mret tt);;
  s ← gets id;
  drain_install_queue (S (length (_install_queue s))).

Definition unregister (key : string) : M unit := del_model key.

(** The disk of the model has no symbolic links, so [is_symlink] is
    false. *)
Definition unconditionally_delete (key : string) : M unit :=
  model ← get_model key;
  s ← gets id;
  let model_path :=
    PurePath.join_str (AppConfig.models_path (_app_config s))
                      (ModelConfig.path model) in
  (if FS.is_file (st_fs s) model_path
   then fs_call (λ fs, FS.unlink fs model_path)
   else if FS.is_dir (st_fs s) model_path
   then fs_call (λ fs, FS.rmtree fs model_path)
   else mret tt);;
  unregister key.

(** Unregister the model. Delete its files only if they are within our
    models directory. *)
Definition delete_ (key : string) : M unit :=
  model ← get_model key;
  s ← gets id;
  let model_path :=
    PurePath.join_str (AppConfig.models_path (_app_config s))
                      (ModelConfig.path model) in
  if PurePath.is_relative_to model_path (AppConfig.models_path (_app_config s))
  then unconditionally_delete key
  else unregister key.

(** Remove leftover tmpdirs from aborted installs. *)
Definition _remove_dangling_install_dirs : M unit :=
  s ← gets id;
  for_each (glob_prefix (st_fs s) (AppConfig.models_path (_app_config s))
                        TMPDIR_PREFIX)
    (λ tmpdir, fs_call (λ fs, FS.rmtree fs tmpdir)).

(** The path at which a record says its model is. *)
Definition recorded_path (s : State) (model_config : ModelConfig.t) : Path :=
  PurePath.resolve
    (PurePath.join_str (AppConfig.models_path (_app_config s))
                       (ModelConfig.path model_config)).

Definition _scan_for_missing_models (s : State) : list ModelConfig.t :=
  List.filter (λ model_config,
                 negb (FS.exists_ (st_fs s) (recorded_path s model_config)))
              (all_models s).

(** The callback [on_model_found] of [_register_orphaned_models];
    [installed_model_paths] is computed before the search starts. *)
Definition installed_model_paths (s : State) : list Path :=
  recorded_path s <$> all_models s.

Definition on_model_found (installed_model_paths : list Path)
    (model_path : Path) : M bool :=
  s ← gets id;
  let resolved_path := PurePath.resolve model_path in
  (* Already registered models should be in the list of found models, but
     not re-registered. *)
  if bool_decide (resolved_path ∈ installed_model_paths) then mret true
  (* Skip core models entirely *)
  else if String.prefix
            (PurePath.as_posix
               (PurePath.join_str (AppConfig.models_path (_app_config s))
                                  "core"))
            (PurePath.as_posix resolved_path)
  then mret false
  else
    try_except (register_path H model_path ∅;; mret tt)
               (λ excp, match excp with
                        | DuplicateModelException => Some (mret tt)
                        | _ => None
                        end);;
    mret true.

(** [sync_model_path]; the loop of [_move_model] is given [fuel]. *)
Definition sync_model_path (fuel : nat) (key : string)
    : State → option (outcome ModelConfig.t) := λ s,
  match get_model key s with
  | Ok model _ =>
      let models_dir := AppConfig.models_path (_app_config s) in
      let old_path := PurePath.join_str models_dir (ModelConfig.path model) in
      if negb (PurePath.is_relative_to old_path models_dir) then
        (* The model is not in the models directory - we don't need to
           move it. *)
        Some (Ok model s)
      else
        let new_path :=
          PurePath.join_str
            (PurePath.join_str
               (PurePath.join_str models_dir (ModelConfig.base model))
               (ModelConfig.type model))
            (PurePath.name old_path) in
        if bool_decide (old_path = new_path)
           || (FS.exists_ (st_fs s) new_path
               && bool_decide (old_path = PurePath.resolve new_path))
        then Some (Ok model s)
        else
          match _move_model fuel old_path new_path s with
          | None => None
          | Some (Ok new_path s1) =>
              Some ((rel ← of_sum (PurePath.relative_to new_path models_dir);
                     let model :=
                       ModelConfig.set_path (PurePath.as_posix rel) model in
                     update_model_path key (ModelConfig.path model);;
                     mret model) s1)
          | Some (Raise e s1) => Some (Raise e s1)
          | Some (Blocked s1) => Some (Blocked s1)
          end
  | Raise e s1 => Some (Raise e s1)
  | Blocked s1 => Some (Blocked s1)
  end.

End Maintenance.

(** ** Auxiliary notions for the statements *)

(** The [k]-th candidate name that [_move_model] tries for a destination:
    [_NN] appended to the stem, the suffix kept. *)
Definition candidate (p : Path) (k : nat) : Path :=
  mkPath (anchored p)
         (removelast (parts p)
          ++ [PurePath.stem p +:+ "_" +:+ Str.fmt02d k +:+ PurePath.suffix p]).

(** A component of a path as [pathlib] builds them. *)
Definition valid_name (nm : string) : Prop :=
  nm ≠ "" ∧ nm ≠ "." ∧ Str.mem "/" nm = false.

(** What [relativize] returns: the path itself when it is not under the
    root, the remainder below the root otherwise. *)
Definition stored_path (path root : Path) : Path :=
  if PurePath.is_relative_to path root
  then mkPath false (drop (length (parts root)) (parts path))
  else path.

(** The name that [install_path] gives the installed model:
    [config["name"]] with the suffix of the source, when a name is
    configured. *)
Definition preferred_name_of (model_path : Path) (config : gmap string string)
    : exn + option Path :=
  match config_get config "name" with
  | Some preferred_name =>
      match PurePath.with_suffix (PurePath.of_string preferred_name)
                                 (PurePath.suffix model_path) with
      | inr p => inr (Some p)
      | inl e => inl e
      end
  | None => inr None
  end.

(** The destination [<models_root>/<base>/<type>/<name>]. *)
Definition dest_path_of (cfg : AppConfig.t) (info : ModelConfig.t)
    (model_path : Path) (preferred_name : option Path) : Path :=
  PurePath.join
    (PurePath.join_str
       (PurePath.join_str (AppConfig.models_path cfg) (ModelConfig.base info))
       (ModelConfig.type info))
    (default (PurePath.of_string (PurePath.name model_path)) preferred_name).

(** The [except FileExistsError] clause of [install_path]. *)
Definition duplicate_handler : exn → option (M Path) :=
  λ excp, match excp with
          | FileExistsError => Some (raise DuplicateModelException)
          | _ => None
          end.

(** The pattern [^https?://] of the specification. *)
Definition spec_url_re : Regex.re :=
  Regex.seq [Regex.Lit "http"; Regex.Opt (Regex.Lit "s"); Regex.Lit "://"].

(** The token chosen for a URL source. *)
Definition url_token (H : Host) (s : State) (source : string)
    (access_token : option string) : option string :=
  match access_token with
  | Some t => Some t
  | None => first_token H (AppConfig.remote_api_tokens (_app_config s)) source
  end.

(** The condition under which [_download_complete_callback] promotes the
    install job. *)
Definition downloads_finished (s : State) (j : Job.t) : bool :=
  Job.downloading j && forallb DownloadJob.complete (job_parts s j).

(** The download jobs after [cancel_job] of the download queue has been
    called for each part of [j], and whether the parts of [j] are then all
    in a terminal state. *)
Definition cancelled_parts (H : Host) (s : State) (j : Job.t)
    : list DownloadJob.t :=
  foldr (λ r ps, alter (dq_cancel_job H) r ps) (st_parts s)
        (Job.download_parts j).

Definition parts_terminal (H : Host) (s : State) (j : Job.t) : bool :=
  forallb DownloadJob.in_terminal_state
    (omap (λ r, cancelled_parts H s j !! r) (Job.download_parts j)).

(** The jobs that [prune_jobs] keeps. *)
Definition unfinished_jobs (s : State) : list nat :=
  List.filter
    (λ r, match st_jobs s !! r with
          | Some x => negb (Job.in_terminal_state x)
          | None => false
          end)
    (_install_jobs s).

(** The job table is in order: it lists each job object once, every
    reference in it is live, the ids of the job objects are pairwise
    distinct and below the next id to be given out. *)
Definition job_table_inv (s : State) : Prop :=
  NoDup (_install_jobs s)
  ∧ (∀ r, r ∈ _install_jobs s → r < length (st_jobs s))
  ∧ (∀ r j, st_jobs s !! r = Some j → Job.id j < _next_job_id s)
  ∧ (∀ r1 r2 j1 j2, st_jobs s !! r1 = Some j1 → st_jobs s !! r2 = Some j2 →
                    Job.id j1 = Job.id j2 → r1 = r2).

(** [m] started in a state that satisfies [P] returns [a] in a state that
    satisfies [Q a], or else ends (raising or blocked) in a state that
    satisfies [R]. *)
Definition triple {A} (P : State → Prop) (m : M A)
    (Q : A → State → Prop) (R : State → Prop) : Prop :=
  ∀ s, P s → match m s with
             | Ok a s' => Q a s'
             | Raise _ s' | Blocked s' => R s'
             end.

(** The job object [r] has been created but is not in the job table yet. *)
Definition fresh_ref (r : nat) (s : State) : Prop :=
  job_table_inv s ∧ r < length (st_jobs s) ∧ r ∉ _install_jobs s.

(** *** What a pattern matches

    [re_lang r s s']: the pattern [r] can match a prefix of [s] and leave
    [s']. *)

Fixpoint str_forall (p : ascii → bool) (s : string) : bool :=
  match s with
  | EmptyString => true
  | String c s' => p c && str_forall p s'
  end.

Fixpoint re_lang (r : Regex.re) (s s' : string) : Prop :=
  match r with
  | Regex.Lit l => s = l +:+ s'
  | Regex.Cls p => ∃ c, s = String c s' ∧ p c = true
  | Regex.Plus p => ∃ pre, s = pre +:+ s' ∧ pre ≠ "" ∧ str_forall p pre = true
  | Regex.Seq r1 r2 => ∃ m, re_lang r1 s m ∧ re_lang r2 m s'
  | Regex.Alt r1 r2 => re_lang r1 s s' ∨ re_lang r2 s s'
  | Regex.Opt r1 => re_lang r1 s s' ∨ s' = s
  | Regex.Group _ r1 => re_lang r1 s s'
  | Regex.Eol => s' = s ∧ (s = "" ∨ s = String Regex.newline "")
  end.

(** The URLs for which [get_fetcher_from_url] finds a fetcher, once in
    lower case: [http(s)://huggingface<c>co/<owner>/<repo>]. *)
Definition hf_repo_url (u : string) : Prop :=
  ∃ scheme c owner repo,
    u = scheme +:+ "://huggingface" +:+ String c ("co/" +:+ owner +:+ "/" +:+ repo)
    ∧ (scheme = "http" ∨ scheme = "https")
    ∧ c ≠ Regex.newline
    ∧ owner ≠ "" ∧ repo ≠ ""
    ∧ Str.mem "/" owner = false ∧ Str.mem "/" repo = false.

(** The job object that [_import_local_model] creates. *)
Definition local_job (s : State) (path : Path) (inplace : option bool)
    (config : gmap string string) : Job.t :=
  Job.mk (_next_job_id s) (LocalModelSource path inplace) config None None
         path None (default false inplace) [] 0 0 WAITING None None.

(** The record that [_register] persists for a model at [model_path]
    that the probe describes by [info]. *)
Definition registered_record (cfg : AppConfig.t) (model_path : Path)
    (info : ModelConfig.t) : ModelConfig.t :=
  let info :=
    ModelConfig.set_path
      (PurePath.as_posix
         (stored_path (PurePath.resolve model_path) (AppConfig.models_path cfg)))
      info in
  match ModelConfig.config_path info with
  | Some config_path =>
      ModelConfig.set_config_path
        (Some (PurePath.as_posix
                 (stored_path
                    (PurePath.join_str (AppConfig.legacy_conf_path cfg)
                                       config_path)
                    (AppConfig.legacy_conf_path cfg))))
        info
  | None => info
  end.

(** The configuration that the worker hands to [register_path] or
    [install_path] for a job without repository metadata. *)
Definition job_config (H : Host) (source : ModelSource)
    (config : gmap string string) : gmap string string :=
  <["source_type" := source_type_of H source]>
    (<["source" := str_source H source]> config).

(** The configuration that [_register_or_install] leaves in a job that is
    installed in place. *)
Definition inplace_config (H : Host) (j : Job.t) : gmap string string :=
  let config := job_config H (Job.source j) (Job.config_in j) in
  let config :=
    match Job.source_metadata j with
    | Some (HuggingFaceMetadata api_response) =>
        <["source_api_response" := api_response]> config
    | _ => config
    end in
  register_path_config H (Job.local_path j) config.

(** ** The download queue as the environment of the service

    Modelled from the spec: the download queue (not part of this file)
    owns the download jobs; it updates a download job and then invokes the
    callback of the event on its own thread. *)

Definition set_part (f : DownloadJob.t → DownloadJob.t) (r : nat) : M unit :=
  modify (λ s, set_st_parts (alter f r (st_parts s)) s).

(** A part starts: its [download_path] and size are known. *)
Definition mark_started (download_path : Path) (total_bytes : nat)
    (d : DownloadJob.t) : DownloadJob.t :=
  DownloadJob.mk (DownloadJob.source d) (DownloadJob.dest d)
                 (DownloadJob.access_token d) (Some download_path)
                 (DownloadJob.bytes d) total_bytes
                 (DownloadJob.content_type d) (DownloadJob.complete d)
                 (DownloadJob.in_terminal_state d).

Definition part_starts (r : nat) (download_path : Path) (total_bytes : nat)
    : M unit :=
  set_part (mark_started download_path total_bytes) r;;
  _download_started_callback r.

(** A part ends in error or cancelled: a terminal state that is not
    [complete]. *)
Definition mark_terminal (d : DownloadJob.t) : DownloadJob.t :=
  DownloadJob.mk (DownloadJob.source d) (DownloadJob.dest d)
                 (DownloadJob.access_token d) (DownloadJob.download_path d)
                 (DownloadJob.bytes d) (DownloadJob.total_bytes d)
                 (DownloadJob.content_type d) false true.

Definition part_fails (H : Host) (r : nat) (excp : exn) : M unit :=
  set_part mark_terminal r;;
  _download_error_callback H r (Some excp).

Definition part_cancelled (H : Host) (r : nat) : M unit :=
  set_part mark_terminal r;;
  _download_cancelled_callback H r.

(** A part finishes: the download job becomes complete, which is a
    terminal state, and then [on_complete] is called for it. *)
Definition mark_complete (d : DownloadJob.t) : DownloadJob.t :=
  DownloadJob.mk (DownloadJob.source d) (DownloadJob.dest d)
                 (DownloadJob.access_token d) (DownloadJob.download_path d)
                 (DownloadJob.bytes d) (DownloadJob.total_bytes d)
                 (DownloadJob.content_type d) true true.

Definition part_completes (H : Host) (r : nat) : M unit :=
  set_part mark_complete r;;
  _download_complete_callback H r.

(** The parts [rem] of a downloading job are still running and are in the
    download cache, its other parts are complete. *)
Definition downloading_inv (job : nat) (ps rem : list nat) (s : State) : Prop :=
  _lock s = false ∧ _stop_event s = false
  ∧ (∃ j, st_jobs s !! job = Some j ∧ Job.status j = DOWNLOADING
          ∧ Job.download_parts j = ps)
  ∧ (∀ r, r ∈ ps →
       ∃ d, st_parts s !! r = Some d
            ∧ (r ∈ rem → DownloadJob.complete d = false
                         ∧ _download_cache s !! DownloadJob.source d = Some job)
            ∧ (r ∉ rem → DownloadJob.complete d = true))
  ∧ (∀ r1 r2 d1 d2, r1 ∈ rem → r2 ∈ rem →
       st_parts s !! r1 = Some d1 → st_parts s !! r2 = Some d2 →
       DownloadJob.source d1 = DownloadJob.source d2 → r1 = r2).

(** [m] keeps [P] and does not block: from a state that satisfies [P] it
    returns or raises in a state that satisfies [P]. *)
Definition keeps {A} (P : State → Prop) (m : M A) : Prop :=
  ∀ s, P s → match m s with
             | Ok _ s' | Raise _ s' => P s'
             | Blocked _ => False
             end.

(** [self._app_config.legacy_models_yaml_path = None]. *)
Definition unset_legacy_path (s : State) : State :=
  set__app_config (AppConfig.set_legacy_models_yaml_path None (_app_config s)) s.

(** The condition under which [_migrate_yaml] registers the entries. *)
Definition migrates_entries (s : State) (y : LegacyYaml) : bool :=
  bool_decide (length (all_models s) = 0)
  && negb (bool_decide (length (yaml_models y) = 0)).

(** What the worker relies on while it handles a job: the job object is
    there with its scratch directory [tmp], that directory (when set) is
    on disk, [n] queue items are unfinished and [q] is the queue. *)
Definition worker_inv (job : nat) (tmp : option Path) (n : nat)
    (q : list nat) (s : State) : Prop :=
  (∃ j, st_jobs s !! job = Some j ∧ Job._install_tmpdir j = tmp)
  ∧ (∀ d, tmp = Some d → FS.is_dir (st_fs s) d = true)
  ∧ st_unfinished_tasks s = n
  ∧ _install_queue s = q.

(** Every directory of [fs] is a directory of [fs']. *)
Definition dirs_stable (fs fs' : node) : Prop :=
  ∀ p l, FS.lookup fs p = Some (Dir l) → ∃ l', FS.lookup fs' p = Some (Dir l').

(** The exception that [_set_error] records: the one raised, unless a
    part of the job was answered with an HTML page. *)
Definition reported_error (s : State) (j : Job.t) (excp : exn) : exn :=
  if existsb is_html (job_parts s j) then
    InvalidModelConfigException
      ("At least one file in " +:+ PurePath.as_posix (Job.local_path j)
       +:+ " is an HTML page, not a model. This can happen when an access token is required to download.")
  else excp.

(** ** A sample installation

    A concrete host, configuration and disk on which the statements are
    exercised. The sample probe recognises every existing path as an
    [sdxl]/[main] model keyed by its file name. *)

Definition sample_probe (fs : node) (p : Path) (config : gmap string string)
    (hash_algo : string) : exn + ModelConfig.t :=
  match FS.lookup fs (parts p) with
  | Some _ =>
      inr (ModelConfig.mk ("key-" +:+ PurePath.name p) "sdxl" "main"
                          (PurePath.name p) "" None)
  | None => inl (InvalidModelConfigException "Not a model")
  end.

Definition sample_variants : list string :=
  [""; "fp16"; "fp32"; "onnx"; "openvino"; "flax"].

Definition sample_remote_files : list RemoteModelFile :=
  [ mkRemoteModelFile "https://huggingface.co/a/b/resolve/main/model_index.json"
                      (mkPath false ["b"; "model_index.json"]) 100;
    mkRemoteModelFile "https://huggingface.co/a/b/resolve/main/unet/model.safetensors"
                      (mkPath false ["b"; "unet"; "model.safetensors"]) 100;
    mkRemoteModelFile "https://huggingface.co/a/b/resolve/main/vae/model.safetensors"
                      (mkPath false ["b"; "vae"; "model.safetensors"]) 100 ].

(** The sample parser knows two texts: a legacy file of version 3.0.0
    with two entries, and a file of version 2.0.0. *)
Definition sample_yaml (text : string) : exn + LegacyYaml :=
  if bool_decide (text = "legacy-v3") then
    inr (mkLegacyYaml
           (Some {["version" := "3.0.0"]})
           [("sdxl/main/foo", mkStanza "sdxl/main/foo" (Some "a model") None);
            ("sd-1/main/old", mkStanza "/downloads/foo" None None)])
  else if bool_decide (text = "legacy-v2") then
    inr (mkLegacyYaml (Some {["version" := "2.0.0"]}) [])
  else inl (OtherError "YAMLError" "").

Definition sample_host : Host :=
  mkHost sample_probe (λ d, d)
         (λ src, match src with
                 | LocalModelSource p _ => PurePath.as_posix p
                 | HFModelSource r _ _ _ => r
                 | URLModelSource u _ => u
                 end)
         (λ src, match src with
                 | LocalModelSource _ _ => "path"
                 | HFModelSource _ _ _ _ => "hf_repo_id"
                 | URLModelSource _ _ => "url"
                 end)
         "path" sample_variants (λ u, u)
         (λ pattern text, Str.contains pattern text) None None
         (λ repo_id _ _ _,
            if bool_decide (repo_id = "a/b")
            then inr (HuggingFaceMetadata "{}", sample_remote_files)
            else inl (OtherError "ConnectionError" ""))
         (λ _, inl (OtherError "ConnectionError" ""))
         (λ _, "k3j2x9") sample_yaml.

Definition sample_config : AppConfig.t :=
  AppConfig.mk (mkPath true ["invokeai"])
               (mkPath true ["invokeai"; "models"])
               (mkPath true ["invokeai"; "configs"])
               (mkPath true ["invokeai"; "models"; ".cache"])
               None false [] "blake3".

Definition sample_fs : node :=
  Dir [("invokeai",
        Dir [("models",
              Dir [("sdxl",
                    Dir [("main",
                          Dir [("x.safetensors", File "installed");
                               ("foo", Dir [("weights", File "0123")])])])])]);
       ("downloads",
        Dir [("x.safetensors", File "fresh");
             ("foo", Dir [("weights", File "4567")]);
             ("a", Dir [("x.safetensors", File "a")]);
             ("b", Dir [("x.safetensors", File "b")])])].

Definition sample_state : State :=
  mkState sample_fs sample_config ∅ (Some []) [] [] [] [] 0
          false false false false [] ∅ 0.

Definition sample_dest : Path :=
  mkPath true ["invokeai"; "models"; "sdxl"; "main"; "x.safetensors"].

(** The sample state after [/downloads/a/x.safetensors] has been moved
    onto the occupied [sample_dest]. *)
Definition sample_state_moved : State :=
  Eval vm_compute in
  match _move_model 1 (mkPath true ["downloads"; "a"; "x.safetensors"])
                    sample_dest sample_state with
  | Some o => final_state o
  | None => sample_state
  end.

Definition sample_source : ModelSource :=
  LocalModelSource (mkPath true ["downloads"; "x.safetensors"]) None.

(** The sample state after a local source has been submitted: job 0
    waits in the install queue. *)
Definition sample_state_queued : State :=
  Eval vm_compute in
  final_state (import_model sample_host sample_source ∅ sample_state).

Definition sample_part : DownloadJob.t :=
  DownloadJob.mk "https://example.com/model.safetensors"
                 (mkPath true ["invokeai"; "models"; "tmpinstall_k3j2x9"])
                 None None 0 0 None false false.

(** A state in which a download job exists whose URL is not (or no
    longer) in the download cache. *)
Definition sample_state_stray_part : State :=
  set_st_parts [sample_part] sample_state.

Definition sample_repo : ModelSource := HFModelSource "a/b" None None None.

(** The sample state after the repository [a/b] has been submitted (job 0
    with the parts 0, 1 and 2), and after its three parts have started. *)
Definition sample_state_remote : State :=
  Eval vm_compute in
  final_state (import_model sample_host sample_repo ∅ sample_state).

Definition sample_tmpdir : Path :=
  mkPath true ["invokeai"; "models"; "tmpinstall_k3j2x9"].

Definition sample_state_downloading : State :=
  Eval vm_compute in
  final_state
    ((part_starts 0
        (PurePath.join sample_tmpdir (mkPath false ["b"; "model_index.json"]))
        100;;
      part_starts 1
        (PurePath.join sample_tmpdir
                       (mkPath false ["b"; "unet"; "model.safetensors"])) 100;;
      part_starts 2
        (PurePath.join sample_tmpdir
                       (mkPath false ["b"; "vae"; "model.safetensors"])) 100)
       sample_state_remote).

(** The sample state with a legacy [models.yaml] of the given text at its
    default place. *)
Definition sample_state_legacy (text : string) : State :=
  set_st_fs
    (Dir [("invokeai",
           Dir [("models",
                 Dir [("sdxl", Dir [("main", Dir [("foo", Dir [])])])]);
                ("configs", Dir [("models.yaml", File text)])]);
          ("downloads", Dir [("foo", Dir [])])])
    sample_state.

(** The sample state after part 0 of the repository job has started and
    part 1 has failed: the job is in the state [ERROR]. *)
Definition sample_state_errored : State :=
  Eval vm_compute in
  final_state
    ((part_starts 0 (mkPath true ["invokeai"; "models"; "tmpinstall_k3j2x9";
                                  "b"; "model_index.json"]) 100;;
      part_fails sample_host 1 (OtherError "HTTPError" "404"))
       sample_state_remote).

(** The three parts of the repository job have completed: the job waits
    in the install queue. Then the worker has installed it; then
    [cancel_job] has been called for the installed job. *)
Definition sample_state_downloaded : State :=
  Eval vm_compute in
  final_state (for_each [0; 1; 2] (part_completes sample_host)
                        sample_state_downloading).

Definition sample_state_installed : State :=
  Eval vm_compute in
  final_state (_install_next_item_step sample_host sample_state_downloaded).

Definition sample_state_recancelled : State :=
  Eval vm_compute in
  final_state (cancel_job sample_host 0 sample_state_installed).

(** A service without event bus, to which the directory
    [/downloads/foo], whose destination is occupied, has been
    submitted. *)
Definition sample_state_silent : State :=
  Eval vm_compute in
  final_state
    (import_model sample_host
       (LocalModelSource (mkPath true ["downloads"; "foo"]) None) ∅
       (set__event_bus None sample_state)).

(** ** More sample states

    The sample state after [/downloads/a] has been installed by
    [install_path], and after the model [sdxl/main/foo] of the models
    directory has been registered where it is. *)
Definition sample_state_copied : State :=
  Eval vm_compute in
  final_state (install_path sample_host (mkPath true ["downloads"; "a"]) ∅
                            sample_state).

Definition sample_model_path : Path :=
  mkPath true ["invokeai"; "models"; "sdxl"; "main"; "foo"].

Definition sample_state_registered : State :=
  Eval vm_compute in
  final_state (_register sample_host sample_model_path ∅ None sample_state).

(** A host whose repositories hold no file. *)
Definition sample_host_bare : Host :=
  mkHost (probe sample_host) (dq_cancel_job sample_host)
         (str_source sample_host) (source_type_of sample_host)
         (source_type_path sample_host) (variants sample_host)
         (any_http_url sample_host) (re_search sample_host)
         (hf_get_token sample_host) (guess_variant sample_host)
         (λ _ _ _ _, inr (OtherMetadata, []))
         (λ _, inr (OtherMetadata, []))
         (mkdtemp_suffix sample_host) (yaml_safe_load sample_host).

(** The sample state in which the record of the model [sdxl/main/foo] has
    been given the base [sd-1]. *)
Definition sample_state_rebased : State :=
  set__record_store
    {["key-foo" := ModelConfig.mk "key-foo" "sd-1" "main" "foo"
                                  "sdxl/main/foo" None]}
    sample_state.

(** The sample state after [/downloads/x.safetensors] has been submitted
    for installation in place. *)
Definition sample_inplace_source : ModelSource :=
  LocalModelSource (mkPath true ["downloads"; "x.safetensors"]) (Some true).

Definition sample_state_inplace : State :=
  Eval vm_compute in
  final_state (import_model sample_host sample_inplace_source ∅ sample_state).

(** * Properties *)

(** ** Strings and paths *)

Lemma str_append_cons c (a b : string) : String c a +:+ b = String c (a +:+ b).
Proof. reflexivity. Qed.

Lemma str_take_drop n s : Str.take n s +:+ Str.drop n s = s.
Proof.
  revert s; induction n as [|n IH]; intros [|c s]; simpl; try done.
  by rewrite str_append_cons, IH.
Qed.

Lemma str_append_assoc (a b c : string) : (a +:+ b) +:+ c = a +:+ b +:+ c.
Proof.
  induction a as [|x a IH]; [done | by rewrite !str_append_cons, IH].
Qed.

Lemma str_append_nil_r (a : string) : a +:+ "" = a.
Proof. induction a as [|x a IH]; [done | by rewrite str_append_cons, IH]. Qed.

Lemma str_append_inj_l (a b c : string) : a +:+ b = a +:+ c → b = c.
Proof.
  induction a as [|x a IH]; [done|]. rewrite !str_append_cons.
  intros [= ?]. auto.
Qed.

Lemma stem_suffix nm : PurePath.stem_of nm +:+ PurePath.suffix_of nm = nm.
Proof.
  unfold PurePath.stem_of, PurePath.suffix_of. destruct (Str.rfind_dot nm) as [i|].
  - destruct (_ && _); [apply str_take_drop | apply str_append_nil_r].
  - apply str_append_nil_r.
Qed.

Lemma str_mem_app c (a b : string) :
  Str.mem c (a +:+ b) = Str.mem c a || Str.mem c b.
Proof.
  induction a as [|x a IH]; [done|].
  rewrite str_append_cons. simpl. rewrite IH. by rewrite orb_assoc.
Qed.

Lemma pretty_N_char_no_slash x :
  Ascii.eqb "/" (pretty_N_char (x `mod` 10)%N) = false.
Proof.
  assert (x `mod` 10 < 10)%N as Hlt by (apply N.mod_lt; lia).
  generalize dependent (x `mod` 10)%N. intros d Hlt.
  assert (d = 0 ∨ d = 1 ∨ d = 2 ∨ d = 3 ∨ d = 4 ∨ d = 5 ∨ d = 6 ∨ d = 7
          ∨ d = 8 ∨ d = 9)%N as Hd by lia.
  destruct Hd as [-> | [-> | [-> | [-> | [-> | [-> | [-> | [-> | [-> | ->]]]]]]]]];
    reflexivity.
Qed.

Lemma pretty_N_go_no_slash x s :
  Str.mem "/" s = false → Str.mem "/" (pretty_N_go x s) = false.
Proof.
  revert s. induction (N.lt_wf_0 x) as [x _ IH]; intros s Hs.
  assert (x = 0 ∨ 0 < x)%N as [->|?] by lia.
  - by rewrite pretty_N_go_0.
  - rewrite pretty_N_go_step by done. apply IH.
    { by apply N.div_lt. }
    change (Ascii.eqb "/" (pretty_N_char (x `mod` 10)%N) || Str.mem "/" s
            = false).
    by rewrite pretty_N_char_no_slash, Hs.
Qed.

Lemma fmt02d_no_slash k : Str.mem "/" (Str.fmt02d k) = false.
Proof.
  assert (Str.mem "/" (pretty k) = false) as Hp.
  { unfold pretty, pretty_nat, pretty, pretty_N.
    case_decide; [done|]. by apply pretty_N_go_no_slash. }
  unfold Str.fmt02d. case_match; [|done].
  rewrite str_mem_app, Hp. done.
Qed.

Lemma with_stem_candidate p k :
  valid_name (PurePath.name p) →
  PurePath.with_stem p (PurePath.stem p +:+ "_" +:+ Str.fmt02d k)
  = inr (candidate p k).
Proof.
  intros (Hne & _ & Hslash).
  unfold PurePath.with_stem, PurePath.with_name, candidate.
  rewrite bool_decide_eq_false_2 by done.
  rewrite !str_append_assoc.
  set (nm := PurePath.stem p +:+ "_" +:+ Str.fmt02d k +:+ PurePath.suffix p).
  assert (Str.mem "_" nm = true) as Hu.
  { unfold nm. rewrite !str_mem_app. simpl. by rewrite orb_true_r. }
  assert (Str.mem "/" nm = false) as Hs.
  { unfold nm, PurePath.stem, PurePath.suffix.
    rewrite !str_mem_app, fmt02d_no_slash.
    pose proof (stem_suffix (PurePath.name p)) as E.
    rewrite <-E, str_mem_app in Hslash. apply orb_false_iff in Hslash as [-> ->].
    done. }
  rewrite Hs.
  rewrite !bool_decide_eq_false_2; [done|..].
  - intros E. by rewrite E in Hu.
  - intros E. by rewrite E in Hu.
Qed.

Lemma is_prefix_drop l1 : ∀ l2,
  PurePath.is_prefix l1 l2 = true → l1 ++ drop (length l1) l2 = l2.
Proof.
  induction l1 as [|x l1 IH]; intros [|y l2]; simpl; try done.
  intros [->%bool_decide_eq_true Hp]%andb_true_iff. by rewrite IH.
Qed.

Lemma rfind_dot_drop nm : ∀ i,
  Str.rfind_dot nm = Some i →
  ∃ rest, Str.drop i nm = String "." rest ∧ Str.rfind_dot rest = None.
Proof.
  induction nm as [|c nm IH]; intros i; simpl; [done|].
  destruct (Str.rfind_dot nm) as [k|] eqn:E.
  - intros [= <-]. simpl. by apply IH.
  - destruct (Ascii.eqb_spec c ".") as [->|]; [|done].
    intros [= <-]. simpl. eauto.
Qed.

Lemma suffix_of_not_bak nm : PurePath.suffix_of nm ≠ ".yaml.bak".
Proof.
  unfold PurePath.suffix_of.
  destruct (Str.rfind_dot nm) as [i|] eqn:E; [|done].
  destruct (_ && _); [|done].
  destruct (rfind_dot_drop nm i E) as (rest & -> & Hrest).
  intros [= ->]. done.
Qed.

Lemma with_suffix_bak_ne p target :
  PurePath.with_suffix p ".yaml.bak" = inr target → parts target ≠ parts p.
Proof.
  unfold PurePath.with_suffix. simpl.
  case_bool_decide as Hname; [done|]. intros [= <-]. simpl.
  unfold PurePath.name in Hname.
  destruct (parts p) as [|x l] eqn:Ep using rev_ind; [done|].
  rewrite List.last_last in Hname. rewrite removelast_last.
  intros Heq%app_inj_tail. destruct Heq as [_ Heq].
  unfold PurePath.stem, PurePath.name in Heq. rewrite Ep, List.last_last in Heq.
  pose proof (stem_suffix x) as Hx. rewrite <-Hx in Heq at 2.
  apply str_append_inj_l in Heq. symmetry in Heq.
  by apply suffix_of_not_bak in Heq.
Qed.

Example of_string_abs :
  PurePath.of_string "/models/sdxl/main/foo.safetensors"
  = mkPath true ["models"; "sdxl"; "main"; "foo.safetensors"].
Proof. vm_compute. reflexivity. Qed.

Example suffix_ex :
  PurePath.suffix_of "x.tar.gz" = ".gz" ∧ PurePath.stem_of "x.tar.gz" = "x.tar"
  ∧ PurePath.suffix_of ".bashrc" = "" ∧ PurePath.suffix_of "foo." = "".
Proof. vm_compute. done. Qed.

Example fmt02d_ex :
  Str.fmt02d 1 = "01" ∧ Str.fmt02d 12 = "12" ∧ Str.fmt02d 100 = "100".
Proof. vm_compute. done. Qed.

Example hf_repoid_re_ex :
  let vs := [""; "fp16"; "fp32"; "onnx"; "openvino"; "flax"] in
  let groups s := (λ m, (Regex.group m 1, Regex.group m 2, Regex.group m 3))
                    <$> Regex.match_ (hf_repoid_re vs) s in
  groups "a/b" = Some (Some "a/b", None, None)
  ∧ groups "a/b:fp16" = Some (Some "a/b", Some "fp16", None)
  ∧ groups "a/b:fp16:/sub/dir" = Some (Some "a/b", Some "fp16", Some "sub/dir")
  ∧ groups "a/b::sub" = Some (Some "a/b", Some "", Some "sub")
  ∧ groups "https://huggingface.co/a/b" = None
  ∧ groups "a/b:bf16" = None.
Proof. vm_compute. repeat split; reflexivity. Qed.

(** ** The file system *)

Lemma set_assoc_same x c l : FS.assoc x l = Some c → FS.set_assoc x c l = l.
Proof.
  induction l as [|[y n] l IH]; simpl; [done|].
  case_bool_decide; [by intros [= ->]; subst | intros E; by rewrite IH].
Qed.

Lemma mkdirs_existing p : ∀ n l,
  FS.lookup n p = Some (Dir l) → FS.mkdirs n p = inr n.
Proof.
  induction p as [|x p IH]; intros n l; simpl.
  - by intros [= ->].
  - destruct n as [|l0]; [done|].
    destruct (FS.assoc x l0) as [c|] eqn:E; [|done].
    intros Hc. simpl. rewrite (IH _ _ Hc). by rewrite set_assoc_same.
Qed.

Lemma lookup_parent p : ∀ n m,
  p ≠ [] → FS.lookup n p = Some m →
  ∃ l, FS.lookup n (removelast p) = Some (Dir l).
Proof.
  induction p as [|x p IH]; intros n m Hne; [done|].
  destruct p as [|y p].
  - simpl. destruct n as [|l0]; [done|]. eauto.
  - intros Hl. change (removelast (x :: y :: p)) with (x :: removelast (y :: p)).
    simpl in Hl |- *. destruct n as [|l0]; [done|].
    destruct (FS.assoc x l0) as [c|]; [|done].
    by apply (IH c m).
Qed.

Lemma valid_name_parts p : valid_name (PurePath.name p) → parts p ≠ [].
Proof. intros (Hne & _) E. apply Hne. unfold PurePath.name. by rewrite E. Qed.

Lemma exists_lookup fs p :
  FS.exists_ fs p = true → ∃ n, FS.lookup fs (parts p) = Some n.
Proof. unfold FS.exists_. intros [n Hn]%bool_decide_eq_true. eauto. Qed.

Lemma mkdirs_parent_of_existing fs p n :
  FS.lookup fs p = Some n →
  FS.mkdirs fs (removelast p) = inr fs
  ∨ FS.mkdirs fs (removelast p) = inl FileExistsError.
Proof.
  intros Hn. destruct p as [|x p].
  - simpl in *. destruct fs; auto.
  - destruct (lookup_parent (x :: p) fs n) as [l Hl]; [done..|].
    left. by eapply mkdirs_existing.
Qed.

Lemma read_exists fs p text : FS.read fs p = inr text → FS.exists_ fs p = true.
Proof.
  unfold FS.read, FS.exists_.
  destruct (FS.lookup fs (parts p)) as [[|]|]; try done.
  all: intros _; apply bool_decide_eq_true_2; eauto.
Qed.

Lemma read_lookup fs p text :
  FS.read fs p = inr text → FS.lookup fs (parts p) = Some (File text).
Proof.
  unfold FS.read. destruct (FS.lookup fs (parts p)) as [[|]|]; try done.
  by intros [= ->].
Qed.

(** *** Lookups after a change *)

Lemma assoc_set_assoc_eq x v l : FS.assoc x (FS.set_assoc x v l) = Some v.
Proof.
  induction l as [|[y n] l IH]; simpl.
  - by rewrite bool_decide_eq_true_2.
  - case_bool_decide as E; simpl;
      [by rewrite bool_decide_eq_true_2 | by rewrite bool_decide_eq_false_2].
Qed.

Lemma assoc_set_assoc_ne x y v l :
  x ≠ y → FS.assoc y (FS.set_assoc x v l) = FS.assoc y l.
Proof.
  intros Hne. induction l as [|[z n] l IH]; simpl.
  - by rewrite bool_decide_eq_false_2.
  - case_bool_decide as E; simpl.
    + subst z. by rewrite !bool_decide_eq_false_2.
    + by rewrite IH.
Qed.

Lemma assoc_del_assoc_eq x l : FS.assoc x (FS.del_assoc x l) = None.
Proof.
  induction l as [|[y n] l IH]; simpl; [done|].
  case_bool_decide as E; simpl; [done|]. by rewrite bool_decide_eq_false_2.
Qed.

Lemma assoc_del_assoc_ne x y l :
  x ≠ y → FS.assoc y (FS.del_assoc x l) = FS.assoc y l.
Proof.
  intros Hne. induction l as [|[z n] l IH]; simpl; [done|].
  case_bool_decide as E; simpl.
  - subst z. by rewrite bool_decide_eq_false_2.
  - by rewrite IH.
Qed.

Lemma lookup_put_eq q : ∀ fs v fs',
  FS.put fs q v = Some fs' → FS.lookup fs' q = Some v.
Proof.
  induction q as [|x q IH]; intros fs v fs'; simpl.
  - by intros [= ->].
  - destruct fs as [|l]; [done|]. destruct q as [|y q].
    + intros [= <-]. simpl. by rewrite assoc_set_assoc_eq.
    + destruct (FS.assoc x l) as [c|]; [|done].
      destruct (FS.put c (y :: q) v) as [c'|] eqn:E; [|done].
      intros [= <-]. cbn [FS.lookup]. rewrite assoc_set_assoc_eq.
      by apply (IH c).
Qed.

(** A path that is neither above nor below [q] is untouched by a change
    at [q]. *)
Lemma lookup_put_frame q : ∀ p fs v fs',
  FS.put fs q v = Some fs' →
  PurePath.is_prefix q p = false → PurePath.is_prefix p q = false →
  FS.lookup fs' p = FS.lookup fs p.
Proof.
  induction q as [|x q IH]; intros p fs v fs' Hput Hqp Hpq; [done|].
  destruct p as [|y p]; [done|].
  simpl in Hput. destruct fs as [|l]; [done|]. simpl in Hqp, Hpq.
  destruct (decide (x = y)) as [->|Hne].
  - rewrite bool_decide_eq_true_2 in Hqp, Hpq by done. simpl in *.
    destruct q as [|z q]; [done|].
    destruct (FS.assoc y l) as [c|] eqn:Ec; [|done].
    destruct (FS.put c (z :: q) v) as [c'|] eqn:E; [|done].
    injection Hput as <-. cbn [FS.lookup].
    rewrite assoc_set_assoc_eq, ?Ec. by apply (IH p c v c').
  - assert (FS.lookup fs' (y :: p) = match FS.assoc y l with
                                      | Some c => FS.lookup c p
                                      | None => None
                                      end) as ->; [|done].
    destruct q as [|z q].
    + injection Hput as <-. simpl. by rewrite assoc_set_assoc_ne.
    + destruct (FS.assoc x l) as [c|]; [|done].
      destruct (FS.put c (z :: q) v) as [c'|]; [|done].
      injection Hput as <-. simpl. by rewrite assoc_set_assoc_ne.
Qed.

(** A directory that is not at or below [q] stays a directory. *)
Lemma lookup_put_dir q : ∀ p fs v fs' l,
  FS.put fs q v = Some fs' →
  PurePath.is_prefix q p = false →
  FS.lookup fs p = Some (Dir l) →
  ∃ l', FS.lookup fs' p = Some (Dir l').
Proof.
  induction q as [|x q IH]; intros p fs v fs' l Hput Hqp Hp; [done|].
  simpl in Hput. destruct fs as [|l0]; [done|].
  destruct p as [|y p].
  { destruct q as [|z q].
    - injection Hput as <-. simpl. eauto.
    - destruct (FS.assoc x l0) as [c|]; [|done].
      destruct (FS.put c (z :: q) v) as [c'|]; [|done].
      injection Hput as <-. simpl. eauto. }
  simpl in Hqp, Hp.
  destruct (decide (x = y)) as [->|Hne].
  - rewrite bool_decide_eq_true_2 in Hqp by done. simpl in *.
    destruct q as [|z q]; [done|].
    destruct (FS.assoc y l0) as [c|] eqn:Ec; [|done].
    destruct (FS.put c (z :: q) v) as [c'|] eqn:E; [|done].
    injection Hput as <-. cbn [FS.lookup].
    rewrite assoc_set_assoc_eq. by apply (IH p c v c' l).
  - exists l.
    destruct q as [|z q].
    + injection Hput as <-. simpl. by rewrite assoc_set_assoc_ne.
    + destruct (FS.assoc x l0) as [c|]; [|done].
      destruct (FS.put c (z :: q) v) as [c'|]; [|done].
      injection Hput as <-. simpl. by rewrite assoc_set_assoc_ne.
Qed.

Lemma lookup_remove_eq q : ∀ fs fs',
  FS.remove fs q = Some fs' → FS.lookup fs' q = None.
Proof.
  induction q as [|x q IH]; intros fs fs'; simpl; [done|].
  destruct fs as [|l]; [done|].
  destruct (FS.assoc x l) as [c|]; [|done]. destruct q as [|y q].
  - intros [= <-]. simpl. by rewrite assoc_del_assoc_eq.
  - destruct (FS.remove c (y :: q)) as [c'|] eqn:E; [|done].
    intros [= <-]. cbn [FS.lookup]. rewrite assoc_set_assoc_eq.
    by apply (IH c).
Qed.

Lemma lookup_remove_frame q : ∀ p fs fs',
  FS.remove fs q = Some fs' →
  PurePath.is_prefix q p = false → PurePath.is_prefix p q = false →
  FS.lookup fs' p = FS.lookup fs p.
Proof.
  induction q as [|x q IH]; intros p fs fs' Hrm Hqp Hpq; [done|].
  destruct p as [|y p]; [done|].
  simpl in Hrm. destruct fs as [|l]; [done|]. simpl in Hqp, Hpq.
  destruct (FS.assoc x l) as [c|] eqn:Ec; [|done].
  destruct (decide (x = y)) as [->|Hne].
  - rewrite bool_decide_eq_true_2 in Hqp, Hpq by done. simpl in *.
    destruct q as [|z q]; [done|].
    destruct (FS.remove c (z :: q)) as [c'|] eqn:E; [|done].
    injection Hrm as <-. cbn [FS.lookup].
    rewrite assoc_set_assoc_eq, ?Ec. by apply (IH p c c').
  - destruct q as [|z q].
    + injection Hrm as <-. simpl. by rewrite assoc_del_assoc_ne.
    + destruct (FS.remove c (z :: q)) as [c'|]; [|done].
      injection Hrm as <-. simpl. by rewrite assoc_set_assoc_ne.
Qed.

Lemma remove_exists q : ∀ fs n,
  q ≠ [] → FS.lookup fs q = Some n → is_Some (FS.remove fs q).
Proof.
  induction q as [|x q IH]; intros fs n Hne; [done|]. simpl.
  destruct fs as [|l]; [done|].
  destruct (FS.assoc x l) as [c|]; [|done]. destruct q as [|y q]; [eauto|].
  intros Hl. destruct (IH c n) as [c' ->]; eauto.
Qed.

Lemma mkdirs_dir_stable q : ∀ p fs fs' l,
  FS.mkdirs fs q = inr fs' →
  FS.lookup fs p = Some (Dir l) →
  ∃ l', FS.lookup fs' p = Some (Dir l').
Proof.
  induction q as [|x q IH]; intros p fs fs' l; simpl.
  - destruct fs; [done|]. intros [= <-]. eauto.
  - destruct fs as [|l0]; [done|].
    destruct (FS.mkdirs (default (Dir []) (FS.assoc x l0)) q) as [|c'] eqn:E;
      [done|].
    intros [= <-]. destruct p as [|y p]; simpl; [eauto|].
    destruct (decide (x = y)) as [->|Hne].
    + rewrite assoc_set_assoc_eq.
      destruct (FS.assoc y l0) as [c|]; [|done]. simpl in E.
      intros Hp. by apply (IH p c c' l).
    + rewrite assoc_set_assoc_ne by done. eauto.
Qed.

Lemma mkdirs_lookup_none r : ∀ q fs fs1,
  FS.mkdirs fs r = inr fs1 →
  FS.lookup fs q = None →
  PurePath.is_prefix q r = false →
  FS.lookup fs1 q = None.
Proof.
  induction r as [|x r IH]; intros q fs fs1; simpl.
  - destruct fs; [done|]. by intros [= <-].
  - destruct fs as [|l0]; [done|].
    destruct (FS.mkdirs (default (Dir []) (FS.assoc x l0)) r) as [|c'] eqn:E;
      [done|].
    intros [= <-]. destruct q as [|y q]; [done|]. simpl.
    destruct (decide (y = x)) as [->|Hne].
    + rewrite bool_decide_eq_true_2 by done. simpl.
      rewrite assoc_set_assoc_eq.
      destruct (FS.assoc x l0) as [c|]; simpl in E.
      * intros Hq Hpre. by apply (IH q c c').
      * intros _ Hpre. apply (IH q (Dir []) c'); [done| |done].
        destruct q; [done|]. done.
    + rewrite assoc_set_assoc_ne by done. done.
Qed.

Lemma rename_file fs src dst fs' text :
  FS.lookup fs (parts src) = Some (File text) →
  parts src ≠ parts dst →
  FS.rename fs src dst = inr fs' →
  FS.lookup fs' (parts dst) = Some (File text)
  ∧ FS.lookup fs' (parts src) = None.
Proof.
  intros Hsrc Hne. unfold FS.rename. rewrite Hsrc.
  rewrite bool_decide_eq_false_2 by done.
  destruct (PurePath.is_prefix (parts src) (parts dst)) eqn:E1; [done|].
  destruct (PurePath.is_prefix (parts dst) (parts src)) eqn:E2; [done|].
  simpl.
  destruct (FS.remove fs (parts src)) as [fs1|] eqn:Er.
  2:{ by destruct (FS.lookup fs (parts dst)) as [[|[]]|]. }
  destruct (FS.put fs1 (parts dst) (File text)) as [fs2|] eqn:Ep.
  2:{ by destruct (FS.lookup fs (parts dst)) as [[|[]]|]. }
  intros Hres.
  assert (fs' = fs2) as ->.
  { by destruct (FS.lookup fs (parts dst)) as [[|[]]|]; simplify_eq. }
  split; [by eapply lookup_put_eq|].
  rewrite (lookup_put_frame _ _ _ _ _ Ep E2 E1).
  by eapply lookup_remove_eq.
Qed.

(** *** Directories that stay directories *)

Lemma lookup_above_dir q : ∀ p fs l,
  FS.lookup fs p = Some (Dir l) → PurePath.is_prefix q p = true →
  ∃ l', FS.lookup fs q = Some (Dir l').
Proof.
  induction q as [|x q IH]; intros p fs l Hp Hpre.
  - simpl. destruct p; simpl in Hp.
    + injection Hp as ->. eauto.
    + destruct fs; [done|]. eauto.
  - destruct p as [|y p]; [done|]. simpl in *.
    apply andb_true_iff in Hpre as [->%bool_decide_eq_true Hpre].
    destruct fs as [|l0]; [done|].
    destruct (FS.assoc y l0) as [c|]; [|done]. by apply (IH p c l).
Qed.

Lemma mkdirs_stable fs q fs' : FS.mkdirs fs q = inr fs' → dirs_stable fs fs'.
Proof. intros Hmk p l Hp. by eapply mkdirs_dir_stable. Qed.

Lemma dirs_stable_trans fs1 fs2 fs3 :
  dirs_stable fs1 fs2 → dirs_stable fs2 fs3 → dirs_stable fs1 fs3.
Proof. intros H12 H23 p l Hp. destruct (H12 p l Hp) as [l' Hl']. eauto. Qed.

Lemma put_stable fs q v fs' :
  FS.put fs q v = Some fs' →
  (∀ l, FS.lookup fs q ≠ Some (Dir l)) →
  dirs_stable fs fs'.
Proof.
  intros Hput Hq p l Hp.
  destruct (PurePath.is_prefix q p) eqn:Epre.
  - destruct (lookup_above_dir q p fs l Hp Epre) as [l' Hl']. by destruct (Hq l').
  - by eapply lookup_put_dir.
Qed.

Lemma copyfile_stable fs src dst fs' :
  FS.copyfile fs src dst = inr fs' → dirs_stable fs fs'.
Proof.
  unfold FS.copyfile, FS.write. destruct (_ && _); [done|].
  destruct (FS.read fs src) as [|d]; [done|].
  destruct (FS.lookup fs (parts dst)) as [[|]|] eqn:E; [|done|];
    (destruct (FS.put fs (parts dst) (File d)) as [fs2|] eqn:Ep; [|done]);
    intros [= <-]; eapply put_stable; try done; intros l; by rewrite E.
Qed.

Lemma copytree_stable fs src dst fs' :
  FS.copytree fs src dst = inr fs' → dirs_stable fs fs'.
Proof.
  unfold FS.copytree.
  destruct (FS.lookup fs (parts src)) as [[|l]|]; try done.
  destruct (FS.exists_ fs dst) eqn:Eex; [done|].
  destruct (PurePath.is_prefix _ _); [done|].
  destruct (FS.mkdirs fs (removelast (parts dst))) as [e|fs1] eqn:Emk.
  { by destruct e. }
  destruct (FS.put fs1 (parts dst) (Dir l)) as [fs2|] eqn:Ep; [|done].
  intros [= <-] p l0 Hp.
  destruct (mkdirs_dir_stable _ _ _ _ _ Emk Hp) as [l1 Hl1].
  destruct (PurePath.is_prefix (parts dst) p) eqn:Epre.
  - destruct (lookup_above_dir _ _ _ _ Hp Epre) as [l' Hl'].
    unfold FS.exists_ in Eex. apply bool_decide_eq_false in Eex.
    destruct Eex. rewrite Hl'. eauto.
  - by eapply lookup_put_dir.
Qed.

Lemma is_dir_stable fs fs' p :
  dirs_stable fs fs' → FS.is_dir fs p = true → FS.is_dir fs' p = true.
Proof.
  intros Hst. unfold FS.is_dir.
  destruct (FS.lookup fs (parts p)) as [[|l]|] eqn:E; try done.
  destruct (Hst _ _ E) as [l' ->]. done.
Qed.

(** ** The service monad *)

Lemma bind_unfold {A B} (m : M A) (f : A → M B) (s : State) :
  (m ≫= f) s = match m s with
               | Ok a s' => f a s'
               | Raise e s' => Raise e s'
               | Blocked s' => Blocked s'
               end.
Proof. reflexivity. Qed.

Lemma set_lock_release s :
  _lock s = false → set__lock false (set__lock true s) = s.
Proof. destruct s; simpl; by intros ->. Qed.

Lemma relativize_eq path root s :
  relativize path root s = Ok (stored_path path root) s.
Proof.
  unfold relativize, stored_path, PurePath.relative_to.
  by destruct (PurePath.is_relative_to path root).
Qed.

Lemma stored_path_spec path root :
  anchored path = true →
  (anchored (stored_path path root) = false
   ↔ PurePath.is_relative_to path root = true)
  ∧ (PurePath.is_relative_to path root = true →
     PurePath.join root (stored_path path root) = path)
  ∧ (PurePath.is_relative_to path root = false →
     stored_path path root = path).
Proof.
  intros Ha. unfold stored_path.
  destruct (PurePath.is_relative_to path root) eqn:E; simpl.
  - split; [done|]. split; [|done]. intros _.
    apply andb_true_iff in E as [Hanch%bool_decide_eq_true Hp].
    unfold PurePath.join. simpl. rewrite (is_prefix_drop _ _ Hp).
    destruct path as [a ps]. simpl in *. by rewrite <-Hanch.
  - split; [|done]. rewrite Ha. split; done.
Qed.

(** *** Invariants through the monad *)

Lemma keeps_ret {A} P (a : A) : keeps P (mret a).
Proof. by intros s Hs. Qed.

Lemma keeps_raise {A} P e : keeps P (raise e : M A).
Proof. by intros s Hs. Qed.

Lemma keeps_gets {A} P (f : State → A) : keeps P (gets f).
Proof. by intros s Hs. Qed.

Lemma keeps_of_sum {A} P (r : exn + A) : keeps P (of_sum r).
Proof. destruct r; by intros s Hs. Qed.

Lemma keeps_bind {A B} P (m : M A) (f : A → M B) :
  keeps P m → (∀ a, keeps P (f a)) → keeps P (m ≫= f).
Proof.
  intros Hm Hf s Hs. rewrite bind_unfold. specialize (Hm s Hs).
  destruct (m s) as [a s'|e s'|s']; [by apply Hf|done..].
Qed.

Lemma keeps_modify P (f : State → State) :
  (∀ s, P s → P (f s)) → keeps P (modify f).
Proof. intros Hf s Hs. by apply Hf. Qed.

Lemma keeps_try_except {A} P (m : M A) h :
  keeps P m → (∀ e k, h e = Some k → keeps P k) → keeps P (try_except m h).
Proof.
  intros Hm Hh s Hs. unfold try_except. specialize (Hm s Hs).
  destruct (m s) as [a s'|e s'|s']; [done| |done].
  destruct (h e) as [k|] eqn:E; [by eapply Hh|done].
Qed.

Lemma keeps_for_each {A} P (l : list A) (f : A → M unit) :
  (∀ a, keeps P (f a)) → keeps P (for_each l f).
Proof.
  intros Hf. induction l as [|a l IH]; simpl; [apply keeps_ret|].
  apply keeps_bind; [apply Hf | by intros _].
Qed.

Lemma keeps_relativize P path root : keeps P (relativize path root).
Proof. intros s Hs. by rewrite relativize_eq. Qed.

Lemma keeps_add_model P info :
  (∀ st s, P s → P (set__record_store st s)) → keeps P (add_model info).
Proof.
  intros HP s Hs. unfold add_model.
  destruct (_record_store s !! _); [done | by apply HP].
Qed.

Lemma keeps_register (H : Host) P model_path config info :
  (∀ st s, P s → P (set__record_store st s)) →
  keeps P (_register H model_path config info).
Proof.
  intros HP. unfold _register.
  apply keeps_bind; [apply keeps_gets|]. intros s0.
  apply keeps_bind; [destruct info; [apply keeps_ret|apply keeps_of_sum]|].
  intros i. apply keeps_bind; [apply keeps_relativize|]. intros p.
  apply keeps_bind.
  { destruct (ModelConfig.config_path _); [|apply keeps_ret].
    apply keeps_bind; [apply keeps_relativize|]. intros. apply keeps_ret. }
  intros i'. apply keeps_bind; [by apply keeps_add_model|].
  intros _. apply keeps_ret.
Qed.

Lemma keeps_register_path (H : Host) P model_path config :
  (∀ st s, P s → P (set__record_store st s)) →
  keeps P (register_path H model_path config).
Proof. intros HP. by apply keeps_register. Qed.

Lemma keeps_migrate_entry (H : Host) P entry :
  (∀ st s, P s → P (set__record_store st s)) →
  keeps P (migrate_entry H entry).
Proof.
  intros HP. unfold migrate_entry. destruct entry as [model_key stanza].
  apply keeps_bind.
  { destruct (Str.split_slash model_key) as [|? [|? [|? [|]]]];
      (apply keeps_raise || apply keeps_ret). }
  intros model_name. apply keeps_bind; [apply keeps_gets|]. intros s0.
  apply keeps_bind.
  { destruct (or_else _ _); [|apply keeps_ret].
    apply keeps_bind; [apply keeps_relativize|]. intros. apply keeps_ret. }
  intros config. apply keeps_try_except.
  - apply keeps_bind; [by apply keeps_register_path|]. intros. apply keeps_ret.
  - intros e k [= <-]. apply keeps_ret.
Qed.

Lemma register_fs (H : Host) p config info s :
  match _register H p config info s with
  | Ok _ s' | Raise _ s' =>
      st_fs s' = st_fs s ∧ _app_config s' = _app_config s
  | Blocked _ => False
  end.
Proof.
  apply (keeps_register H (λ s', st_fs s' = st_fs s
                                 ∧ _app_config s' = _app_config s));
    [by intros st []|done].
Qed.

Section Frame.

Context (H : Host) (P : State → Prop).
Hypothesis P_store : ∀ st s, P s → P (set__record_store st s).
Hypothesis P_bus : ∀ b s, P s → P (set__event_bus b s).
Hypothesis P_fs :
  ∀ fs' s, P s → dirs_stable (st_fs s) fs' → P (set_st_fs fs' s).
Hypothesis P_job :
  ∀ r f s j, P s → st_jobs s !! r = Some j →
             Job._install_tmpdir (f j) = Job._install_tmpdir j →
             P (set_st_jobs (<[r := f j]> (st_jobs s)) s).

Lemma keeps_get_job r : keeps P (get_job r).
Proof. intros s Hs. unfold get_job. by destruct (st_jobs s !! r). Qed.

Lemma keeps_update_job r f :
  (∀ j, Job._install_tmpdir (f j) = Job._install_tmpdir j) →
  keeps P (update_job r f).
Proof.
  intros Hf s Hs. unfold update_job.
  destruct (st_jobs s !! r) as [j|] eqn:E; [|done]. by apply P_job.
Qed.

Lemma keeps_emit ev : keeps P (emit ev).
Proof.
  intros s Hs. unfold emit, modify. destruct (_event_bus s); [|done].
  by apply P_bus.
Qed.

Lemma keeps_fs_call f :
  (∀ fs fs', f fs = inr fs' → dirs_stable fs fs') → keeps P (fs_call f).
Proof.
  intros Hf s Hs. unfold fs_call.
  destruct (f (st_fs s)) as [e|fs'] eqn:E; [done|]. apply P_fs; eauto.
Qed.

Lemma keeps_copy_model old_path new_path :
  keeps P (_copy_model old_path new_path).
Proof.
  unfold _copy_model. case_bool_decide; [apply keeps_ret|].
  apply keeps_bind.
  { apply keeps_fs_call. intros fs fs'. apply mkdirs_stable. }
  intros _. apply keeps_bind; [apply keeps_gets|]. intros is_dir.
  apply keeps_bind; [|intros _; apply keeps_ret].
  destruct is_dir; apply keeps_fs_call; intros fs fs';
    [apply copytree_stable | apply copyfile_stable].
Qed.

Lemma keeps_install_path model_path config :
  keeps P (install_path H model_path config).
Proof.
  unfold install_path.
  apply keeps_bind; [apply keeps_gets|]. intros s0.
  apply keeps_bind; [apply keeps_of_sum|]. intros info.
  apply keeps_bind.
  { destruct (config_get config "name"); [|apply keeps_ret].
    apply keeps_bind; [apply keeps_of_sum|]. intros. apply keeps_ret. }
  intros pn. apply keeps_bind.
  - apply keeps_try_except; [apply keeps_copy_model|].
    intros e k. destruct e; try done. intros [= <-]. apply keeps_raise.
  - intros p. by apply keeps_register.
Qed.

Lemma keeps_signal_running job : keeps P (_signal_job_running H job).
Proof.
  unfold _signal_job_running.
  apply keeps_bind; [by apply keeps_update_job|]. intros _.
  apply keeps_bind; [apply keeps_get_job|]. intros j. apply keeps_emit.
Qed.

Lemma keeps_signal_completed job : keeps P (_signal_job_completed H job).
Proof.
  unfold _signal_job_completed.
  apply keeps_bind; [by apply keeps_update_job|]. intros _.
  apply keeps_bind; [apply keeps_get_job|]. intros j.
  destruct (Job.config_out j); [apply keeps_emit | apply keeps_raise].
Qed.

Lemma keeps_signal_errored job : keeps P (_signal_job_errored H job).
Proof.
  unfold _signal_job_errored.
  apply keeps_bind; [apply keeps_get_job|]. intros j.
  apply keeps_bind; [apply keeps_gets|]. intros bus.
  destruct bus; [|apply keeps_ret].
  destruct (Job.error_type j), (Job.error j);
    (apply keeps_emit || apply keeps_raise).
Qed.

Lemma keeps_signal_cancelled job : keeps P (_signal_job_cancelled H job).
Proof.
  unfold _signal_job_cancelled.
  apply keeps_bind; [apply keeps_get_job|]. intros j. apply keeps_emit.
Qed.

Lemma keeps_register_or_install job : keeps P (_register_or_install H job).
Proof.
  unfold _register_or_install.
  apply keeps_bind; [apply keeps_get_job|]. intros j.
  apply keeps_bind; [apply keeps_gets|]. intros total_bytes.
  apply keeps_bind; [by apply keeps_update_job|]. intros _.
  apply keeps_bind; [by apply keeps_update_job|]. intros _.
  apply keeps_bind; [apply keeps_signal_running|]. intros _.
  apply keeps_bind; [by apply keeps_update_job|]. intros _.
  apply keeps_bind.
  { apply keeps_update_job. intros j0.
    by destruct (Job.source_metadata j0) as [[]|]. }
  intros _. apply keeps_bind; [apply keeps_get_job|]. intros j'.
  apply keeps_bind.
  { destruct (Job.inplace j').
    - apply keeps_bind; [by apply keeps_update_job|]. intros _.
      by apply keeps_register_path.
    - apply keeps_install_path. }
  intros key. apply keeps_bind.
  { intros s Hs. unfold get_model. by destruct (_record_store s !! key). }
  intros config_out. apply keeps_bind; [by apply keeps_update_job|].
  intros _. apply keeps_signal_completed.
Qed.

Lemma keeps_process_job job : keeps P (process_job H job).
Proof.
  unfold process_job.
  apply keeps_bind; [apply keeps_get_job|]. intros j.
  destruct (Job.cancelled j); [apply keeps_signal_cancelled|].
  destruct (Job.errored j); [apply keeps_signal_errored|].
  destruct (_ || _); [apply keeps_register_or_install | apply keeps_ret].
Qed.

Lemma keeps_set_error job e : keeps P (_set_error H job e).
Proof.
  unfold _set_error.
  apply keeps_bind; [apply keeps_get_job|]. intros j.
  apply keeps_bind; [apply keeps_gets|]. intros s0.
  apply keeps_bind; [|intros _; apply keeps_signal_errored].
  destruct (existsb _ _); by apply keeps_update_job.
Qed.

End Frame.

(** ** Cancellation *)

Lemma cancel_job_locked (H : Host) n job s :
  _lock s = true → cancel_job_n H (S n) job s = cancel_job_n H 1 job s.
Proof.
  intros Hlock. simpl. unfold cancel_job_. rewrite !bind_unfold.
  unfold update_job. destruct (st_jobs s !! job) as [j|]; [|done].
  unfold with_lock. simpl. by rewrite Hlock.
Qed.

Lemma cancel_download_parts_agree (H : Host) c1 c2 job s :
  (∀ r s', _lock s' = true → c1 r s' = c2 r s') →
  _lock s = true →
  _cancel_download_parts_ H c1 job s = _cancel_download_parts_ H c2 job s.
Proof.
  intros Hc Hlock. unfold _cancel_download_parts_. rewrite !bind_unfold.
  unfold get_job. destruct (st_jobs s !! job) as [j|]; [|done].
  rewrite !bind_unfold. unfold modify. rewrite !bind_unfold. unfold gets.
  destruct (forallb _ _); [|done].
  unfold _put_in_queue_. rewrite !bind_unfold. unfold gets. simpl.
  destruct (_stop_event s); [|done]. apply Hc. by destruct s.
Qed.

(** The recursion between [cancel_job], [_cancel_download_parts] and
    [_put_in_queue] is cut by the lock: unfolding it further than twice
    changes nothing. *)
Lemma cancel_job_depth (H : Host) n job s :
  cancel_job_n H (S (S n)) job s = cancel_job H job s.
Proof.
  unfold cancel_job. simpl. unfold cancel_job_ at 1 3. rewrite !bind_unfold.
  destruct (update_job job Job.cancel s) as [[] s'|e s'|s']; [|done..].
  unfold with_lock. destruct (_lock s'); [done|].
  rewrite (cancel_download_parts_agree H (cancel_job_ H (cancel_job_n H n))
             (cancel_job_ H (λ _ s0, Blocked s0)) job (set__lock true s'));
    [done| |by destruct s'].
  intros r s0 Hs0. apply (cancel_job_locked H n r s0 Hs0).
Qed.

(** ** Installing onto an occupied destination *)

Lemma install_path_unfold (H : Host) model_path config s :
  install_path H model_path config s
  = match probe H (st_fs s) model_path config
                (AppConfig.hashing_algorithm (_app_config s)) with
    | inl e => Raise e s
    | inr info =>
        match preferred_name_of model_path config with
        | inl e => Raise e s
        | inr pn =>
            (new_path ←
               try_except
                 (_copy_model model_path
                    (dest_path_of (_app_config s) info model_path pn))
                 duplicate_handler;
             _register H new_path config (Some info)) s
        end
    end.
Proof.
  unfold install_path, preferred_name_of, mbind, M_bind, gets,
    duplicate_handler, of_sum.
  destruct (probe H _ _ _ _) as [e|info]; [done|].
  destruct (config_get config "name") as [nm|]; [|done].
  by destruct (PurePath.with_suffix _ _).
Qed.

Lemma copy_model_onto_existing old_path new_path s :
  FS.is_dir (st_fs s) old_path = true →
  old_path ≠ new_path →
  FS.exists_ (st_fs s) new_path = true →
  try_except (_copy_model old_path new_path) duplicate_handler s
  = Raise DuplicateModelException s.
Proof.
  intros Hdir Hne Hex.
  destruct (exists_lookup _ _ Hex) as [n Hn].
  unfold try_except, _copy_model.
  rewrite bool_decide_eq_false_2 by done.
  rewrite bind_unfold. unfold fs_call at 1, FS.mkdir_parents, PurePath.parent.
  simpl.
  destruct (mkdirs_parent_of_existing _ _ _ Hn) as [-> | ->]; [|done].
  assert (set_st_fs (st_fs s) s = s) as -> by by destruct s.
  rewrite bind_unfold. unfold gets. rewrite Hdir.
  rewrite bind_unfold. unfold fs_call, FS.copytree.
  unfold FS.is_dir in Hdir.
  destruct (FS.lookup (st_fs s) (parts old_path)) as [[|l]|]; try done.
  by rewrite Hex.
Qed.

(** A directory copied to a destination other than itself: afterwards the
    destination exists and the source is still a directory. *)
Lemma copy_model_dir old_path new_path s p s' :
  FS.is_dir (st_fs s) old_path = true →
  old_path ≠ new_path →
  try_except (_copy_model old_path new_path) duplicate_handler s = Ok p s' →
  p = new_path
  ∧ FS.exists_ (st_fs s') new_path = true
  ∧ FS.is_dir (st_fs s') old_path = true
  ∧ _app_config s' = _app_config s.
Proof.
  intros Hdir Hne. unfold try_except, _copy_model.
  rewrite bool_decide_eq_false_2 by done.
  rewrite bind_unfold. unfold fs_call at 1.
  destruct (FS.mkdir_parents (st_fs s) (PurePath.parent new_path))
    as [e|fs1] eqn:Emk; [by destruct e|].
  rewrite bind_unfold. unfold gets.
  assert (FS.is_dir fs1 old_path = true) as Hdir1.
  { eapply is_dir_stable; [|done]. by eapply mkdirs_stable. }
  assert (st_fs (set_st_fs fs1 s) = fs1) as -> by by destruct s.
  rewrite Hdir1. rewrite bind_unfold. unfold fs_call.
  assert (st_fs (set_st_fs fs1 s) = fs1) as -> by by destruct s.
  destruct (FS.copytree fs1 old_path new_path) as [e|fs2] eqn:Ecp;
    [by destruct e|].
  intros [= <- <-]. split; [done|].
  assert (st_fs (set_st_fs fs2 (set_st_fs fs1 s)) = fs2) as -> by by destruct s.
  split; [|split; [|by destruct s]].
  - revert Ecp. unfold FS.copytree.
    destruct (FS.lookup fs1 (parts old_path)) as [[|l]|]; try done.
    destruct (FS.exists_ fs1 new_path); [done|].
    destruct (PurePath.is_prefix _ _); [done|].
    destruct (FS.mkdirs fs1 _) as [e|fs1']; [by destruct e|].
    destruct (FS.put fs1' (parts new_path) (Dir l)) as [fs2'|] eqn:Ep; [|done].
    intros [= <-]. unfold FS.exists_. apply bool_decide_eq_true_2.
    rewrite (lookup_put_eq _ _ _ _ Ep). eauto.
  - eapply is_dir_stable; [|done]. by eapply copytree_stable.
Qed.

(** C1 (as amended): when the model is a directory other than the
    computed destination [<models_root>/<base>/<type>/<name>] and that
    destination exists, [install_path] fails with [Duplicate] and leaves
    the disk and the records as they were. In particular, after a first
    [install_path] of such a directory has returned, a second one (the
    probe giving the same description of the model) fails with
    [Duplicate]. *)
Theorem install_path_duplicate (H : Host) (model_path : Path)
    (config : gmap string string) (s : State) (info : ModelConfig.t)
    (preferred_name : option Path) :
  let algo := AppConfig.hashing_algorithm (_app_config s) in
  let dest_path :=
    dest_path_of (_app_config s) info model_path preferred_name in
  probe H (st_fs s) model_path config algo = inr info →
  preferred_name_of model_path config = inr preferred_name →
  FS.is_dir (st_fs s) model_path = true →
  model_path ≠ dest_path →
  (FS.exists_ (st_fs s) dest_path = true →
   install_path H model_path config s = Raise DuplicateModelException s)
  ∧ (∀ key s1,
       install_path H model_path config s = Ok key s1 →
       probe H (st_fs s1) model_path config algo = inr info →
       install_path H model_path config s1
       = Raise DuplicateModelException s1).
Proof.
  intros algo dest_path Hprobe Hname Hdir Hne. split.
  - intros Hex. rewrite install_path_unfold. fold algo.
    rewrite Hprobe, Hname, bind_unfold.
    by rewrite copy_model_onto_existing.
  - intros key s1 Hfirst Hprobe1.
    rewrite install_path_unfold in Hfirst. fold algo in Hfirst.
    rewrite Hprobe, Hname, bind_unfold in Hfirst.
    destruct (try_except _ _ s) as [p s'|e s'|s'] eqn:Ecopy; [|done..].
    destruct (copy_model_dir _ _ _ _ _ Hdir Hne Ecopy)
      as (-> & Hex & Hdir' & Hcfg).
    pose proof (register_fs H dest_path config (Some info) s') as Hreg.
    fold dest_path in Hfirst. rewrite Hfirst in Hreg.
    destruct Hreg as [Hfs1 Hcfg1].
    assert (_app_config s1 = _app_config s) as Hc by congruence.
    rewrite install_path_unfold. rewrite Hc. fold algo.
    rewrite Hprobe1, Hname, bind_unfold.
    rewrite copy_model_onto_existing; [done|by rewrite Hfs1..| |by rewrite Hfs1].
    done.
Qed.

Lemma install_path_duplicate_witness :
  let model_path := mkPath true ["downloads"; "foo"] in
  let info := ModelConfig.mk "key-foo" "sdxl" "main" "foo" "" None in
  let dest_path := dest_path_of sample_config info model_path None in
  (probe sample_host (st_fs sample_state) model_path ∅ "blake3" = inr info
   ∧ preferred_name_of model_path ∅ = inr None
   ∧ FS.is_dir (st_fs sample_state) model_path = true
   ∧ model_path ≠ dest_path
   ∧ FS.exists_ (st_fs sample_state) dest_path = true)
  ∧ install_path sample_host model_path ∅ sample_state
    = Raise DuplicateModelException sample_state.
Proof.
  intros model_path info dest_path.
  assert (probe sample_host (st_fs sample_state) model_path ∅ "blake3"
          = inr info) as H1 by reflexivity.
  assert (preferred_name_of model_path ∅ = inr None) as H2 by reflexivity.
  assert (FS.is_dir (st_fs sample_state) model_path = true) as H3
    by reflexivity.
  assert (model_path ≠ dest_path) as H4 by discriminate.
  assert (FS.exists_ (st_fs sample_state) dest_path = true) as H5
    by reflexivity.
  split; [done|].
  apply (proj1 (install_path_duplicate sample_host model_path ∅ sample_state
                  info None H1 H2 H3 H4) H5).
Defined.

(** C1 as stated fails in two ways. A regular file installed over an
    occupied destination replaces it ([copyfile] does not raise
    [FileExistsError]) and the install succeeds; and a model that already
    sits at its destination is registered in place, without any error. *)
Lemma install_path_duplicate_counterexample :
  let info := ModelConfig.mk "key-x.safetensors" "sdxl" "main"
                             "x.safetensors" "" None in
  let src := mkPath true ["downloads"; "x.safetensors"] in
  dest_path_of sample_config info src None = sample_dest
  ∧ dest_path_of sample_config info sample_dest None = sample_dest
  ∧ FS.lookup (st_fs sample_state) (parts sample_dest)
    = Some (File "installed")
  ∧ (∃ s', install_path sample_host src ∅ sample_state
           = Ok "key-x.safetensors" s'
           ∧ FS.lookup (st_fs s') (parts sample_dest) = Some (File "fresh"))
  ∧ (∃ s', install_path sample_host sample_dest ∅ sample_state
           = Ok "key-x.safetensors" s'
           ∧ st_fs s' = st_fs sample_state).
Proof.
  intros info src. split; [reflexivity|]. split; [reflexivity|].
  split; [reflexivity|].
  split; eexists; (split; [vm_compute; reflexivity|]); reflexivity.
Qed.

(** A second [install_path] of the same directory fails with
    [Duplicate]. *)
Example install_path_twice :
  ∃ s1, install_path sample_host (mkPath true ["downloads"; "a"]) ∅
          sample_state = Ok "key-a" s1
        ∧ install_path sample_host (mkPath true ["downloads"; "a"]) ∅ s1
          = Raise DuplicateModelException s1.
Proof. eexists. split; vm_compute; reflexivity. Qed.

(** ** Interpreting a source string *)

Lemma first_token_spec (H : Host) pairs source tok :
  first_token H pairs source = Some tok ↔
  ∃ l1 r l2, pairs = l1 ++ (r, tok) :: l2
             ∧ re_search H r source = true
             ∧ Forall (λ p, re_search H p.1 source = false) l1.
Proof.
  induction pairs as [|[r t] pairs IH]; simpl.
  - split; [done|]. intros (l1 & r & l2 & E & _). by destruct l1.
  - destruct (re_search H r source) eqn:Er.
    + split.
      * intros [= ->]. by exists [], r, pairs.
      * intros ([|[r' t'] l1] & r0 & l2 & E & Hr & Hall); simplify_eq/=; [done|].
        apply Forall_cons in Hall as [Hno _]. simpl in Hno. congruence.
    + rewrite IH. split.
      * intros (l1 & r0 & l2 & -> & Hr & Hall).
        exists ((r, t) :: l1), r0, l2. split; [done|]. split; [done|].
        by constructor.
      * intros ([|[r' t'] l1] & r0 & l2 & E & Hr & Hall); simplify_eq/=.
        { congruence. }
        apply Forall_cons in Hall as [_ Hall]. by exists l1, r0, l2.
Qed.

Lemma strip_prefix_spec lit : ∀ s s',
  Regex.strip_prefix lit s = Some s' ↔ s = lit +:+ s'.
Proof.
  induction lit as [|a lit IH]; intros s s'; simpl.
  - split; [by intros [= ->] | by intros ->].
  - destruct s as [|b s]; [done|].
    destruct (Ascii.eqb_spec a b) as [->|Hab].
    + rewrite IH. split; [by intros -> | by intros [= ->]].
    + split; [done | intros [= ? ?]; congruence].
Qed.

Lemma strip_prefix_None lit s :
  Regex.strip_prefix lit s = None ↔ ∀ s', s ≠ lit +:+ s'.
Proof.
  split.
  - intros E s' ->. assert (Regex.strip_prefix lit (lit +:+ s') = Some s') as E'
      by by apply strip_prefix_spec.
    congruence.
  - intros Hno. destruct (Regex.strip_prefix lit s) as [s'|] eqn:E; [|done].
    apply strip_prefix_spec in E. by destruct (Hno s').
Qed.

Lemma plus_from_total p s :
  Regex.plus_from p s (λ _, Some (∅ : Regex.captures)) = None ↔
  match s with String c _ => p c = false | EmptyString => True end.
Proof.
  destruct s as [|c s]; simpl; [done|].
  destruct (p c); [|done].
  by destruct (Regex.plus_from p s _).
Qed.

(** The strings that [url_re] accepts: [http://] or [https://] followed by
    a character other than a slash. *)
Lemma url_re_spec source :
  is_Some (Regex.match_ url_re source) ↔
  ∃ c rest, (source = "http://" +:+ String c rest
             ∨ source = "https://" +:+ String c rest)
            ∧ c ≠ "/"%char.
Proof.
  unfold Regex.match_, url_re, Regex.seq. cbn [Regex.run].
  destruct (Regex.strip_prefix "http" source) as [s1|] eqn:E1.
  2:{ split; [by intros [? ?]|]. intros (c & rest & [-> | ->] & _); done. }
  apply strip_prefix_spec in E1 as ->.
  assert (∀ s, is_Some (Regex.plus_from (Regex.none_of "/") s
                          (λ _, Some (∅ : Regex.captures)))
               ↔ ∃ c rest, s = String c rest ∧ c ≠ "/"%char) as Hplus.
  { intros s. rewrite <-not_eq_None_Some, plus_from_total.
    destruct s as [|c rest].
    - split; [done|]. by intros (? & ? & ? & ?).
    - unfold Regex.none_of. simpl. rewrite orb_false_r.
      destruct (Ascii.eqb_spec c "/") as [->|Hc]; simpl.
      + split; [done|]. by intros (? & ? & [= <- <-] & ?).
      + split; [eauto|done]. }
  destruct (Regex.strip_prefix "s" s1) as [s2|] eqn:E2.
  - apply strip_prefix_spec in E2 as ->.
    destruct (Regex.strip_prefix "://" s2) as [s3|] eqn:E3.
    + apply strip_prefix_spec in E3 as ->.
      destruct (Regex.plus_from _ s3 _) as [caps|] eqn:Ep.
      * assert (is_Some (Regex.plus_from (Regex.none_of "/") s3
                           (λ _, Some (∅ : Regex.captures)))) as Hs
          by (rewrite Ep; eauto).
        apply Hplus in Hs as (c & rest & -> & Hc).
        split; [|eauto]. intros _. exists c, rest. eauto.
      * apply eq_None_not_Some in Ep. rewrite Hplus in Ep.
        split; [by intros [? ?]|].
        intros (c & rest & [E | E] & Hc); simplify_eq/=. exfalso. apply Ep. eauto.
    + rewrite strip_prefix_None in E3. split; [by intros [? ?]|].
      intros (c & rest & [E | E] & Hc); simplify_eq/=.
      by destruct (E3 (String c rest)).
  - destruct (Regex.strip_prefix "://" s1) as [s3|] eqn:E3.
    + apply strip_prefix_spec in E3 as ->.
      rewrite Hplus. split.
      * intros (c & rest & -> & Hc). exists c, rest. eauto.
      * intros (c & rest & [E | E] & Hc); simplify_eq/=. eauto.
    + rewrite strip_prefix_None in E3. split; [by intros [? ?]|].
      rewrite strip_prefix_None in E2.
      intros (c & rest & [E | E] & Hc); simplify_eq/=.
      * by destruct (E3 (String c rest)).
      * by destruct (E2 ("://" +:+ String c rest)).
Qed.

(** C4 (as amended): [heuristic_import] tries, in this order: an existing
    path gives a local source with the given [inplace] flag; a match of
    the repo-id pattern gives a repository source made of the groups of
    the match (empty groups absent) and the access token; a match of
    [^https?://[^/]+] gives a URL source whose token is the explicit one
    or else that of the first configured pair whose pattern is found in
    the string; anything else fails with [ValueError]. The source is then
    handed to [import_model]. *)
Theorem heuristic_import_rules (H : Host) (source : string)
    (config : gmap string string) (access_token : option string)
    (inplace : option bool) (s : State) :
  let path := PurePath.of_string source in
  let repo := Regex.match_ (hf_repoid_re (variants H)) source in
  (FS.exists_ (st_fs s) path = true →
   heuristic_source H source access_token inplace s
   = Ok (LocalModelSource path inplace) s)
  ∧ (∀ m, FS.exists_ (st_fs s) path = false → repo = Some m →
     heuristic_source H source access_token inplace s
     = Ok (HFModelSource (default "" (Regex.group m 1))
                         (nonempty (Regex.group m 2))
                         (PurePath.of_string <$> nonempty (Regex.group m 3))
                         access_token) s)
  ∧ (FS.exists_ (st_fs s) path = false → repo = None →
     is_Some (Regex.match_ url_re source) →
     heuristic_source H source access_token inplace s
     = Ok (URLModelSource (any_http_url H source)
                          (url_token H s source access_token)) s)
  ∧ (FS.exists_ (st_fs s) path = false → repo = None →
     Regex.match_ url_re source = None →
     ∃ msg, heuristic_source H source access_token inplace s
            = Raise (ValueError msg) s)
  ∧ (∀ t, url_token H s source (Some t) = Some t)
  ∧ (∀ tok, url_token H s source None = Some tok ↔
       ∃ l1 r l2,
         AppConfig.remote_api_tokens (_app_config s) = l1 ++ (r, tok) :: l2
         ∧ re_search H r source = true
         ∧ Forall (λ p, re_search H p.1 source = false) l1)
  ∧ heuristic_import H source config access_token inplace s
    = match heuristic_source H source access_token inplace s with
      | Ok source_obj s' => import_model H source_obj config s'
      | Raise e s' => Raise e s'
      | Blocked s' => Blocked s'
      end.
Proof.
  intros path repo. unfold heuristic_source, mbind, M_bind, gets. simpl.
  fold path. fold repo.
  split; [by intros ->|]. split; [by intros m -> ->|].
  split; [by intros -> -> [? ->]|].
  split; [intros -> -> ->; eauto|].
  split; [done|]. split; [apply first_token_spec|done].
Qed.

Lemma heuristic_import_rules_witness :
  heuristic_source sample_host "a/b:fp16:/sub/dir" (Some "tok") None
                   sample_state
  = Ok (HFModelSource "a/b" (Some "fp16")
                      (Some (mkPath false ["sub"; "dir"])) (Some "tok"))
       sample_state.
Proof.
  destruct (heuristic_import_rules sample_host "a/b:fp16:/sub/dir" ∅
              (Some "tok") None sample_state) as (_ & Hrepo & _).
  refine (Hrepo {[1 := "a/b"; 2 := "fp16"; 3 := "sub/dir"]} _ _).
  - reflexivity.
  - vm_compute. reflexivity.
Defined.

(** C4 as stated gives the third rule the pattern [^https?://]: the
    string [http://] matches it and is rejected by the code, whose pattern
    asks for a host. *)
Lemma heuristic_import_url_counterexample :
  FS.exists_ (st_fs sample_state) (PurePath.of_string "http://") = false
  ∧ Regex.match_ (hf_repoid_re (variants sample_host)) "http://" = None
  ∧ is_Some (Regex.match_ spec_url_re "http://")
  ∧ heuristic_import sample_host "http://" ∅ None None sample_state
    = Raise (ValueError "Unsupported model source: 'http://'") sample_state.
Proof.
  split; [reflexivity|]. split; [reflexivity|]. split; [by eexists|].
  reflexivity.
Qed.

(** The boundary strings of the specification. *)
Example heuristic_source_boundaries :
  let classify src := heuristic_source sample_host src None (Some true)
                                       sample_state in
  classify "a/b" = Ok (HFModelSource "a/b" None None None) sample_state
  ∧ classify "a/b:fp16"
    = Ok (HFModelSource "a/b" (Some "fp16") None None) sample_state
  ∧ classify "a/b:fp16:/sub/dir"
    = Ok (HFModelSource "a/b" (Some "fp16")
                        (Some (mkPath false ["sub"; "dir"])) None) sample_state
  ∧ classify "a/b::sub"
    = Ok (HFModelSource "a/b" None (Some (mkPath false ["sub"])) None)
         sample_state
  ∧ classify "https://huggingface.co/a/b"
    = Ok (URLModelSource "https://huggingface.co/a/b" None) sample_state
  ∧ classify "/downloads/x.safetensors"
    = Ok (LocalModelSource (mkPath true ["downloads"; "x.safetensors"])
                           (Some true)) sample_state
  ∧ classify "ftp://host/file"
    = Raise (ValueError "Unsupported model source: 'ftp://host/file'")
            sample_state.
Proof. vm_compute. repeat split; reflexivity. Qed.

(** ** Duplicate suppression *)

(** C5: when the job table holds a job with the submitted source that is
    not in a terminal state, [import_model] returns such a job (the first
    of the table, hence that very job when it is the only one) and leaves
    the whole state as it was: no job object or id is created, nothing is
    put in a queue, the table is unchanged. *)
Theorem import_model_dedup (H : Host) (source : ModelSource)
    (config : gmap string string) (s : State) (job : nat) (j : Job.t) :
  job ∈ list_jobs s →
  st_jobs s !! job = Some j →
  Job.source j = source →
  Job.in_terminal_state j = false →
  ∃ job' j',
    import_model H source config s = Ok job' s
    ∧ head (similar_jobs s source) = Some job'
    ∧ job' ∈ list_jobs s
    ∧ st_jobs s !! job' = Some j'
    ∧ Job.source j' = source
    ∧ Job.in_terminal_state j' = false
    ∧ ((∀ r, r ∈ similar_jobs s source → r = job) → job' = job).
Proof.
  intros Hin Hj Hsrc Hterm.
  assert (job ∈ similar_jobs s source) as Hsim.
  { unfold similar_jobs. apply list_elem_of_In, List.filter_In.
    split; [by apply list_elem_of_In|].
    rewrite Hj, Hterm. by rewrite bool_decide_eq_true_2. }
  unfold import_model, mbind, M_bind, gets. simpl.
  destruct (similar_jobs s source) as [|job' rest] eqn:E.
  { by apply elem_of_nil in Hsim. }
  assert (job' ∈ similar_jobs s source) as Hfirst by (rewrite E; left).
  unfold similar_jobs in Hfirst.
  apply list_elem_of_In, List.filter_In in Hfirst as [Hin' Hp].
  destruct (st_jobs s !! job') as [j'|] eqn:Ej'; [|done].
  apply andb_true_iff in Hp as [Hs%bool_decide_eq_true Ht%negb_true_iff].
  exists job', j'. repeat split; try done.
  - by apply list_elem_of_In.
  - intros Huniq. apply Huniq. left.
Qed.

Lemma import_model_dedup_witness :
  (0 ∈ list_jobs sample_state_queued
   ∧ Job.source <$> st_jobs sample_state_queued !! 0 = Some sample_source
   ∧ Job.in_terminal_state <$> st_jobs sample_state_queued !! 0 = Some false)
  ∧ ∃ job' j',
      import_model sample_host sample_source ∅ sample_state_queued
      = Ok job' sample_state_queued
      ∧ head (similar_jobs sample_state_queued sample_source) = Some job'
      ∧ job' ∈ list_jobs sample_state_queued
      ∧ st_jobs sample_state_queued !! job' = Some j'
      ∧ Job.source j' = sample_source
      ∧ Job.in_terminal_state j' = false
      ∧ ((∀ r, r ∈ similar_jobs sample_state_queued sample_source → r = 0) →
         job' = 0).
Proof.
  split; [split; [by left | split; reflexivity]|].
  refine (import_model_dedup sample_host sample_source ∅ sample_state_queued 0
            (Job.mk 0 sample_source ∅ None None
                    (mkPath true ["downloads"; "x.safetensors"]) None false []
                    0 0 WAITING None None) _ _ _ _).
  - by left.
  - reflexivity.
  - reflexivity.
  - reflexivity.
Defined.

(** ** The install worker *)

Lemma worker_inv_keeps (H : Host) job tmp n q e :
  keeps (worker_inv job tmp n q) (process_job H job)
  ∧ keeps (worker_inv job tmp n q) (_set_error H job e).
Proof.
  assert (∀ st s, worker_inv job tmp n q s →
                  worker_inv job tmp n q (set__record_store st s)) as H1.
  { by intros st []. }
  assert (∀ b s, worker_inv job tmp n q s →
                 worker_inv job tmp n q (set__event_bus b s)) as H2.
  { by intros b []. }
  assert (∀ fs' s, worker_inv job tmp n q s → dirs_stable (st_fs s) fs' →
                   worker_inv job tmp n q (set_st_fs fs' s)) as H3.
  { intros fs' s (Hj & Hd & Hn) Hst. split; [by destruct s|].
    split; [|by destruct s]. intros d Hd'. specialize (Hd d Hd').
    unfold FS.is_dir in *.
    destruct (FS.lookup (st_fs s) (parts d)) as [[|l]|] eqn:E; try done.
    destruct (Hst _ _ E) as [l' Hl']. destruct s; simpl in *. by rewrite Hl'. }
  assert (∀ r f s j, worker_inv job tmp n q s → st_jobs s !! r = Some j →
             Job._install_tmpdir (f j) = Job._install_tmpdir j →
             worker_inv job tmp n q (set_st_jobs (<[r := f j]> (st_jobs s)) s))
    as H4.
  { intros r f s j ((j0 & Hj0 & Ht) & Hd & Hn) Hr Hf.
    split; [|by destruct s]. destruct s; simpl in *.
    destruct (decide (r = job)) as [->|Hne].
    - exists (f j). rewrite list_lookup_insert_eq by by eapply lookup_lt_Some.
      split; [done|]. simplify_eq. by rewrite Hf.
    - exists j0. by rewrite list_lookup_insert_ne. }
  split; [by apply keeps_process_job | by apply keeps_set_error].
Qed.

Lemma set_error_result (H : Host) job e s j :
  st_jobs s !! job = Some j →
  let e' := reported_error s j e in
  ∃ s',
    _set_error H job e s = Ok tt s'
    ∧ st_jobs s' = <[job := job_set_error e' j]> (st_jobs s)
    ∧ _event_bus s'
      = (λ log, log ++ [emit_model_install_error
                          (str_source H (Job.source j)) (exn_class e')
                          (exn_message e') (Job.id j)])
          <$> _event_bus s.
Proof.
  intros Hj e'.
  assert (job < length (st_jobs s)) as Hlen by by eapply lookup_lt_Some.
  unfold e', reported_error.
  destruct s as [fs cfg store bus jobs parts ijobs queue unfinished lock stop
                  dch ich dq cache next].
  simpl in *.
  unfold _set_error, _signal_job_errored, update_job, get_job, emit, modify,
    gets, mbind, M_bind, mret, M_ret, job_parts.
  simpl. rewrite Hj. simpl.
  destruct (existsb is_html _); simpl; rewrite Hj; simpl;
    rewrite list_lookup_insert_eq by done; simpl;
    destruct bus; simpl; eexists; (split; [reflexivity|]); done.
Qed.

Lemma finish_job_result job tmp n q s :
  worker_inv job tmp (S n) q s →
  (∀ d, tmp = Some d → parts d ≠ []) →
  ∃ s',
    finish_job job s = Ok tt s'
    ∧ (∀ d, tmp = Some d → FS.exists_ (st_fs s') d = false)
    ∧ _install_completed_event s' = true
    ∧ st_unfinished_tasks s' = n
    ∧ _install_queue s' = q
    ∧ st_jobs s' = st_jobs s
    ∧ _event_bus s' = _event_bus s.
Proof.
  intros ((j & Hj & Ht) & Hd & Hn & Hq) Hroot.
  unfold finish_job. rewrite bind_unfold. unfold get_job. rewrite Hj.
  rewrite bind_unfold, Ht.
  destruct tmp as [d|].
  - specialize (Hd d eq_refl). specialize (Hroot d eq_refl).
    unfold fs_call, FS.rmtree. unfold FS.is_dir in Hd.
    destruct (FS.lookup (st_fs s) (parts d)) as [[|l]|] eqn:E; try done.
    destruct (remove_exists (parts d) (st_fs s) (Dir l) Hroot E) as [fs' Hrm].
    rewrite Hrm.
    destruct s as [fs cfg store bus jobs parts ijobs queue unfinished lock stop
                    dch ich dq cache next].
    simpl in *. subst unfinished queue.
    eexists. split; [reflexivity|]. simpl. repeat split; try done.
    intros d' [= <-]. unfold FS.exists_. apply bool_decide_eq_false_2.
    rewrite (lookup_remove_eq _ _ _ Hrm). by intros [? ?].
  - destruct s as [fs cfg store bus jobs parts ijobs queue unfinished lock stop
                    dch ich dq cache next].
    simpl in *. subst unfinished queue.
    eexists. split; [reflexivity|]. by simpl.
Qed.

(** C2 (as amended): for a job taken from the install queue whose
    scratch directory, when set, is a directory on disk, the iteration of
    the worker loop ends normally and the loop continues; the scratch
    directory is gone afterwards, the install-completed latch is set and
    one queue item is marked done. When processing the job raises, the
    job ends in [ERROR] with the message and the class of the exception
    recorded (those of [InvalidModelConfigException] when a part was
    answered with an HTML page), and the error notification is emitted
    when an event bus is configured. *)
Theorem install_next_item_step_spec (H : Host) (job : nat) (q : list nat)
    (j : Job.t) (s : State) :
  _stop_event s = false →
  _install_queue s = job :: q →
  st_jobs s !! job = Some j →
  0 < st_unfinished_tasks s →
  (∀ d, Job._install_tmpdir j = Some d →
        FS.is_dir (st_fs s) d = true ∧ parts d ≠ []) →
  ∃ s',
    _install_next_item_step H s = Ok Continue s'
    ∧ _install_queue s' = q
    ∧ (∀ d, Job._install_tmpdir j = Some d → FS.exists_ (st_fs s') d = false)
    ∧ _install_completed_event s' = true
    ∧ S (st_unfinished_tasks s') = st_unfinished_tasks s
    ∧ (∀ e s1,
         process_job H job (set__install_queue q s) = Raise e s1 →
         ∃ j1, st_jobs s1 !! job = Some j1
               ∧ let e' := reported_error s1 j1 e in
                 st_jobs s' !! job = Some (job_set_error e' j1)
                 ∧ Job.status (job_set_error e' j1) = ERROR
                 ∧ Job.error (job_set_error e' j1) = Some (exn_message e')
                 ∧ Job.error_type (job_set_error e' j1) = Some (exn_class e')
                 ∧ _event_bus s'
                   = (λ log, log ++ [emit_model_install_error
                                       (str_source H (Job.source j1))
                                       (exn_class e') (exn_message e')
                                       (Job.id j1)])
                       <$> _event_bus s1).
Proof.
  intros Hstop Hq Hj Hn Htmp.
  destruct (st_unfinished_tasks s) as [|n] eqn:En; [lia|].
  set (s0 := set__install_queue q s).
  set (tmp := Job._install_tmpdir j).
  assert (worker_inv job tmp (S n) q s0) as Hinv.
  { split; [exists j; by destruct s|]. split; [|by destruct s].
    intros d Hd. destruct (Htmp d Hd) as [Hdir _]. by destruct s. }
  assert (∀ d, tmp = Some d → parts d ≠ []) as Hroot.
  { intros d Hd. by destruct (Htmp d Hd). }
  unfold _install_next_item_step. rewrite bind_unfold. unfold gets at 1.
  rewrite Hstop. rewrite bind_unfold. unfold queue_get. rewrite Hq.
  fold s0. rewrite bind_unfold.
  unfold install_job_block, try_finally, try_except.
  destruct (worker_inv_keeps H job tmp (S n) q AssertionError) as [Hkp _].
  specialize (Hkp s0 Hinv).
  destruct (process_job H job s0) as [[] s1|e s1|s1] eqn:Eproc; [| |done].
  - destruct (finish_job_result job tmp n q s1 Hkp Hroot)
      as (s' & -> & Hgone & Hlatch & Hun & Hq' & Hjobs & Hbus).
    exists s'. rewrite Hun. by repeat split.
  - destruct (worker_inv_keeps H job tmp (S n) q e) as [_ Hks].
    specialize (Hks s1 Hkp).
    destruct Hkp as ((j1 & Hj1 & Ht1) & Hkp).
    destruct (set_error_result H job e s1 j1 Hj1) as (s2 & Hset & Hjobs2 & Hbus2).
    rewrite Hset in *.
    destruct (finish_job_result job tmp n q s2 Hks Hroot)
      as (s' & -> & Hgone & Hlatch & Hun & Hq' & Hjobs & Hbus).
    exists s'. rewrite Hun. repeat split; try done.
    intros e0 s3 [= <- <-]. exists j1. split; [done|].
    rewrite Hjobs, Hjobs2, Hbus, Hbus2.
    rewrite list_lookup_insert_eq by by eapply lookup_lt_Some.
    by repeat split.
Qed.

Lemma install_next_item_step_spec_witness :
  ∃ s',
    _install_next_item_step sample_host sample_state_downloaded
    = Ok Continue s'
    ∧ _install_queue s' = []
    ∧ FS.exists_ (st_fs s') sample_tmpdir = false
    ∧ _install_completed_event s' = true
    ∧ st_unfinished_tasks s' = 0.
Proof.
  destruct (install_next_item_step_spec sample_host 0 []
              (Job.mk 0 sample_repo ∅ None (Some (HuggingFaceMetadata "{}"))
                      (mkPath true ["invokeai"; "models"; "tmpinstall_k3j2x9";
                                    "b"])
                      (Some sample_tmpdir) false [0; 1; 2] 0 300
                      DOWNLOADS_DONE None None)
              sample_state_downloaded)
    as (s' & Hstep & Hq & Htmp & Hlatch & Hdone & _).
  - reflexivity.
  - reflexivity.
  - reflexivity.
  - apply le_n.
  - intros d [= <-]. split; [reflexivity | discriminate].
  - exists s'. split; [done|]. split; [done|].
    split; [by apply Htmp|]. split; [done|]. by injection Hdone.
Defined.

(** C2 as stated fails in two ways. A job can come back to the worker
    after its scratch directory has been removed (here [cancel_job] on an
    installed job puts it in the queue again): [rmtree] raises in the
    [finally] block, the exception leaves the loop and the queue item is
    not marked done. And without an event bus an error is recorded but no
    notification is emitted. *)
Lemma install_next_item_step_counterexample :
  (_install_queue sample_state_recancelled = [0]
   ∧ Job._install_tmpdir <$> st_jobs sample_state_recancelled !! 0
     = Some (Some sample_tmpdir)
   ∧ ∃ s', _install_next_item_step sample_host sample_state_recancelled
           = Raise FileNotFoundError s'
           ∧ st_unfinished_tasks s' = 1
           ∧ _install_next_item sample_host 3 sample_state_recancelled
             = Raise FileNotFoundError s')
  ∧ (_install_queue sample_state_silent = [0]
     ∧ ∃ s', _install_next_item_step sample_host sample_state_silent
             = Ok Continue s'
             ∧ Job.status <$> st_jobs s' !! 0 = Some ERROR
             ∧ Job.error_type <$> st_jobs s' !! 0
               = Some (Some "DuplicateModelException")
             ∧ _event_bus s' = None).
Proof.
  split.
  - split; [reflexivity|]. split; [reflexivity|].
    eexists. split; [vm_compute; reflexivity|]. split; [reflexivity|].
    vm_compute. reflexivity.
  - split; [reflexivity|].
    eexists. split; [vm_compute; reflexivity|]. repeat split; reflexivity.
Qed.

(** ** Collision-safe move *)

Lemma unique_path_first fs p :
  valid_name (PurePath.name p) →
  FS.exists_ fs p = true →
  ∀ fuel k n,
    (∀ j, n ≤ j < k → FS.exists_ fs (candidate p j) = true) →
    FS.exists_ fs (candidate p k) = false →
    n ≤ k → k - n < fuel →
    unique_path fuel fs p n = Some (inr (candidate p k)).
Proof.
  intros Hv Hex. induction fuel as [|fuel IH]; intros k n Hbelow Hk Hle Hfuel.
  { lia. }
  simpl. rewrite Hex. simpl. rewrite with_stem_candidate by done.
  destruct (decide (n = k)) as [->|Hne].
  - rewrite Hk. simpl. destruct fuel; simpl; rewrite Hk; done.
  - rewrite Hbelow by lia. simpl. apply IH; auto with lia.
Qed.

(** C6: [_move_model] returns the source untouched when source and
    destination are equal. When the destination exists, the candidates
    [<stem>_<NN><suffix>] are tried for NN = 01, 02, ... (two digits,
    padded with zeros) and the source is moved to the first candidate that
    does not exist, once the loop has had at least as many iterations as
    the rank of that candidate; the candidate keeps the suffix and the
    directory of the destination. *)
Theorem move_model_collision_safe (fuel : nat) (old_path new_path : Path)
    (s : State) (k : nat) :
  old_path ≠ new_path →
  valid_name (PurePath.name new_path) →
  FS.exists_ (st_fs s) new_path = true →
  1 ≤ k →
  (∀ j, 1 ≤ j < k → FS.exists_ (st_fs s) (candidate new_path j) = true) →
  FS.exists_ (st_fs s) (candidate new_path k) = false →
  k ≤ fuel →
  _move_model fuel old_path old_path s = Some (Ok old_path s)
  ∧ _move_model fuel old_path new_path s
    = Some (match FS.move (st_fs s) old_path (candidate new_path k) with
            | inr fs' => Ok (candidate new_path k) (set_st_fs fs' s)
            | inl e => Raise e s
            end)
  ∧ PurePath.name (candidate new_path k)
    = PurePath.stem new_path +:+ "_" +:+ Str.fmt02d k +:+ PurePath.suffix new_path
  ∧ PurePath.stem new_path +:+ PurePath.suffix new_path = PurePath.name new_path
  ∧ PurePath.parent (candidate new_path k) = PurePath.parent new_path.
Proof.
  intros Hne Hv Hex Hk Hbelow Hfree Hfuel. repeat split.
  - unfold _move_model. by rewrite bool_decide_eq_true_2.
  - unfold _move_model. rewrite bool_decide_eq_false_2 by done.
    destruct (exists_lookup _ _ Hex) as [n Hn].
    destruct (lookup_parent _ _ _ (valid_name_parts _ Hv) Hn) as [l Hl].
    unfold fs_call at 1, FS.mkdir_parents. simpl.
    rewrite (mkdirs_existing _ _ _ Hl).
    assert (set_st_fs (st_fs s) s = s) as -> by by destruct s.
    rewrite (unique_path_first _ _ Hv Hex fuel k 1) by (done || lia).
    unfold fs_call, mbind, M_bind, mret, M_ret. by destruct (FS.move _ _ _).
  - unfold candidate, PurePath.name. simpl. by rewrite List.last_last.
  - apply stem_suffix.
  - unfold candidate, PurePath.parent. simpl. by rewrite removelast_last.
Qed.

Lemma move_model_collision_safe_witness :
  let old_path := mkPath true ["downloads"; "b"; "x.safetensors"] in
  let s := sample_state_moved in
  (old_path ≠ sample_dest
   ∧ valid_name (PurePath.name sample_dest)
   ∧ FS.exists_ (st_fs s) sample_dest = true
   ∧ (∀ j, 1 ≤ j < 2 → FS.exists_ (st_fs s) (candidate sample_dest j) = true)
   ∧ FS.exists_ (st_fs s) (candidate sample_dest 2) = false)
  ∧ _move_model 2 old_path sample_dest s
    = Some (match FS.move (st_fs s) old_path (candidate sample_dest 2) with
            | inr fs' => Ok (candidate sample_dest 2) (set_st_fs fs' s)
            | inl e => Raise e s
            end).
Proof.
  intros old_path s.
  assert (old_path ≠ sample_dest) as H1 by discriminate.
  assert (valid_name (PurePath.name sample_dest)) as H2
    by (repeat split; discriminate).
  assert (FS.exists_ (st_fs s) sample_dest = true) as H3 by reflexivity.
  assert (∀ j, 1 ≤ j < 2 →
               FS.exists_ (st_fs s) (candidate sample_dest j) = true) as H4.
  { intros j Hj. assert (j = 1) as -> by lia. reflexivity. }
  assert (FS.exists_ (st_fs s) (candidate sample_dest 2) = false) as H5
    by reflexivity.
  split; [done|].
  apply (move_model_collision_safe 2 old_path sample_dest s 2
           H1 H2 H3 (le_S _ _ (le_n 1)) H4 H5 (le_n 2)).
Defined.

(** The example of the specification: a second [x.safetensors] becomes
    [x_01.safetensors], a third one [x_02.safetensors]. *)
Example move_model_three :
  let dir := ["invokeai"; "models"; "sdxl"; "main"] in
  _move_model 1 (mkPath true ["downloads"; "a"; "x.safetensors"])
              sample_dest sample_state
  = Some (Ok (mkPath true (dir ++ ["x_01.safetensors"])) sample_state_moved)
  ∧ ∃ s2,
      _move_model 2 (mkPath true ["downloads"; "b"; "x.safetensors"])
                  sample_dest sample_state_moved
      = Some (Ok (mkPath true (dir ++ ["x_02.safetensors"])) s2)
      ∧ FS.lookup (st_fs s2) (dir ++ ["x.safetensors"]) = Some (File "installed")
      ∧ FS.lookup (st_fs s2) (dir ++ ["x_01.safetensors"]) = Some (File "a")
      ∧ FS.lookup (st_fs s2) (dir ++ ["x_02.safetensors"]) = Some (File "b")
      ∧ FS.lookup (st_fs s2) ["downloads"; "b"; "x.safetensors"] = None.
Proof.
  split; [vm_compute; reflexivity|].
  eexists. split; [vm_compute; reflexivity|]. vm_compute. done.
Qed.

(** ** Relative paths in the records *)

(** C7: the record that [_register] persists carries the path of the
    model relative to the models root exactly when the resolved path lies
    under that root ([root / stored] is then the resolved path), and the
    resolved absolute path itself otherwise. *)
Theorem register_stores_relative_path (H : Host) (model_path : Path)
    (config : gmap string string) (info : option ModelConfig.t)
    (info0 : ModelConfig.t) (s : State) :
  let root := AppConfig.models_path (_app_config s) in
  let resolved := PurePath.resolve model_path in
  match info with
  | Some i => inr i
  | None => probe H (st_fs s) model_path config
                  (AppConfig.hashing_algorithm (_app_config s))
  end = inr info0 →
  _record_store s !! ModelConfig.key info0 = None →
  ∃ stored record,
    _register H model_path config info s
    = Ok (ModelConfig.key info0)
         (set__record_store
            (<[ModelConfig.key info0 := record]> (_record_store s)) s)
    ∧ ModelConfig.key record = ModelConfig.key info0
    ∧ ModelConfig.path record = PurePath.as_posix stored
    ∧ (anchored stored = false
       ↔ PurePath.is_relative_to resolved root = true)
    ∧ (PurePath.is_relative_to resolved root = true →
       PurePath.join root stored = resolved)
    ∧ (PurePath.is_relative_to resolved root = false → stored = resolved).
Proof.
  intros root resolved Hinfo Hfresh.
  exists (stored_path resolved root).
  assert (anchored resolved = true) as Ha by done.
  destruct (stored_path_spec resolved root Ha) as (H1 & H2 & H3).
  unfold _register, mbind, M_bind, gets. simpl.
  assert (match info with
          | Some i => mret i
          | None => of_sum (probe H (st_fs s) model_path config
                      (AppConfig.hashing_algorithm (_app_config s)))
          end s = Ok info0 s) as ->.
  { destruct info; simpl in *; [by simplify_eq|]. by rewrite Hinfo. }
  fold resolved. fold root. rewrite relativize_eq. simpl.
  destruct (ModelConfig.config_path info0) as [cp|] eqn:Ecp.
  - rewrite relativize_eq. unfold mret, M_ret, add_model. simpl.
    rewrite Hfresh. eexists. split; [reflexivity|]. done.
  - unfold mret, M_ret, add_model. simpl.
    rewrite Hfresh. eexists. split; [reflexivity|]. done.
Qed.

Lemma register_stores_relative_path_witness :
  let model_path := mkPath true ["invokeai"; "models"; "sdxl"; "main"; "foo"] in
  let info0 := ModelConfig.mk "key-foo" "sdxl" "main" "foo" "" None in
  (probe sample_host (st_fs sample_state) model_path ∅ "blake3" = inr info0
   ∧ _record_store sample_state !! ModelConfig.key info0 = None)
  ∧ ∃ stored record,
      _register sample_host model_path ∅ None sample_state
      = Ok "key-foo"
           (set__record_store
              (<["key-foo" := record]> (_record_store sample_state))
              sample_state)
      ∧ ModelConfig.key record = "key-foo"
      ∧ ModelConfig.path record = PurePath.as_posix stored
      ∧ (anchored stored = false
         ↔ PurePath.is_relative_to (PurePath.resolve model_path)
             (AppConfig.models_path sample_config) = true)
      ∧ (PurePath.is_relative_to (PurePath.resolve model_path)
           (AppConfig.models_path sample_config) = true →
         PurePath.join (AppConfig.models_path sample_config) stored
         = PurePath.resolve model_path)
      ∧ (PurePath.is_relative_to (PurePath.resolve model_path)
           (AppConfig.models_path sample_config) = false →
         stored = PurePath.resolve model_path).
Proof.
  intros model_path info0.
  assert (probe sample_host (st_fs sample_state) model_path ∅ "blake3"
          = inr info0) as H1 by reflexivity.
  assert (_record_store sample_state !! ModelConfig.key info0 = None) as H2
    by reflexivity.
  split; [done|].
  apply (register_stores_relative_path sample_host model_path ∅ None info0
           sample_state H1 H2).
Defined.

(** The examples of the specification: a model under the models root is
    recorded as [sdxl/main/foo], a model elsewhere by its absolute path. *)
Example register_paths_recorded :
  (∃ s', register_path sample_host
           (mkPath true ["invokeai"; "models"; "sdxl"; "main"; "foo"]) ∅
           sample_state = Ok "key-foo" s'
         ∧ ModelConfig.path <$> _record_store s' !! "key-foo"
           = Some "sdxl/main/foo")
  ∧ (∃ s', register_path sample_host (mkPath true ["downloads"; "foo"]) ∅
             sample_state = Ok "key-foo" s'
           ∧ ModelConfig.path <$> _record_store s' !! "key-foo"
             = Some "/downloads/foo")
  ∧ (∃ s', install_path sample_host (mkPath true ["downloads"; "a"]) ∅
             sample_state = Ok "key-a" s'
           ∧ ModelConfig.path <$> _record_store s' !! "key-a"
             = Some "sdxl/main/a").
Proof.
  repeat split; eexists; (split; [vm_compute; reflexivity|]);
    vm_compute; reflexivity.
Qed.

(** ** The status of a job *)

Lemma download_started_sets_downloading (download_job : nat)
    (d : DownloadJob.t) (install_job : nat) (j : Job.t) (s : State) :
  _lock s = false →
  st_parts s !! download_job = Some d →
  _download_cache s !! DownloadJob.source d = Some install_job →
  st_jobs s !! install_job = Some j →
  Job.status
    <$> st_jobs (final_state (_download_started_callback download_job s))
          !! install_job
  = Some DOWNLOADING.
Proof.
  intros Hlock Hd Hc Hj.
  assert (install_job < length (st_jobs s)) as Hlen by by eapply lookup_lt_Some.
  destruct s as [fs cfg store bus jobs dparts ijobs queue unfinished lock stop
                  dch ich dq cache next].
  simpl in *. subst lock.
  unfold _download_started_callback, with_lock, update_job, get_job, get_part,
    cache_lookup, modify, gets, mbind, M_bind, mret, M_ret, of_sum, raise.
  simpl. rewrite Hd. simpl. rewrite Hc. simpl. rewrite Hj. simpl.
  destruct (DownloadJob.download_path d) as [p|]; simpl;
    [|by rewrite list_lookup_insert_eq].
  rewrite list_lookup_insert_eq by done. simpl.
  destruct (Job._install_tmpdir j) as [tmp|]; simpl.
  - case_bool_decide; simpl.
    + destruct (PurePath.relative_to p tmp) as [|rel]; simpl;
        [by rewrite list_lookup_insert_eq|].
      destruct (parts rel); simpl;
        [by rewrite list_lookup_insert_eq|].
      rewrite list_lookup_insert_eq by done. simpl.
      rewrite list_lookup_insert_eq by (by rewrite length_insert). simpl.
      case_bool_decide; simpl.
      * rewrite list_lookup_insert_eq by (by rewrite length_insert). simpl.
        rewrite list_lookup_insert_eq by (by rewrite !length_insert). done.
      * rewrite list_lookup_insert_eq by (by rewrite length_insert). done.
    + rewrite list_lookup_insert_eq by done. simpl.
      case_bool_decide; simpl.
      * rewrite list_lookup_insert_eq by done. simpl.
        rewrite list_lookup_insert_eq by (by rewrite !length_insert). done.
      * rewrite list_lookup_insert_eq by done. done.
  - rewrite list_lookup_insert_eq by done. simpl.
    case_bool_decide; simpl.
    + rewrite list_lookup_insert_eq by done. simpl.
      rewrite list_lookup_insert_eq by (by rewrite !length_insert). done.
    + rewrite list_lookup_insert_eq by done. done.
Qed.

(** C3, at a failing input: a part of the repository job has failed and
    the job is in the terminal state [ERROR]; another part of the job then
    starts, and [_download_started_callback] sets the job back to
    [DOWNLOADING]. *)
Theorem download_started_leaves_terminal_state :
  Job.status <$> st_jobs sample_state_errored !! 0 = Some ERROR
  ∧ Job.in_terminal_state <$> st_jobs sample_state_errored !! 0 = Some true
  ∧ ∃ s',
      part_starts 2 (mkPath true ["invokeai"; "models"; "tmpinstall_k3j2x9";
                                  "b"; "vae"; "model.safetensors"]) 100
                  sample_state_errored
      = Ok tt s'
      ∧ Job.status <$> st_jobs s' !! 0 = Some DOWNLOADING.
Proof.
  split; [reflexivity|]. split; [reflexivity|].
  eexists. split; [vm_compute; reflexivity|]. reflexivity.
Qed.

(** ** The download-complete callback *)

Lemma job_parts_frame s s' j :
  st_parts s' = st_parts s → job_parts s' j = job_parts s j.
Proof. unfold job_parts. by intros ->. Qed.

Lemma download_complete_promotes (H : Host) (download_job : nat)
    (d : DownloadJob.t) (install_job : nat) (j : Job.t) (s : State) :
  _lock s = false →
  _stop_event s = false →
  st_parts s !! download_job = Some d →
  _download_cache s !! DownloadJob.source d = Some install_job →
  st_jobs s !! install_job = Some j →
  let fire := downloads_finished s j in
  let ev := emit_model_install_downloads_done (str_source H (Job.source j)) in
  ∃ s',
    _download_complete_callback H download_job s = Ok tt s'
    ∧ _download_cache s' = delete (DownloadJob.source d) (_download_cache s)
    ∧ _install_queue s'
      = _install_queue s ++ (if fire then [install_job] else [])
    ∧ _event_bus s'
      = (λ log, log ++ (if fire then [ev] else [])) <$> _event_bus s
    ∧ st_jobs s'
      = (if fire
         then <[install_job := Job.set_status DOWNLOADS_DONE j]> (st_jobs s)
         else st_jobs s)
    ∧ st_parts s' = st_parts s
    ∧ _lock s' = false
    ∧ _stop_event s' = false
    ∧ _downloads_changed_event s' = true.
Proof.
  intros Hlock Hstop Hpart Hcache Hjob fire ev.
  assert (install_job < length (st_jobs s)) as Hlen by by eapply lookup_lt_Some.
  destruct s as [fs cfg store bus jobs parts ijobs queue unfinished lock stop
                  dch ich dq cache next].
  simpl in *. subst lock stop.
  unfold fire, downloads_finished, job_parts.
  unfold _download_complete_callback, with_lock, _signal_job_downloads_done,
    _put_in_queue, _put_in_queue_, update_job, get_job, get_part, cache_lookup,
    cache_pop, emit, modify, gets, queue_put, mbind, M_bind, mret, M_ret,
    job_parts.
  simpl. rewrite Hpart. simpl. rewrite Hcache. simpl. rewrite Hjob. simpl.
  destruct (Job.downloading j && forallb DownloadJob.complete _) eqn:Efire.
  - simpl. rewrite Hjob. simpl. rewrite list_lookup_insert_eq by done. simpl.
    destruct bus as [log|]; simpl; eexists; (split; [reflexivity|]); simpl;
      by rewrite ?app_nil_r.
  - simpl. eexists. split; [reflexivity|]. simpl.
    repeat split; try done; rewrite ?app_nil_r; try done.
    destruct bus; simpl; by rewrite ?app_nil_r.
Qed.

Lemma forallb_complete_true (parts : list DownloadJob.t) ps :
  (∀ r, r ∈ ps → ∃ d, parts !! r = Some d ∧ DownloadJob.complete d = true) →
  forallb DownloadJob.complete (omap (λ r, parts !! r) ps) = true.
Proof.
  induction ps as [|r ps IH]; intros Hall; [done|]. simpl.
  destruct (Hall r) as (d & -> & Hd); [left|]. simpl. rewrite Hd. simpl.
  apply IH. intros r' Hr'. apply Hall. by right.
Qed.

Lemma forallb_complete_false (parts : list DownloadJob.t) ps r d :
  r ∈ ps → parts !! r = Some d → DownloadJob.complete d = false →
  forallb DownloadJob.complete (omap (λ r, parts !! r) ps) = false.
Proof.
  intros Hin Hr Hd. induction ps as [|r' ps IH]; [by apply elem_of_nil in Hin|].
  simpl. apply elem_of_cons in Hin as [<- | Hin].
  - rewrite Hr. simpl. by rewrite Hd.
  - destruct (parts !! r') as [d'|]; [|by apply IH]. simpl.
    apply andb_false_iff. right. by apply IH.
Qed.

Lemma fmap_app_nil (bus : option (list Event)) :
  (λ log : list Event, log ++ []) <$> bus = bus.
Proof. destruct bus; simpl; by rewrite ?app_nil_r. Qed.

Lemma part_completes_not_last (H : Host) job ps r rem s :
  downloading_inv job ps (r :: rem) s →
  r ∈ ps → r ∉ rem → rem ≠ [] → (∀ r', r' ∈ rem → r' ∈ ps) →
  ∃ s1, part_completes H r s = Ok tt s1
        ∧ _event_bus s1 = _event_bus s
        ∧ _install_queue s1 = _install_queue s
        ∧ st_jobs s1 = st_jobs s
        ∧ downloading_inv job ps rem s1.
Proof.
  intros (Hlock & Hstop & (j & Hj & Hst & Hps) & Hparts & Hdistinct)
         Hr Hnotin Hne Hsub.
  destruct (Hparts r Hr) as (d & Hd & Hrun & _).
  destruct Hrun as [Hdc Hcache]; [left|].
  unfold part_completes, set_part. rewrite bind_unfold. simpl.
  set (s0 := set_st_parts (alter mark_complete r (st_parts s)) s).
  assert (st_parts s0 !! r = Some (mark_complete d)) as Hd0.
  { unfold s0. destruct s; simpl in *. by rewrite list_lookup_alter_eq, Hd. }
  assert (∀ r', r' ≠ r → st_parts s0 !! r' = st_parts s !! r') as Hother.
  { intros r' Hne'. unfold s0. destruct s; simpl.
    by rewrite list_lookup_alter_ne. }
  destruct (download_complete_promotes H r (mark_complete d) job j s0)
    as (s1 & Hrun1 & Hc1 & Hq1 & Hb1 & Hj1 & Hp1 & Hl1 & Hs1 & _);
    try (by destruct s).
  assert (downloads_finished s0 j = false) as Hfire.
  { unfold downloads_finished. apply andb_false_iff. right.
    destruct rem as [|r' rem]; [done|].
    assert (r' ≠ r) as Hr' by (intros ->; apply Hnotin; left).
    destruct (Hparts r') as (d' & Hd' & Hrun' & _); [apply Hsub; left|].
    destruct Hrun' as [Hdc' _]; [right; left|].
    unfold job_parts. rewrite Hps.
    apply (forallb_complete_false _ _ r' d'); [apply Hsub; left| |done].
    by rewrite Hother. }
  rewrite Hfire in *. rewrite fmap_app_nil in Hb1. rewrite app_nil_r in Hq1.
  exists s1. split; [exact Hrun1|].
  split; [by destruct s|]. split; [by destruct s|].
  split; [by destruct s|].
  split; [done|]. split; [done|].
  split. { exists j. rewrite Hj1. by destruct s. }
  split.
  - intros r' Hr'. destruct (decide (r' = r)) as [->|Hne'].
    + exists (mark_complete d). rewrite Hp1. split; [done|].
      split; [by intros ?|done].
    + destruct (Hparts r' Hr') as (d' & Hd' & Hrun' & Hdone').
      exists d'. rewrite Hp1, Hother by done. split; [done|]. split.
      * intros Hin'. destruct Hrun' as [Hdc' Hcache']; [by right|].
        split; [done|]. rewrite Hc1.
        assert (_download_cache s0 = _download_cache s) as -> by by destruct s.
        rewrite lookup_delete_ne; [done|].
        intros Heq. apply Hne'. symmetry.
        apply (Hdistinct r r' d d'); [left|by right|done..].
      * intros Hnin'. apply Hdone'. intros [->|?]%elem_of_cons; done.
  - intros r1 r2 d1 d2 H1 H2. rewrite Hp1.
    assert (r1 ≠ r) by (intros ->; done).
    assert (r2 ≠ r) by (intros ->; done).
    rewrite !Hother by done. intros. apply (Hdistinct r1 r2 d1 d2); try done;
      by right.
Qed.

Lemma part_completes_last (H : Host) job ps r s :
  downloading_inv job ps [r] s → r ∈ ps →
  ∃ s2 j, part_completes H r s = Ok tt s2
          ∧ st_jobs s !! job = Some j
          ∧ _event_bus s2
            = (λ log, log ++ [emit_model_install_downloads_done
                                (str_source H (Job.source j))])
                <$> _event_bus s
          ∧ _install_queue s2 = _install_queue s ++ [job]
          ∧ Job.status <$> st_jobs s2 !! job = Some DOWNLOADS_DONE.
Proof.
  intros (Hlock & Hstop & (j & Hj & Hst & Hps) & Hparts & Hdistinct) Hr.
  destruct (Hparts r Hr) as (d & Hd & Hrun & _).
  destruct Hrun as [Hdc Hcache]; [left|].
  unfold part_completes, set_part. rewrite bind_unfold. simpl.
  set (s0 := set_st_parts (alter mark_complete r (st_parts s)) s).
  assert (st_parts s0 !! r = Some (mark_complete d)) as Hd0.
  { unfold s0. destruct s; simpl in *. by rewrite list_lookup_alter_eq, Hd. }
  assert (∀ r', r' ≠ r → st_parts s0 !! r' = st_parts s !! r') as Hother.
  { intros r' Hne'. unfold s0. destruct s; simpl.
    by rewrite list_lookup_alter_ne. }
  destruct (download_complete_promotes H r (mark_complete d) job j s0)
    as (s2 & Hrun2 & Hc2 & Hq2 & Hb2 & Hj2 & Hp2 & Hl2 & Hs2 & _);
    try (by destruct s).
  assert (downloads_finished s0 j = true) as Hfire.
  { unfold downloads_finished, Job.downloading. rewrite Hst.
    rewrite bool_decide_eq_true_2 by done. simpl.
    unfold job_parts. rewrite Hps. apply forallb_complete_true.
    intros r' Hr'. destruct (decide (r' = r)) as [->|Hne'].
    - by exists (mark_complete d).
    - destruct (Hparts r' Hr') as (d' & Hd' & _ & Hdone').
      exists d'. rewrite Hother by done. split; [done|].
      apply Hdone'. by intros ->%list_elem_of_singleton. }
  rewrite Hfire in *.
  exists s2, j. split; [exact Hrun2|]. split; [done|].
  split; [by destruct s|]. split; [by destruct s|].
  rewrite Hj2.
  assert (st_jobs s0 = st_jobs s) as -> by by destruct s.
  rewrite list_lookup_insert_eq; [done|]. by eapply lookup_lt_Some.
Qed.

Lemma parts_complete_in_turn (H : Host) job ps pre : ∀ last s,
  downloading_inv job ps (pre ++ [last]) s →
  NoDup (pre ++ [last]) →
  (∀ r, r ∈ pre ++ [last] → r ∈ ps) →
  ∃ s1 s2 j,
    for_each pre (part_completes H) s = Ok tt s1
    ∧ _event_bus s1 = _event_bus s
    ∧ _install_queue s1 = _install_queue s
    ∧ part_completes H last s1 = Ok tt s2
    ∧ st_jobs s !! job = Some j
    ∧ _event_bus s2
      = (λ log, log ++ [emit_model_install_downloads_done
                          (str_source H (Job.source j))])
          <$> _event_bus s
    ∧ _install_queue s2 = _install_queue s ++ [job]
    ∧ Job.status <$> st_jobs s2 !! job = Some DOWNLOADS_DONE.
Proof.
  induction pre as [|r pre IH]; intros last s Hinv Hnd Hsub.
  - destruct (part_completes_last H job ps last s Hinv) as (s2 & j & ?);
      [apply Hsub; left|].
    exists s, s2, j. destruct_and!. by repeat split.
  - simpl in *. apply NoDup_cons in Hnd as [Hnotin Hnd].
    destruct (part_completes_not_last H job ps r (pre ++ [last]) s)
      as (s1 & Hrun1 & Hb1 & Hq1 & Hjobs1 & Hinv1); try done.
    { apply Hsub. left. }
    { by destruct pre. }
    { intros r' Hr'. apply Hsub. by right. }
    destruct (IH last s1 Hinv1 Hnd) as (s1' & s2 & j & Hrun & Hb & Hq & Hlast
                                       & Hj & Hb2 & Hq2 & Hst).
    { intros r' Hr'. apply Hsub. by right. }
    rewrite Hjobs1 in Hj.
    exists s1', s2, j. rewrite bind_unfold, Hrun1.
    rewrite Hb, Hq, Hb2, Hq2, Hb1, Hq1. done.
Qed.

(** C8 (as amended): while the stop event is not set, the
    download-complete callback removes the URL of the part from the
    download cache; it sets the job to [DOWNLOADS_DONE], emits the
    downloads-done notification (when an event bus is configured) and
    puts the job in the install queue exactly when the job is
    [DOWNLOADING] and all its parts are complete, and changes neither the
    job nor the queue nor the events otherwise. Hence, when the running
    parts of a downloading job complete one after the other, nothing is
    emitted or queued before the last one, and the last one emits the
    notification and queues the job, once. *)
Theorem download_complete_callback_spec (H : Host) :
  (∀ download_job d install_job j s,
     _lock s = false →
     _stop_event s = false →
     st_parts s !! download_job = Some d →
     _download_cache s !! DownloadJob.source d = Some install_job →
     st_jobs s !! install_job = Some j →
     let fire := downloads_finished s j in
     let ev := emit_model_install_downloads_done
                 (str_source H (Job.source j)) in
     ∃ s',
       _download_complete_callback H download_job s = Ok tt s'
       ∧ _download_cache s' = delete (DownloadJob.source d) (_download_cache s)
       ∧ _install_queue s'
         = _install_queue s ++ (if fire then [install_job] else [])
       ∧ _event_bus s'
         = (λ log, log ++ (if fire then [ev] else [])) <$> _event_bus s
       ∧ st_jobs s'
         = (if fire
            then <[install_job := Job.set_status DOWNLOADS_DONE j]> (st_jobs s)
            else st_jobs s))
  ∧ (∀ job ps pre last s,
       downloading_inv job ps (pre ++ [last]) s →
       NoDup (pre ++ [last]) →
       (∀ r, r ∈ pre ++ [last] → r ∈ ps) →
       ∃ s1 s2 j,
         for_each pre (part_completes H) s = Ok tt s1
         ∧ _event_bus s1 = _event_bus s
         ∧ _install_queue s1 = _install_queue s
         ∧ part_completes H last s1 = Ok tt s2
         ∧ st_jobs s !! job = Some j
         ∧ _event_bus s2
           = (λ log, log ++ [emit_model_install_downloads_done
                               (str_source H (Job.source j))])
               <$> _event_bus s
         ∧ _install_queue s2 = _install_queue s ++ [job]
         ∧ Job.status <$> st_jobs s2 !! job = Some DOWNLOADS_DONE).
Proof.
  split.
  - intros download_job d install_job j s Hlock Hstop Hd Hc Hj fire ev.
    destruct (download_complete_promotes H download_job d install_job j s)
      as (s' & ? & ? & ? & ? & ? & _); try done.
    by exists s'.
  - intros job ps pre last s. apply parts_complete_in_turn.
Qed.

Lemma sample_downloading_inv :
  downloading_inv 0 [0; 1; 2] [2; 0; 1] sample_state_downloading.
Proof.
  split; [reflexivity|]. split; [reflexivity|].
  split; [eexists; repeat split; reflexivity|]. split.
  - intros r Hr.
    repeat (apply elem_of_cons in Hr as [-> | Hr]);
      [..|by apply elem_of_nil in Hr];
      (eexists; split; [reflexivity|]; split;
       [intros _; split; reflexivity
       |intros Hn; exfalso; apply Hn; repeat constructor]).
  - intros r1 r2 d1 d2 H1 H2.
    repeat (apply elem_of_cons in H1 as [-> | H1]);
      [..|by apply elem_of_nil in H1];
      (repeat (apply elem_of_cons in H2 as [-> | H2]);
       [..|by apply elem_of_nil in H2]);
      intros [= <-] [= <-] Hsrc; (reflexivity || discriminate Hsrc).
Defined.

Lemma download_complete_callback_spec_witness :
  ∃ s1 s2,
    for_each [2; 0] (part_completes sample_host) sample_state_downloading
    = Ok tt s1
    ∧ _event_bus s1 = Some []
    ∧ _install_queue s1 = []
    ∧ part_completes sample_host 1 s1 = Ok tt s2
    ∧ _event_bus s2 = Some [emit_model_install_downloads_done "a/b"]
    ∧ _install_queue s2 = [0]
    ∧ Job.status <$> st_jobs s2 !! 0 = Some DOWNLOADS_DONE.
Proof.
  destruct (download_complete_callback_spec sample_host) as [_ Hturn].
  destruct (Hturn 0 [0; 1; 2] [2; 0] 1 sample_state_downloading
              sample_downloading_inv)
    as (s1 & s2 & j & Hpre & Hb1 & Hq1 & Hlast & Hj & Hb2 & Hq2 & Hst).
  - apply (bool_decide_unpack (NoDup ([2; 0] ++ [1]))). exact I.
  - intros r Hr.
    repeat (apply elem_of_cons in Hr as [-> | Hr]);
      [repeat constructor..|by apply elem_of_nil in Hr].
  - exists s1, s2. injection Hj as <-. by repeat split.
Defined.

(** C8 as stated does not hold once the stop event is set: the callback
    for the last part hands the job to [cancel_job], which waits for the
    lock that the callback holds. The job is not put in the install queue
    and the URL stays in the download cache. *)
Lemma download_complete_callback_counterexample :
  let s := set__stop_event true
             (final_state
                (for_each [0; 1] (part_completes sample_host)
                          sample_state_downloading)) in
  let url := "https://huggingface.co/a/b/resolve/main/vae/model.safetensors" in
  (DownloadJob.source <$> st_parts s !! 2 = Some url
   ∧ _download_cache s !! url = Some 0
   ∧ Job.status <$> st_jobs s !! 0 = Some DOWNLOADING
   ∧ forallb DownloadJob.complete
       (omap (λ r, alter mark_complete 2 (st_parts s) !! r) [0; 1; 2]) = true)
  ∧ ∃ s', part_completes sample_host 2 s = Blocked s'
          ∧ _install_queue s' = []
          ∧ _download_cache s' !! url = Some 0.
Proof.
  intros s url. split; [repeat split; reflexivity|].
  eexists. split; [vm_compute; reflexivity|]. split; reflexivity.
Qed.

(** ** Callbacks for a URL that is not in the download cache *)

(** C10: called for a download job whose URL is not in the download
    cache, [_download_cancelled_callback] returns without changing
    anything: jobs, parts, queues, latches and events are as before and
    nothing is raised. [_download_error_callback] in the same situation
    fails its assertion. *)
Theorem download_cancelled_unknown_url (H : Host) (download_job : nat)
    (d : DownloadJob.t) (excp : option exn) (s : State) :
  _lock s = false →
  st_parts s !! download_job = Some d →
  _download_cache s !! DownloadJob.source d = None →
  _download_cancelled_callback H download_job s = Ok tt s
  ∧ _download_error_callback H download_job excp s = Raise AssertionError s.
Proof.
  intros Hlock Hpart Hcache.
  assert (delete (DownloadJob.source d) (_download_cache s) = _download_cache s)
    as Hdel by by apply delete_id.
  assert (set__download_cache (_download_cache s) (set__lock true s)
          = set__lock true s) as Hset by by destruct s.
  split.
  - unfold _download_cancelled_callback, with_lock. rewrite Hlock.
    rewrite bind_unfold. unfold get_part. simpl. rewrite Hpart.
    rewrite bind_unfold. unfold cache_pop. simpl. rewrite Hcache, Hdel, Hset.
    unfold mret, M_ret. by rewrite set_lock_release.
  - unfold _download_error_callback, with_lock. rewrite Hlock.
    rewrite bind_unfold. unfold get_part. simpl. rewrite Hpart.
    rewrite bind_unfold. unfold cache_pop. simpl. rewrite Hcache, Hdel, Hset.
    unfold raise. by rewrite set_lock_release.
Qed.

Lemma download_cancelled_unknown_url_witness :
  (_lock sample_state_stray_part = false
   ∧ st_parts sample_state_stray_part !! 0 = Some sample_part
   ∧ _download_cache sample_state_stray_part
       !! DownloadJob.source sample_part = None)
  ∧ _download_cancelled_callback sample_host 0 sample_state_stray_part
    = Ok tt sample_state_stray_part
  ∧ _download_error_callback sample_host 0 (Some OSError)
                             sample_state_stray_part
    = Raise AssertionError sample_state_stray_part.
Proof.
  split; [repeat split; reflexivity|].
  apply (download_cancelled_unknown_url sample_host 0 sample_part
           (Some OSError) sample_state_stray_part);
    reflexivity.
Defined.

(** ** Migration of the legacy configuration file *)

Lemma migrate_yaml_unfold (H : Host) s text y m :
  let file := legacy_yaml_file s in
  FS.read (st_fs s) file = inr text →
  yaml_safe_load H text = inr y →
  yaml_metadata y = Some m →
  _migrate_yaml H s
  = if bool_decide (m !! "version" ≠ Some "3.0.0") then
      Raise (ValueError
               ("Attempted migration of unsupported `models.yaml` v"
                +:+ default "None" (m !! "version")
                +:+ ". Only v3.0.0 is supported. Exiting.")) s
    else
      match (if migrates_entries s y
             then for_each (yaml_models y) (migrate_entry H)
             else mret tt) s with
      | Ok _ s1 =>
          match PurePath.with_suffix file ".yaml.bak" with
          | inl e => Raise e s1
          | inr target =>
              match FS.rename (st_fs s1) file target with
              | inr fs' => Ok tt (unset_legacy_path (set_st_fs fs' s1))
              | inl e => Raise e s1
              end
          end
      | Raise e s1 => Raise e s1
      | Blocked s1 => Blocked s1
      end.
Proof.
  intros file Hread Hyaml Hmeta.
  unfold _migrate_yaml. rewrite bind_unfold. unfold gets at 1.
  cbv beta iota zeta delta [id]. fold file.
  rewrite bind_unfold, (read_exists _ _ _ Hread).
  repeat first [rewrite bind_unfold | rewrite Hread | rewrite Hyaml
               | rewrite Hmeta | progress cbn [of_sum mret M_ret]].
  case_bool_decide; [done|].
  fold (migrates_entries s y).
  rewrite bind_unfold.
  destruct ((if migrates_entries s y
              then for_each (yaml_models y) (migrate_entry H)
              else mret tt) s) as [[] s1|e s1|s1];
    [|done..].
  rewrite bind_unfold.
  destruct (PurePath.with_suffix file ".yaml.bak") as [e|target]; [done|].
  cbn [of_sum mret M_ret]. unfold fs_call, modify, unset_legacy_path.
  by destruct (FS.rename (st_fs s1) file target).
Qed.

Lemma migrate_entries_frame (H : Host) s y :
  match (if migrates_entries s y
         then for_each (yaml_models y) (migrate_entry H)
         else mret tt) s with
  | Ok _ s1 | Raise _ s1 =>
      st_fs s1 = st_fs s ∧ _app_config s1 = _app_config s
      ∧ (migrates_entries s y = false → s1 = s)
  | Blocked _ => False
  end.
Proof.
  destruct (migrates_entries s y) eqn:E; [|done].
  pose proof (keeps_for_each
                (λ s1, st_fs s1 = st_fs s ∧ _app_config s1 = _app_config s)
                (yaml_models y) (migrate_entry H)) as Hk.
  assert (∀ e, keeps (λ s1, st_fs s1 = st_fs s ∧ _app_config s1 = _app_config s)
                      (migrate_entry H e)) as He.
  { intros e. apply keeps_migrate_entry. by intros st [] ?. }
  specialize (Hk He s (conj eq_refl eq_refl)).
  destruct (for_each _ _ s); [| |done]; destruct Hk; by repeat split.
Qed.

(** C9: when the legacy [models.yaml] exists, is read and parsed, and has
    a [__metadata__] entry: a version other than ["3.0.0"] makes
    [_migrate_yaml] fail with [ValueError] in an unchanged state (nothing
    registered, nothing renamed); with version ["3.0.0"] and a non-empty
    records store the records are left as they are; and whenever
    [_migrate_yaml] returns, the file has been renamed (it is found with
    its text under the name with suffix [.yaml.bak], [models.yaml.bak] for
    [models.yaml], in the same directory, and no longer under its own
    name), the configured path is unset, and, the file being the default
    one, a second [_migrate_yaml] does nothing. *)
Theorem migrate_yaml_spec (H : Host) (s : State) (text : string)
    (y : LegacyYaml) (m : gmap string string) :
  let file := legacy_yaml_file s in
  FS.read (st_fs s) file = inr text →
  yaml_safe_load H text = inr y →
  yaml_metadata y = Some m →
  (m !! "version" ≠ Some "3.0.0" →
   ∃ msg, _migrate_yaml H s = Raise (ValueError msg) s)
  ∧ (m !! "version" = Some "3.0.0" → all_models s ≠ [] →
     _record_store (final_state (_migrate_yaml H s)) = _record_store s)
  ∧ (∀ s', _migrate_yaml H s = Ok tt s' →
       m !! "version" = Some "3.0.0"
       ∧ (∃ target,
            PurePath.with_suffix file ".yaml.bak" = inr target
            ∧ FS.lookup (st_fs s') (parts target) = Some (File text)
            ∧ FS.lookup (st_fs s') (parts file) = None
            ∧ PurePath.parent target = PurePath.parent file
            ∧ (PurePath.name file = "models.yaml" →
               PurePath.name target = "models.yaml.bak"))
       ∧ AppConfig.legacy_models_yaml_path (_app_config s') = None
       ∧ (anchored (AppConfig.root_path (_app_config s)) = true →
          file = default_legacy_models_yaml_path
                   (AppConfig.set_legacy_models_yaml_path None (_app_config s)) →
          _migrate_yaml H s' = Ok tt s')).
Proof.
  intros file Hread Hyaml Hmeta.
  pose proof (migrate_yaml_unfold H s text y m Hread Hyaml Hmeta) as Hrun.
  fold file in Hrun.
  pose proof (migrate_entries_frame H s y) as Hframe.
  split; [|split].
  - intros Hv. rewrite Hrun, bool_decide_eq_true_2 by done. eauto.
  - intros Hv Hstore. rewrite Hrun, bool_decide_eq_false_2 by (by intros []).
    assert (migrates_entries s y = false) as E.
    { unfold migrates_entries. destruct (all_models s); [done|].
      by rewrite bool_decide_eq_false_2. }
    rewrite E in *. simpl in *.
    destruct (PurePath.with_suffix file ".yaml.bak") as [e|target]; [done|].
    by destruct (FS.rename (st_fs s) file target).
  - intros s' Hok. rewrite Hrun in Hok.
    case_bool_decide as Hv; [done|].
    assert (m !! "version" = Some "3.0.0") as Hv'.
    { destruct (decide (m !! "version" = Some "3.0.0")); [done|]. by destruct Hv. }
    split; [done|].
    destruct ((if migrates_entries s y
              then for_each (yaml_models y) (migrate_entry H)
              else mret tt) s) as [[] s1|e s1|s1];
      [|done..].
    destruct Hframe as (Hfs & Hcfg & _).
    destruct (PurePath.with_suffix file ".yaml.bak") as [e|target] eqn:Et;
      [done|].
    destruct (FS.rename (st_fs s1) file target) as [e|fs'] eqn:Er; [done|].
    injection Hok as <-.
    rewrite Hfs in Er.
    destruct (rename_file (st_fs s) file target fs' text) as [Ht Hf];
      [by apply read_lookup|by apply not_eq_sym, with_suffix_bak_ne|done|].
    assert (PurePath.parent target = PurePath.parent file
            ∧ (PurePath.name file = "models.yaml" →
               PurePath.name target = "models.yaml.bak")) as [Hpar Hname].
    { revert Et. unfold PurePath.with_suffix. simpl.
      case_bool_decide as Hn; [done|]. intros [= <-].
      unfold PurePath.parent, PurePath.name, PurePath.stem. simpl.
      rewrite removelast_last, List.last_last. split; [done|].
      unfold PurePath.name. by intros ->. }
    split; [by exists target|]. split; [by destruct s1 as [? []]|].
    intros Hroot Hdefault.
    set (s' := unset_legacy_path (set_st_fs fs' s1)).
    assert (legacy_yaml_file s' = file) as Hfile'.
    { unfold legacy_yaml_file.
      assert (default_legacy_models_yaml_path (_app_config s') = file) as ->.
      { rewrite Hdefault. unfold s', unset_legacy_path.
        destruct s1 as [? []]; simpl in *. by rewrite Hcfg. }
      assert (FS.exists_ (st_fs s') file = false) as ->.
      { unfold FS.exists_. apply bool_decide_eq_false_2.
        assert (st_fs s' = fs') as -> by by destruct s1.
        rewrite Hf. by intros [? ?]. }
      assert (AppConfig.root_path (_app_config s')
              = AppConfig.root_path (_app_config s)) as ->.
      { unfold s', unset_legacy_path. destruct s1 as [? []]; simpl in *.
        by rewrite <-Hcfg. }
      unfold PurePath.join.
      assert (anchored file = true) as ->; [|done].
      rewrite Hdefault. unfold default_legacy_models_yaml_path. simpl.
      unfold PurePath.join_str, PurePath.join. simpl. done. }
    unfold _migrate_yaml. rewrite bind_unfold. unfold gets at 1.
    cbv beta iota zeta delta [id]. rewrite bind_unfold, Hfile'.
    assert (FS.exists_ (st_fs s') file = false) as ->.
    { unfold FS.exists_. apply bool_decide_eq_false_2.
      assert (st_fs s' = fs') as -> by by destruct s1.
      rewrite Hf. by intros [? ?]. }
    unfold mret, M_ret, modify.
    by f_equal.
Qed.

Lemma migrate_yaml_spec_witness :
  let s := sample_state_legacy "legacy-v3" in
  ∃ s', _migrate_yaml sample_host s = Ok tt s'
        ∧ FS.lookup (st_fs s') ["invokeai"; "configs"; "models.yaml.bak"]
          = Some (File "legacy-v3")
        ∧ FS.lookup (st_fs s') ["invokeai"; "configs"; "models.yaml"] = None
        ∧ AppConfig.legacy_models_yaml_path (_app_config s') = None
        ∧ _migrate_yaml sample_host s' = Ok tt s'.
Proof.
  intros s.
  destruct (migrate_yaml_spec sample_host s "legacy-v3"
              (mkLegacyYaml
                 (Some {["version" := "3.0.0"]})
                 [("sdxl/main/foo",
                   mkStanza "sdxl/main/foo" (Some "a model") None);
                  ("sd-1/main/old", mkStanza "/downloads/foo" None None)])
              {["version" := "3.0.0"]} eq_refl eq_refl eq_refl)
    as (_ & _ & Hok).
  destruct (_migrate_yaml sample_host s) as [[] s'|e s'|s'] eqn:Erun;
    [|by vm_compute in Erun..].
  destruct (Hok s' eq_refl) as (_ & (target & Ht & Hbak & Hgone & _) & Hunset
                                & Hagain).
  injection Ht as <-.
  exists s'. split; [done|]. split; [exact Hbak|]. split; [exact Hgone|].
  split; [done|]. apply Hagain; reflexivity.
Defined.

(** The happy path of the specification: both entries are registered; a
    file of another version is refused and left in place. *)
Example migrate_yaml_examples :
  (∃ s', _migrate_yaml sample_host (sample_state_legacy "legacy-v3")
         = Ok tt s'
         ∧ (ModelConfig.path <$> _record_store s' !! "key-foo")
           = Some "sdxl/main/foo"
         ∧ size (_record_store s') = 1)
  ∧ (∃ msg, _migrate_yaml sample_host (sample_state_legacy "legacy-v2")
            = Raise (ValueError msg) (sample_state_legacy "legacy-v2")).
Proof.
  split.
  - eexists. split; [vm_compute; reflexivity|]. split; vm_compute; reflexivity.
  - eexists. vm_compute. reflexivity.
Qed.

(** ** Paths and their text *)

Lemma split_slash_no_slash x :
  Str.mem "/" x = false → Str.split_slash x = [x].
Proof.
  induction x as [|c x IH]; [done|]. cbn [Str.mem Str.split_slash].
  intros [Hc Hx]%orb_false_iff. rewrite Ascii.eqb_sym, Hc. by rewrite IH.
Qed.

Lemma split_slash_app x rest :
  Str.mem "/" x = false →
  Str.split_slash (x +:+ "/" +:+ rest) = x :: Str.split_slash rest.
Proof.
  induction x as [|c x IH]; [done|].
  cbn [Str.mem]. intros [Hc Hx]%orb_false_iff.
  rewrite (str_append_cons c x). cbn [Str.split_slash].
  rewrite Ascii.eqb_sym, Hc. by rewrite IH.
Qed.

Lemma prefix_slash_no_slash x :
  Str.mem "/" x = false → String.prefix "/" x = false.
Proof.
  destruct x as [|c x]; [done|]. cbn [Str.mem]. intros [Hc _]%orb_false_iff.
  apply Ascii.eqb_neq in Hc. cbn [String.prefix].
  by destruct (ascii_dec "/" c).
Qed.

Lemma of_string_name x :
  valid_name x → PurePath.of_string x = mkPath false [x].
Proof.
  intros (Hne & Hdot & Hslash). unfold PurePath.of_string.
  rewrite prefix_slash_no_slash, split_slash_no_slash by done.
  f_equal. rewrite filter_cons_True by done. done.
Qed.

Lemma split_join_slash l :
  l ≠ [] → Forall valid_name l → Str.split_slash (Str.join_slash l) = l.
Proof.
  induction l as [|x l IH]; [done|]. intros _ Hall.
  apply Forall_cons in Hall as [(Hne & Hdot & Hslash) Hall].
  destruct l as [|y l].
  - simpl. by apply split_slash_no_slash.
  - change (Str.join_slash (x :: y :: l))
      with (x +:+ "/" +:+ Str.join_slash (y :: l)).
    rewrite split_slash_app by done. f_equal. by apply IH.
Qed.

Lemma filter_valid_names (l : list string) :
  Forall valid_name l → filter (λ w, w ≠ "" ∧ w ≠ ".") l = l.
Proof.
  induction 1 as [|x l (Hne & Hdot & _) Hall IH]; [done|].
  rewrite filter_cons_True by done. by rewrite IH.
Qed.

Lemma join_slash_head x l :
  Str.join_slash (x :: l) = x ∨ ∃ rest, Str.join_slash (x :: l) = x +:+ "/" +:+ rest.
Proof. destruct l; [by left|right; by eexists]. Qed.

Lemma split_slash_lead js :
  Str.split_slash ("/" +:+ js) = "" :: Str.split_slash js.
Proof. reflexivity. Qed.

Lemma prefix_lead js : String.prefix "/" ("/" +:+ js) = true.
Proof.
  rewrite str_append_cons. cbn [String.prefix].
  destruct (ascii_dec "/" "/"); [by destruct js|done].
Qed.

(** A path is read back from its text. *)
Lemma of_string_as_posix p :
  Forall valid_name (parts p) → PurePath.of_string (PurePath.as_posix p) = p.
Proof.
  destruct p as [a l]. cbn [parts]. intros Hall.
  unfold PurePath.of_string, PurePath.as_posix. cbn [anchored parts].
  destruct a.
  - rewrite prefix_lead, split_slash_lead. f_equal.
    rewrite filter_cons_False by (intros []; done).
    destruct l as [|x l]; [done|].
    rewrite split_join_slash by done. by apply filter_valid_names.
  - destruct l as [|x l]; [done|].
    rewrite split_join_slash by done. f_equal; [|by apply filter_valid_names].
    apply Forall_cons in Hall as [(Hne & Hdot & Hslash) _].
    destruct x as [|c x]; [done|].
    cbn [Str.mem] in Hslash. apply orb_false_iff in Hslash as [Hc _].
    apply Ascii.eqb_neq in Hc.
    destruct (join_slash_head (String c x) l) as [->|[rest ->]].
    + cbn [String.prefix]. by destruct (ascii_dec "/" c).
    + rewrite str_append_cons. cbn [String.prefix].
      by destruct (ascii_dec "/" c).
Qed.

Lemma join_str_as_posix root p :
  Forall valid_name (parts p) →
  PurePath.join_str root (PurePath.as_posix p) = PurePath.join root p.
Proof. intros Hp. unfold PurePath.join_str. by rewrite of_string_as_posix. Qed.

Lemma join_name_ne t x : valid_name x → PurePath.join_str t x ≠ t.
Proof.
  intros Hx. unfold PurePath.join_str. rewrite of_string_name by done.
  unfold PurePath.join. simpl. destruct t as [a l]. simpl.
  intros [= E]. apply (f_equal length) in E. rewrite length_app in E.
  simpl in E. lia.
Qed.

(** ** Cancelling a job

    What [cancel_job] does to the job, to its parts and to the install
    queue, with the stop event clear and with the stop event set. *)

Lemma cancel_download_parts_result (H : Host) c job j s :
  st_jobs s !! job = Some j →
  _cancel_download_parts_ H c job s
  = let s1 := set_st_parts (cancelled_parts H s j) s in
    if parts_terminal H s j then
      if _stop_event s then c job s1 else queue_put job s1
    else Ok tt s1.
Proof.
  intros Hj. unfold _cancel_download_parts_. rewrite bind_unfold.
  unfold get_job. rewrite Hj. rewrite bind_unfold. unfold modify.
  rewrite bind_unfold. unfold gets.
  cbv beta iota zeta delta [id].
  unfold parts_terminal, cancelled_parts, job_parts.
  assert (st_parts (set_st_parts
            (foldr (λ r ps, alter (dq_cancel_job H) r ps) (st_parts s)
               (Job.download_parts j)) s)
          = foldr (λ r ps, alter (dq_cancel_job H) r ps) (st_parts s)
              (Job.download_parts j)) as -> by by destruct s.
  destruct (forallb _ _); [|done].
  unfold _put_in_queue_. rewrite bind_unfold. unfold gets.
  destruct s as [fs cfg store bus jobs dparts ijobs queue unfinished lock stop
                  dch ich dq cache next]; simpl.
  by destruct stop.
Qed.

(** X1: [cancel_job] while the stop event is clear and the lock is free:
    the job is marked cancelled, [cancel_job] of the download queue is
    called for each of its parts, and the job is put in the install queue
    exactly when all its parts are then in a terminal state (always, for a
    job without parts). The events, the download cache, the job table and
    the disk are unchanged and the lock is free again. *)
Theorem cancel_job_spec (H : Host) (job : nat) (j : Job.t) (s : State) :
  _lock s = false →
  _stop_event s = false →
  st_jobs s !! job = Some j →
  let queued := parts_terminal H s j in
  ∃ s',
    cancel_job H job s = Ok tt s'
    ∧ st_jobs s' = <[job := Job.cancel j]> (st_jobs s)
    ∧ st_parts s' = cancelled_parts H s j
    ∧ _install_queue s' = _install_queue s ++ (if queued then [job] else [])
    ∧ st_unfinished_tasks s'
      = st_unfinished_tasks s + (if queued then 1 else 0)
    ∧ _event_bus s' = _event_bus s
    ∧ _download_cache s' = _download_cache s
    ∧ _install_jobs s' = _install_jobs s
    ∧ st_fs s' = st_fs s
    ∧ _lock s' = false.
Proof.
  intros Hlock Hstop Hj queued.
  assert (job < length (st_jobs s)) as Hlen by by eapply lookup_lt_Some.
  unfold cancel_job. simpl. unfold cancel_job_ at 1. rewrite bind_unfold.
  unfold update_job. rewrite Hj. unfold with_lock.
  assert (_lock (set_st_jobs (<[job:=Job.cancel j]> (st_jobs s)) s) = false)
    as -> by by destruct s.
  rewrite (cancel_download_parts_result H _ job (Job.cancel j)).
  2:{ destruct s; simpl. by rewrite list_lookup_insert_eq. }
  assert (_stop_event (set__lock true
            (set_st_jobs (<[job:=Job.cancel j]> (st_jobs s)) s)) = false)
    as -> by by destruct s.
  assert (parts_terminal H (set__lock true
            (set_st_jobs (<[job:=Job.cancel j]> (st_jobs s)) s)) (Job.cancel j)
          = queued) as -> by by destruct s.
  assert (cancelled_parts H (set__lock true
            (set_st_jobs (<[job:=Job.cancel j]> (st_jobs s)) s)) (Job.cancel j)
          = cancelled_parts H s j) as -> by by destruct s.
  cbv zeta. destruct queued; eexists; (split; [reflexivity|]);
    destruct s; simpl in *; repeat split;
    first [done | lia | by rewrite app_nil_r].
Qed.

Lemma cancel_job_spec_witness :
  ∃ s', cancel_job sample_host 0 sample_state_queued = Ok tt s'
        ∧ _install_queue s' = [0; 0]
        ∧ st_unfinished_tasks s' = 2.
Proof.
  destruct (cancel_job_spec sample_host 0 _ sample_state_queued
              eq_refl eq_refl eq_refl)
    as (s' & Hc & _ & _ & Hq & Hn & _).
  exists s'. split; [exact Hc|]. split; [exact Hq | exact Hn].
Defined.

Lemma cancel_job_stop_result (H : Host) (job : nat) (j : Job.t) (s : State) :
  _lock s = false →
  _stop_event s = true →
  st_jobs s !! job = Some j →
  ∃ s',
    cancel_job H job s
    = (if parts_terminal H s j then Blocked s' else Ok tt s')
    ∧ st_jobs s' = <[job := Job.cancel j]> (st_jobs s)
    ∧ st_parts s' = cancelled_parts H s j
    ∧ _install_queue s' = _install_queue s
    ∧ st_unfinished_tasks s' = st_unfinished_tasks s
    ∧ _install_jobs s' = _install_jobs s
    ∧ _stop_event s' = true
    ∧ _lock s' = parts_terminal H s j.
Proof.
  intros Hlock Hstop Hj.
  assert (job < length (st_jobs s)) as Hlen by by eapply lookup_lt_Some.
  unfold cancel_job. simpl. unfold cancel_job_ at 1. rewrite bind_unfold.
  unfold update_job at 1. rewrite Hj. unfold with_lock at 1.
  assert (_lock (set_st_jobs (<[job:=Job.cancel j]> (st_jobs s)) s) = false)
    as -> by by destruct s.
  rewrite (cancel_download_parts_result H _ job (Job.cancel j)).
  2:{ destruct s; simpl. by rewrite list_lookup_insert_eq. }
  assert (_stop_event (set__lock true
            (set_st_jobs (<[job:=Job.cancel j]> (st_jobs s)) s)) = true)
    as -> by by destruct s.
  assert (parts_terminal H (set__lock true
            (set_st_jobs (<[job:=Job.cancel j]> (st_jobs s)) s)) (Job.cancel j)
          = parts_terminal H s j) as -> by by destruct s.
  assert (cancelled_parts H (set__lock true
            (set_st_jobs (<[job:=Job.cancel j]> (st_jobs s)) s)) (Job.cancel j)
          = cancelled_parts H s j) as -> by by destruct s.
  cbv zeta. destruct (parts_terminal H s j).
  - unfold cancel_job_. rewrite bind_unfold. unfold update_job, with_lock.
    destruct s as [fs cfg store bus jobs dparts ijobs queue unfinished lock
                    stop dch ich dq cache next]; simpl in *.
    rewrite list_lookup_insert_eq by done. simpl.
    eexists. split; [reflexivity|]. simpl.
    rewrite list_insert_insert_eq. by repeat split.
  - eexists. split; [reflexivity|].
    destruct s; simpl in *. by repeat split.
Qed.

Lemma cancel_job_lock_held (H : Host) (job : nat) (j : Job.t) (s : State) :
  _lock s = true →
  st_jobs s !! job = Some j →
  cancel_job H job s
  = Blocked (set_st_jobs (<[job := Job.cancel j]> (st_jobs s)) s).
Proof.
  intros Hlock Hj. unfold cancel_job. simpl. unfold cancel_job_ at 1.
  rewrite bind_unfold. unfold update_job. rewrite Hj. unfold with_lock.
  by destruct s; simpl in *; subst.
Qed.

(** X2: [cancel_job] after the stop event has been set. When all parts
    of the job are in a terminal state once cancelled (as for every job
    without parts), [_put_in_queue] calls [cancel_job] again while
    [cancel_job] still holds the lock, which is not reentrant: the call
    does not return, and leaves the job marked cancelled and the lock
    taken. Otherwise the call returns with the job cancelled, its parts
    cancelled and nothing queued. *)
Theorem cancel_job_stopped (H : Host) (job : nat) (j : Job.t) (s : State) :
  _lock s = false →
  _stop_event s = true →
  st_jobs s !! job = Some j →
  (parts_terminal H s j = true →
   ∃ s', cancel_job H job s = Blocked s'
         ∧ st_jobs s' = <[job := Job.cancel j]> (st_jobs s)
         ∧ _lock s' = true)
  ∧ (parts_terminal H s j = false →
     ∃ s', cancel_job H job s = Ok tt s'
           ∧ st_jobs s' = <[job := Job.cancel j]> (st_jobs s)
           ∧ st_parts s' = cancelled_parts H s j
           ∧ _install_queue s' = _install_queue s
           ∧ st_unfinished_tasks s' = st_unfinished_tasks s
           ∧ _lock s' = false).
Proof.
  intros Hlock Hstop Hj.
  destruct (cancel_job_stop_result H job j s Hlock Hstop Hj)
    as (s' & Hc & Hjobs & Hparts & Hq & Hn & _ & _ & Hl).
  split; intros Ht; rewrite Ht in Hc, Hl; exists s'; by repeat split.
Qed.

Lemma cancel_job_stopped_witness :
  ∃ s', cancel_job sample_host 0 (set__stop_event true sample_state_queued)
        = Blocked s'
        ∧ _lock s' = true.
Proof.
  destruct (proj1 (cancel_job_stopped sample_host 0 _
                     (set__stop_event true sample_state_queued)
                     eq_refl eq_refl eq_refl) eq_refl)
    as (s' & Hc & _ & Hl).
  exists s'. split; [exact Hc | exact Hl].
Defined.

(** ** Clearing the pending jobs *)

Lemma parts_terminal_no_parts (H : Host) s j :
  Job.download_parts j = [] → parts_terminal H s j = true.
Proof. unfold parts_terminal. by intros ->. Qed.

Lemma clear_pending_loop_blocks (H : Host) (r : nat) (j : Job.t) :
  ∀ (l : list nat) (s : State),
  _stop_event s = true → _lock s = false →
  (∀ x, x ∈ l → is_Some (st_jobs s !! x)) →
  r ∈ l → st_jobs s !! r = Some j →
  Job.in_terminal_state j = false → Job.download_parts j = [] →
  ∃ s',
    for_each l
      (λ job, j ← get_job job;
              if negb (Job.in_terminal_state j) then cancel_job H job
              else mret tt) s = Blocked s'.
Proof.
  induction l as [|x l IH]; intros s Hstop Hlock Hvalid Hr Hj Hnt Hparts.
  - by apply elem_of_nil in Hr.
  - cbn [for_each]. rewrite bind_unfold, bind_unfold. unfold get_job at 1.
    destruct (Hvalid x) as [jx Hjx]; [left|]. rewrite Hjx.
    destruct (Job.in_terminal_state jx) eqn:Ex; cbn [negb].
    + assert (x ≠ r) as Hne by (intros ->; congruence).
      apply elem_of_cons in Hr as [->|Hr]; [done|].
      apply IH; try done. intros y Hy. apply Hvalid. by right.
    + destruct (cancel_job_stop_result H x jx s Hlock Hstop Hjx)
        as (s' & -> & Hjobs & _ & _ & _ & _ & Hstop' & Hlock').
      destruct (parts_terminal H s jx) eqn:Et; [by eexists|].
      assert (x ≠ r) as Hne.
      { intros ->. assert (jx = j) as -> by congruence.
        by rewrite parts_terminal_no_parts in Et. }
      apply elem_of_cons in Hr as [->|Hr]; [done|].
      apply IH; try done.
      * intros y Hy. rewrite Hjobs. apply lookup_lt_is_Some.
        rewrite length_insert. apply lookup_lt_is_Some, Hvalid. by right.
      * rewrite Hjobs. by rewrite list_lookup_insert_ne.
Qed.

Lemma drain_install_queue_all : ∀ (q : list nat) (n : nat) (s : State),
  _install_queue s = q → length q ≤ st_unfinished_tasks s → length q < n →
  drain_install_queue n s
  = Ok tt (set_st_unfinished_tasks (st_unfinished_tasks s - length q)
             (set__install_queue [] s)).
Proof.
  induction q as [|x q IH]; intros n s Hq Hle Hn.
  - destruct n; [simpl in Hn; lia|]. cbn [drain_install_queue].
    rewrite bind_unfold. unfold queue_get. rewrite Hq.
    destruct s; simpl in *. subst. unfold mret, M_ret. by rewrite Nat.sub_0_r.
  - destruct n; [simpl in Hn; lia|]. cbn [drain_install_queue].
    rewrite bind_unfold. unfold queue_get. rewrite Hq. rewrite bind_unfold.
    unfold queue_task_done.
    assert (st_unfinished_tasks (set__install_queue q s)
            = st_unfinished_tasks s) as -> by by destruct s.
    simpl in Hle. destruct (st_unfinished_tasks s) as [|u] eqn:Eu; [lia|].
    rewrite IH; [|by destruct s|destruct s; simpl in *; lia|simpl in Hn; lia].
    destruct s; simpl in *. subst. done.
Qed.

Lemma clear_pending_loop_idle (H : Host) : ∀ (l : list nat) (s : State),
  (∀ x, x ∈ l → ∃ j, st_jobs s !! x = Some j
                     ∧ Job.in_terminal_state j = true) →
  for_each l
    (λ job, j ← get_job job;
            if negb (Job.in_terminal_state j) then cancel_job H job
            else mret tt) s = Ok tt s.
Proof.
  induction l as [|x l IH]; intros s Hall; [done|].
  cbn [for_each]. rewrite bind_unfold, bind_unfold. unfold get_job at 1.
  destruct (Hall x) as (j & -> & ->); [left|]. cbn [negb].
  apply IH. intros y Hy. apply Hall. by right.
Qed.

(** X3: [_clear_pending_jobs] in a table whose references are live.
    When every job is in a terminal state no job is touched, the install
    queue is emptied and every item taken from it is marked done. When the
    stop event is set (as [stop] sets it before the call) and the table
    holds a job without parts that is not in a terminal state, the call
    does not return. *)
Theorem clear_pending_jobs_spec (H : Host) (s : State) :
  _lock s = false →
  (∀ x, x ∈ list_jobs s → is_Some (st_jobs s !! x)) →
  ((∀ x j, x ∈ list_jobs s → st_jobs s !! x = Some j →
           Job.in_terminal_state j = true) →
   length (_install_queue s) ≤ st_unfinished_tasks s →
   _clear_pending_jobs H s
   = Ok tt (set_st_unfinished_tasks
              (st_unfinished_tasks s - length (_install_queue s))
              (set__install_queue [] s)))
  ∧ (_stop_event s = true →
     ∀ r j, r ∈ list_jobs s → st_jobs s !! r = Some j →
            Job.in_terminal_state j = false → Job.download_parts j = [] →
            ∃ s', _clear_pending_jobs H s = Blocked s').
Proof.
  intros Hlock Hvalid. split.
  - intros Hall Hle. unfold _clear_pending_jobs. rewrite bind_unfold.
    unfold gets at 1. cbv beta iota zeta delta [id]. rewrite bind_unfold.
    rewrite clear_pending_loop_idle.
    2:{ intros x Hx. destruct (Hvalid x Hx) as [j Hj]. exists j.
        split; [done|]. by eapply Hall. }
    rewrite bind_unfold. unfold gets. cbv beta iota zeta delta [id].
    by apply drain_install_queue_all; [|lia..].
  - intros Hstop r j Hr Hj Hnt Hparts.
    unfold _clear_pending_jobs. rewrite bind_unfold. unfold gets at 1.
    cbv beta iota zeta delta [id]. rewrite bind_unfold.
    destruct (clear_pending_loop_blocks H r j (list_jobs s) s) as [s' ->];
      try done.
    by eexists.
Qed.

Lemma sample_state_queued_refs x :
  x ∈ list_jobs sample_state_queued →
  is_Some (st_jobs sample_state_queued !! x).
Proof.
  change (list_jobs sample_state_queued) with [0].
  intros ->%list_elem_of_singleton. by eexists.
Qed.

Lemma clear_pending_jobs_spec_witness :
  _clear_pending_jobs sample_host sample_state = Ok tt sample_state
  ∧ ∃ s', _clear_pending_jobs sample_host
            (set__stop_event true sample_state_queued) = Blocked s'.
Proof.
  split.
  - apply (proj1 (clear_pending_jobs_spec sample_host sample_state eq_refl
                    (λ x Hx, False_ind _ (not_elem_of_nil x Hx)))
             (λ x j Hx, False_ind _ (not_elem_of_nil x Hx)) (le_n 0)).
  - apply (proj2 (clear_pending_jobs_spec sample_host
                    (set__stop_event true sample_state_queued)
                    eq_refl sample_state_queued_refs)
             eq_refl 0 _ (list_elem_of_here _ _) eq_refl eq_refl eq_refl).
Defined.

(** ** Pruning the job table *)

Lemma filter_filter_weaker {A} (f g : A → bool) (l : list A) :
  (∀ x, f x = true → g x = true) →
  List.filter f (List.filter g l) = List.filter f l.
Proof.
  intros Hfg. induction l as [|x l IH]; [done|]. simpl.
  destruct (g x) eqn:Eg; simpl.
  - by rewrite IH.
  - destruct (f x) eqn:Ef; [|done]. apply Hfg in Ef. congruence.
Qed.

(** X4: [prune_jobs] keeps exactly the jobs of the table that are not in
    a terminal state and changes nothing else; the jobs that stand in the
    way of a second submission of a source are the same before and after;
    pruning a pruned table changes nothing. *)
Theorem prune_jobs_spec (s : State) :
  let s' := set__install_jobs (unfinished_jobs s) s in
  prune_jobs s = Ok tt s'
  ∧ (∀ r, r ∈ _install_jobs s' ↔
          r ∈ _install_jobs s
          ∧ ∃ j, st_jobs s !! r = Some j ∧ Job.in_terminal_state j = false)
  ∧ (∀ source, similar_jobs s' source = similar_jobs s source)
  ∧ prune_jobs s' = Ok tt s'.
Proof.
  intros s'. split; [done|]. split; [|split].
  - intros r.
    assert (_install_jobs s' = unfinished_jobs s) as -> by by destruct s.
    unfold unfinished_jobs.
    rewrite list_elem_of_In, filter_In, <- list_elem_of_In.
    split.
    + intros [Hr Hf]. split; [done|].
      destruct (st_jobs s !! r) as [j|]; [|done].
      exists j. split; [done|]. by apply negb_true_iff.
    + intros [Hr (j & -> & Hj)]. split; [done|]. by rewrite Hj.
  - intros source. unfold similar_jobs, list_jobs, s', unfinished_jobs.
    destruct s as [fs cfg store bus jobs dparts ijobs queue unfinished lock
                    stop dch ich dq cache next]; simpl.
    apply filter_filter_weaker.
    intros r. destruct (jobs !! r); [|done].
    by intros [_ ?]%andb_true_iff.
  - assert (unfinished_jobs s' = unfinished_jobs s) as Hsame.
    { unfold s', unfinished_jobs. destruct s; simpl.
      by apply filter_filter_weaker. }
    change (prune_jobs s') with (Ok tt (set__install_jobs (unfinished_jobs s') s')).
    rewrite Hsame. unfold s'. by destruct s.
Qed.

(** ** Triples *)

Lemma triple_ret {A} P (a : A) (Q : A → State → Prop) R :
  (∀ s, P s → Q a s) → triple P (mret a) Q R.
Proof. intros HQ s Hs. by apply HQ. Qed.

Lemma triple_raise {A} P e (Q : A → State → Prop) (R : State → Prop) :
  (∀ s, P s → R s) → triple P (raise e) Q R.
Proof. intros HR s Hs. by apply HR. Qed.

Lemma triple_gets {A} P (f : State → A) (Q : A → State → Prop) R :
  (∀ s, P s → Q (f s) s) → triple P (gets f) Q R.
Proof. intros HQ s Hs. by apply HQ. Qed.

Lemma triple_modify P (f : State → State) (Q : unit → State → Prop) R :
  (∀ s, P s → Q tt (f s)) → triple P (modify f) Q R.
Proof. intros HQ s Hs. by apply HQ. Qed.

Lemma triple_of_sum {A} P (r : exn + A) (Q : A → State → Prop)
    (R : State → Prop) :
  (∀ s, P s → R s) → (∀ a s, P s → Q a s) → triple P (of_sum r) Q R.
Proof. intros HR HQ s Hs. destruct r; simpl; [by apply HR|by apply HQ]. Qed.

Lemma triple_bind {A B} P (m : M A) (f : A → M B) Q Q' R :
  triple P m Q R → (∀ a, triple (Q a) (f a) Q' R) → triple P (m ≫= f) Q' R.
Proof.
  intros Hm Hf s Hs. rewrite bind_unfold. specialize (Hm s Hs).
  destruct (m s) as [a s'|e s'|s']; [|done..]. by apply Hf.
Qed.

Lemma triple_seq {A B} P (m : M A) (f : A → M B) Q R :
  triple P m (λ _, P) R → (∀ a, triple P (f a) Q R) → triple P (m ≫= f) Q R.
Proof. intros Hm Hf. by eapply triple_bind. Qed.

Lemma triple_weaken {A} (P P' : State → Prop) (m : M A)
    (Q Q' : A → State → Prop) (R R' : State → Prop) :
  triple P' m Q' R' →
  (∀ s, P s → P' s) → (∀ a s, Q' a s → Q a s) → (∀ s, R' s → R s) →
  triple P m Q R.
Proof.
  intros Hm HP HQ HR s Hs. specialize (Hm s (HP s Hs)).
  destruct (m s); auto.
Qed.

Lemma triple_try_except {A} P (m : M A) h (Q : A → State → Prop) R R' :
  triple P m Q R' →
  (∀ s, R' s → R s) →
  (∀ e k, h e = Some k → triple R' k Q R) →
  triple P (try_except m h) Q R.
Proof.
  intros Hm HR Hh s Hs. unfold try_except. specialize (Hm s Hs).
  destruct (m s) as [a s'|e s'|s']; [done| |by apply HR].
  destruct (h e) as [k|] eqn:E; [|by apply HR]. by apply (Hh e k E).
Qed.

Lemma triple_for_each {A} P (l : list A) (f : A → M unit) R :
  (∀ a, triple P (f a) (λ _, P) R) → triple P (for_each l f) (λ _, P) R.
Proof.
  intros Hf. induction l as [|x l IH]; [by intros s Hs|].
  cbn [for_each]. apply triple_seq; [apply Hf|]. by intros [].
Qed.

(** ** Operations that touch neither the job table nor an id *)

Section IdFrame.

Context (H : Host) (P : State → Prop).
Hypothesis P_fs : ∀ v s, P s → P (set_st_fs v s).
Hypothesis P_parts : ∀ v s, P s → P (set_st_parts v s).
Hypothesis P_cache : ∀ v s, P s → P (set__download_cache v s).
Hypothesis P_dq : ∀ v s, P s → P (set__download_queue v s).
Hypothesis P_queue : ∀ v s, P s → P (set__install_queue v s).
Hypothesis P_unfinished : ∀ v s, P s → P (set_st_unfinished_tasks v s).
Hypothesis P_lock : ∀ v s, P s → P (set__lock v s).
Hypothesis P_job :
  ∀ r f s j, P s → st_jobs s !! r = Some j → Job.id (f j) = Job.id j →
             P (set_st_jobs (<[r := f j]> (st_jobs s)) s).

Lemma stays_get_job r : triple P (get_job r) (λ _, P) P.
Proof. intros s Hs. unfold get_job. by destruct (st_jobs s !! r). Qed.

Lemma stays_update_job r f :
  (∀ j, Job.id (f j) = Job.id j) → triple P (update_job r f) (λ _, P) P.
Proof.
  intros Hf s Hs. unfold update_job.
  destruct (st_jobs s !! r) as [j|] eqn:E; [|done]. by apply P_job.
Qed.

Lemma stays_fs_call f : triple P (fs_call f) (λ _, P) P.
Proof.
  intros s Hs. unfold fs_call. destruct (f (st_fs s)); [done|]. by apply P_fs.
Qed.

Lemma stays_new_part d : triple P (new_part d) (λ _, P) P.
Proof. intros s Hs. unfold new_part. by apply P_parts. Qed.

Lemma stays_queue_put job : triple P (queue_put job) (λ _, P) P.
Proof. intros s Hs. unfold queue_put, modify. by apply P_unfinished, P_queue. Qed.

Lemma stays_with_lock {A} (m : M A) :
  triple P m (λ _, P) P → triple P (with_lock m) (λ _, P) P.
Proof.
  intros Hm s Hs. unfold with_lock. destruct (_lock s); [done|].
  specialize (Hm (set__lock true s) (P_lock _ _ Hs)).
  destruct (m (set__lock true s)); [by apply P_lock..|done].
Qed.

Lemma stays_cancel_download_parts c job :
  (∀ r, triple P (c r) (λ _, P) P) →
  triple P (_cancel_download_parts_ H c job) (λ _, P) P.
Proof.
  intros Hc. unfold _cancel_download_parts_.
  apply triple_seq; [apply stays_get_job|]. intros j.
  apply triple_seq; [apply triple_modify; intros s Hs; by apply P_parts|].
  intros []. apply triple_seq; [by apply triple_gets|]. intros s.
  destruct (forallb _ _); [|by apply triple_ret].
  unfold _put_in_queue_. apply triple_seq; [by apply triple_gets|].
  intros []; [apply Hc|apply stays_queue_put].
Qed.

Lemma stays_cancel_job_n n : ∀ job,
  triple P (cancel_job_n H n job) (λ _, P) P.
Proof.
  induction n as [|n IH]; intros job; [by intros s Hs|].
  cbn [cancel_job_n]. unfold cancel_job_.
  apply triple_seq; [by apply stays_update_job|]. intros [].
  by apply stays_with_lock, stays_cancel_download_parts.
Qed.

Lemma stays_put_in_queue job : triple P (_put_in_queue H job) (λ _, P) P.
Proof.
  unfold _put_in_queue, _put_in_queue_.
  apply triple_seq; [by apply triple_gets|].
  intros []; [apply stays_cancel_job_n|apply stays_queue_put].
Qed.

End IdFrame.

(** ** The job table *)

Lemma list_insert_lookup_id (jobs : list Job.t) r f j r' j' :
  jobs !! r = Some j → Job.id (f j) = Job.id j →
  <[r := f j]> jobs !! r' = Some j' →
  ∃ j0, jobs !! r' = Some j0 ∧ Job.id j0 = Job.id j'.
Proof.
  intros Hj Hid Hr'. destruct (decide (r = r')) as [->|Hne].
  - rewrite list_lookup_insert_eq in Hr' by by eapply lookup_lt_Some.
    injection Hr' as <-. by exists j.
  - rewrite list_lookup_insert_ne in Hr' by done. by exists j'.
Qed.

Lemma job_table_inv_job r f s j :
  job_table_inv s → st_jobs s !! r = Some j → Job.id (f j) = Job.id j →
  job_table_inv (set_st_jobs (<[r := f j]> (st_jobs s)) s).
Proof.
  intros (Hnd & Hlive & Hlt & Hinj) Hj Hid.
  destruct s as [fs cfg store bus jobs dparts ijobs queue unfinished lock stop
                  dch ich dq cache next]; simpl in *.
  split; [done|]. split; [|split]; simpl.
  - intros r' Hr'. rewrite length_insert. by apply Hlive.
  - intros r' j' Hr'.
    destruct (list_insert_lookup_id _ _ _ _ _ _ Hj Hid Hr') as (j0 & H0 & <-).
    by eapply Hlt.
  - intros r1 r2 j1 j2 H1 H2 Heq.
    destruct (list_insert_lookup_id _ _ _ _ _ _ Hj Hid H1) as (j1' & H1' & E1).
    destruct (list_insert_lookup_id _ _ _ _ _ _ Hj Hid H2) as (j2' & H2' & E2).
    eapply Hinj; [done..|congruence].
Qed.

Lemma fresh_ref_job r0 r f s j :
  fresh_ref r0 s → st_jobs s !! r = Some j → Job.id (f j) = Job.id j →
  fresh_ref r0 (set_st_jobs (<[r := f j]> (st_jobs s)) s).
Proof.
  intros (Hinv & Hlen & Hnotin) Hj Hid. split; [by apply job_table_inv_job|].
  destruct s; simpl in *. by rewrite length_insert.
Qed.

Lemma next_id_new_job (mk : nat → Job.t) (s : State) :
  (∀ id, Job.id (mk id) = id) →
  job_table_inv s →
  _lock s = false →
  ∃ s1 s2,
    _next_id s = Ok (_next_job_id s) s1
    ∧ new_job (mk (_next_job_id s)) s1 = Ok (length (st_jobs s)) s2
    ∧ fresh_ref (length (st_jobs s)) s2.
Proof.
  intros Hmk (Hnd & Hlive & Hlt & Hinj) Hlock.
  destruct s as [fs cfg store bus jobs dparts ijobs queue unfinished lock stop
                  dch ich dq cache next]; simpl in *. subst lock.
  do 2 eexists. split; [reflexivity|]. split; [reflexivity|].
  split; [split; [done|split; [|split]]|split]; simpl.
  - intros r Hr. rewrite length_app. simpl. specialize (Hlive r Hr). lia.
  - intros r j Hr. apply lookup_app_Some in Hr as [Hr|[_ Hr]].
    + specialize (Hlt r j Hr). lia.
    + apply list_lookup_singleton_Some in Hr as [_ <-]. rewrite Hmk. lia.
  - intros r1 r2 j1 j2 H1 H2 Heq.
    apply lookup_app_Some in H1 as [H1|[Hge1 H1]];
      apply lookup_app_Some in H2 as [H2|[Hge2 H2]].
    + by eapply Hinj.
    + apply list_lookup_singleton_Some in H2 as [_ <-].
      specialize (Hlt r1 j1 H1). rewrite Hmk in Heq. lia.
    + apply list_lookup_singleton_Some in H1 as [_ <-].
      specialize (Hlt r2 j2 H2). rewrite Hmk in Heq. lia.
    + apply list_lookup_singleton_Some in H1 as [E1 _].
      apply list_lookup_singleton_Some in H2 as [E2 _]. lia.
  - rewrite length_app. simpl. lia.
  - intros Hin. specialize (Hlive _ Hin). lia.
Qed.

Lemma job_table_inv_lock b s : job_table_inv s → job_table_inv (set__lock b s).
Proof. by destruct s. Qed.

Lemma next_id_new_job_then {B} (mk : nat → Job.t) (k : nat → M B)
    (Q : B → State → Prop) :
  (∀ id, Job.id (mk id) = id) →
  (∀ r, triple (fresh_ref r) (k r) Q job_table_inv) →
  triple job_table_inv (id ← _next_id; r ← new_job (mk id); k r)
         Q job_table_inv.
Proof.
  intros Hmk Hk s Hs. rewrite bind_unfold.
  destruct (_lock s) eqn:Hlock.
  - unfold _next_id, with_lock. by rewrite Hlock.
  - destruct (next_id_new_job mk s Hmk Hs Hlock) as (s1 & s2 & -> & E2 & Hf).
    rewrite bind_unfold, E2. by apply Hk.
Qed.

Lemma import_local_model_fresh source_path inplace config :
  triple job_table_inv (_import_local_model source_path inplace config)
         fresh_ref job_table_inv.
Proof.
  intros s Hs. unfold _import_local_model. rewrite bind_unfold.
  destruct (_lock s) eqn:Hlock.
  - unfold _next_id, with_lock. by rewrite Hlock.
  - destruct (next_id_new_job
                (λ id, Job.mk id (LocalModelSource source_path inplace) config
                              None None source_path None
                              (default false inplace) [] 0 0 WAITING None None)
                s) as (s1 & s2 & -> & -> & Hf); done.
Qed.

Lemma import_remote_model_fresh (H : Host) source remote_files metadata
    config :
  triple job_table_inv
         (_import_remote_model H source remote_files metadata config)
         fresh_ref job_table_inv.
Proof.
  unfold _import_remote_model. destruct remote_files as [|first rest].
  { by apply triple_raise. }
  apply (triple_bind _ _ _ (λ _, job_table_inv)); [by apply triple_gets|].
  intros s0.
  apply triple_seq.
  { apply stays_fs_call. intros v s. by destruct s. }
  intros [].
  apply next_id_new_job_then; [done|]. intros r.
  apply (triple_bind _ _ _ (λ _, fresh_ref r)).
  { destruct source as [| ? ? [sub|] ? |]; try by apply triple_ret.
    destruct (parts (rf_path first)); [|by apply triple_ret].
    apply triple_raise. by intros s []. }
  intros [root subfolder].
  assert (∀ s, fresh_ref r s → job_table_inv s) as Hweak by by intros s [].
  apply (triple_bind _ _ _ (λ _, fresh_ref r)).
  { eapply triple_weaken;
      [apply (stays_update_job (fresh_ref r))|done|done|done]; [|done].
    intros. by apply fresh_ref_job. }
  intros [].
  apply (triple_bind _ _ _ (λ _, fresh_ref r)).
  { eapply triple_weaken;
      [apply (triple_for_each (fresh_ref r) _ _ (fresh_ref r))|done|done|done].
    intros model_file.
    apply triple_seq; [by apply triple_of_sum|]. intros rel.
    apply triple_seq.
    { apply stays_update_job; [intros; by apply fresh_ref_job|done]. }
    intros []. apply triple_seq.
    { apply stays_fs_call. intros v s. by destruct s. }
    intros []. apply triple_seq.
    { apply stays_new_part. intros v s. by destruct s. }
    intros download_job. apply triple_seq.
    { apply triple_modify. intros s. by destruct s. }
    intros []. apply triple_seq.
    { apply stays_update_job; [intros; by apply fresh_ref_job|done]. }
    intros []. apply triple_modify. intros s. by destruct s. }
  intros []. by apply triple_ret.
Qed.


Lemma import_from_hf_fresh (H : Host) repo_id variant subfolder access_token
    config :
  triple job_table_inv
         (_import_from_hf H repo_id variant subfolder access_token config)
         fresh_ref job_table_inv.
Proof.
  unfold _import_from_hf.
  apply triple_seq; [by apply triple_of_sum|]. intros [metadata remote_files].
  apply import_remote_model_fresh.
Qed.

Lemma import_from_url_fresh (H : Host) url access_token config :
  triple job_table_inv (_import_from_url H url access_token config)
         fresh_ref job_table_inv.
Proof.
  unfold _import_from_url. apply triple_seq.
  { destruct (get_fetcher_from_url url); [by apply triple_ret|].
    apply triple_seq; [by apply triple_of_sum|]. intros r. by apply triple_ret. }
  intros [metadata remote_files]. apply import_remote_model_fresh.
Qed.

Lemma similar_jobs_elem s source job :
  job ∈ similar_jobs s source → job ∈ _install_jobs s.
Proof.
  unfold similar_jobs, list_jobs.
  rewrite !list_elem_of_In, filter_In. by intros [].
Qed.

Lemma fresh_ref_append r s :
  fresh_ref r s →
  job_table_inv (set__install_jobs (_install_jobs s ++ [r]) s)
  ∧ r ∈ _install_jobs (set__install_jobs (_install_jobs s ++ [r]) s).
Proof.
  intros ((Hnd & Hlive & Hlt & Hinj) & Hlen & Hnotin).
  destruct s as [fs cfg store bus jobs dparts ijobs queue unfinished lock stop
                  dch ich dq cache next]; simpl in *.
  split; [split; [|split; [|done]]|]; simpl.
  - apply NoDup_app. split; [done|]. split; [|apply NoDup_singleton].
    intros x Hx ->%list_elem_of_singleton. done.
  - intros x [Hx| ->%list_elem_of_singleton]%elem_of_app; [by apply Hlive|done].
  - apply elem_of_app. right. by apply list_elem_of_singleton.
Qed.

Lemma import_model_new (H : Host) source config :
  triple job_table_inv
    (install_job ←
       match source with
       | LocalModelSource path inplace =>
           install_job ← _import_local_model path inplace config;
           _put_in_queue H install_job;;
           mret install_job
       | HFModelSource repo_id variant subfolder access_token =>
           _import_from_hf H repo_id variant subfolder access_token config
       | URLModelSource url access_token =>
           _import_from_url H url access_token config
       end;
     modify (λ s, set__install_jobs (_install_jobs s ++ [install_job]) s);;
     mret install_job)
    (λ job s, job_table_inv s ∧ job ∈ _install_jobs s) job_table_inv.
Proof.
  apply (triple_bind _ _ _ fresh_ref).
  - destruct source as [path inplace|repo_id variant subfolder tok|url tok].
    + apply (triple_bind _ _ _ fresh_ref);
        [apply import_local_model_fresh|].
      intros r. apply (triple_bind _ _ _ (λ _, fresh_ref r)).
      * eapply triple_weaken;
          [apply (stays_put_in_queue H (fresh_ref r))|done|done|by intros s []];
          try (intros v s; by destruct s).
        intros. by apply fresh_ref_job.
      * intros []. by apply triple_ret.
    + apply import_from_hf_fresh.
    + apply import_from_url_fresh.
  - intros r. intros s Hs. rewrite bind_unfold. unfold modify.
    by apply fresh_ref_append.
Qed.

Lemma import_model_table (H : Host) source config :
  triple job_table_inv (import_model H source config)
         (λ job s, job_table_inv s ∧ job ∈ _install_jobs s) job_table_inv.
Proof.
  intros s Hs. unfold import_model. rewrite bind_unfold. unfold gets at 1.
  cbv beta iota zeta delta [id].
  destruct (similar_jobs s source) as [|job l] eqn:Esim.
  - by apply import_model_new.
  - split; [done|]. apply (similar_jobs_elem s source). rewrite Esim. left.
Qed.

(** ** Looking a job up by its id *)

Lemma filter_none {A} (f : A → bool) (l : list A) :
  (∀ x, x ∈ l → f x = false) → List.filter f l = [].
Proof.
  induction l as [|x l IH]; intros Hf; [done|]. simpl.
  rewrite (Hf x) by left. apply IH. intros y Hy. apply Hf. by right.
Qed.

Lemma filter_unique {A} (f : A → bool) (l : list A) (r : A) :
  NoDup l → r ∈ l → (∀ x, x ∈ l → f x = true ↔ x = r) →
  List.filter f l = [r].
Proof.
  induction l as [|x l IH]; intros Hnd Hr Hf; [by apply elem_of_nil in Hr|].
  apply NoDup_cons in Hnd as [Hx Hnd]. simpl.
  destruct (f x) eqn:Efx.
  - apply (Hf x) in Efx as ->; [|left]. f_equal. apply filter_none.
    intros y Hy. destruct (f y) eqn:Efy; [|done].
    apply (Hf y) in Efy as ->; [done|by right].
  - assert (x ≠ r) as Hne.
    { intros ->. rewrite (proj2 (Hf r ltac:(left)) eq_refl) in Efx. done. }
    apply elem_of_cons in Hr as [->|Hr]; [done|].
    apply IH; [done..|]. intros z Hz. apply Hf. by right.
Qed.

Lemma get_job_by_id_found (s : State) (r : nat) (j : Job.t) :
  job_table_inv s → r ∈ _install_jobs s → st_jobs s !! r = Some j →
  get_job_by_id (Job.id j) s = Ok r s.
Proof.
  intros (Hnd & Hlive & Hlt & Hinj) Hr Hj. unfold get_job_by_id.
  rewrite bind_unfold. unfold gets.
  rewrite (filter_unique _ _ r); [done..|].
  intros x Hx. destruct (st_jobs s !! x) as [jx|] eqn:Ex.
  - rewrite bool_decide_eq_true. split; [by eapply Hinj|]. intros ->. congruence.
  - split; [done|]. intros ->. congruence.
Qed.

Lemma get_job_by_id_unknown (s : State) (id : nat) :
  (∀ r j, r ∈ _install_jobs s → st_jobs s !! r = Some j → Job.id j ≠ id) →
  get_job_by_id id s
  = Raise (ValueError ("No job with id " +:+ pretty id +:+ " known")) s.
Proof.
  intros Hno. unfold get_job_by_id. rewrite bind_unfold. unfold gets.
  rewrite filter_none; [done|]. intros x Hx.
  destruct (st_jobs s !! x) as [jx|] eqn:Ex; [|done].
  apply bool_decide_eq_false. by eapply Hno.
Qed.

Lemma NoDup_List_filter {A} (f : A → bool) (l : list A) :
  NoDup l → NoDup (List.filter f l).
Proof.
  induction 1 as [|x l Hx Hnd IH]; simpl; [constructor|].
  destruct (f x); [|done]. constructor; [|done].
  rewrite list_elem_of_In, filter_In, <- list_elem_of_In. by intros [].
Qed.

Lemma prune_jobs_table (s : State) :
  job_table_inv s → job_table_inv (final_state (prune_jobs s)).
Proof.
  intros (Hnd & Hlive & Hlt & Hinj). unfold prune_jobs, modify.
  destruct s as [fs cfg store bus jobs dparts ijobs queue unfinished lock stop
                  dch ich dq cache next]; simpl in *.
  split; [by apply NoDup_List_filter|]. split; [|done]. simpl.
  intros r. rewrite list_elem_of_In, filter_In, <- list_elem_of_In.
  intros [Hr _]. by apply Hlive.
Qed.

Lemma cancel_job_table (H : Host) job (s : State) :
  job_table_inv s → job_table_inv (final_state (cancel_job H job s)).
Proof.
  intros Hs.
  pose proof (stays_cancel_job_n H job_table_inv) as Hc.
  specialize (Hc ltac:(by intros v []) ltac:(by intros v []) ltac:(by intros v [])
                 ltac:(by intros v []) (λ r f s j, job_table_inv_job r f s j)
                 2 job s Hs).
  unfold cancel_job. by destruct (cancel_job_n H 2 job s).
Qed.

(** X5: in a job table that is in order, [get_job_by_id] returns the job
    of the table that carries the id, and raises [ValueError] with the
    message [No job with id N known] for an id that no job of the table
    carries; the state is unchanged either way. *)
Theorem get_job_by_id_spec (s : State) :
  job_table_inv s →
  (∀ r j, r ∈ _install_jobs s → st_jobs s !! r = Some j →
          get_job_by_id (Job.id j) s = Ok r s)
  ∧ (∀ id, (∀ r j, r ∈ _install_jobs s → st_jobs s !! r = Some j →
                   Job.id j ≠ id) →
           get_job_by_id id s
           = Raise (ValueError ("No job with id " +:+ pretty id +:+ " known"))
                   s).
Proof.
  intros Hs. split.
  - intros r j. by apply get_job_by_id_found.
  - apply get_job_by_id_unknown.
Qed.

Lemma sample_state_queued_table : job_table_inv sample_state_queued.
Proof.
  repeat split.
  - apply NoDup_singleton.
  - intros r. change (_install_jobs sample_state_queued) with [0].
    intros ->%list_elem_of_singleton. simpl. lia.
  - intros [|r] j; [|done]. intros [= <-]. simpl. lia.
  - by intros [|r1] [|r2] j1 j2.
Qed.

Lemma get_job_by_id_spec_witness :
  get_job_by_id 0 sample_state_queued = Ok 0 sample_state_queued
  ∧ get_job_by_id 7 sample_state_queued
    = Raise (ValueError "No job with id 7 known") sample_state_queued.
Proof.
  destruct (get_job_by_id_spec sample_state_queued sample_state_queued_table)
    as [Hfound Hunknown].
  split.
  - exact (Hfound 0 _ (list_elem_of_here _ _) eq_refl).
  - apply (Hunknown 7). intros r j.
    change (_install_jobs sample_state_queued) with [0].
    intros ->%list_elem_of_singleton [= <-]. discriminate.
Defined.

(** X6: [import_model], [cancel_job] and [prune_jobs] keep the job table
    in order, however they end: each job is listed once, every reference
    is live, the ids are pairwise distinct and below the next id. A job
    that [import_model] returns is in the table and [get_job_by_id] of its
    id gives it back. *)
Theorem job_table_kept (H : Host) (s : State) :
  job_table_inv s →
  (∀ source config,
     job_table_inv (final_state (import_model H source config s))
     ∧ ∀ job s', import_model H source config s = Ok job s' →
         job ∈ _install_jobs s'
         ∧ ∃ j, st_jobs s' !! job = Some j
                ∧ get_job_by_id (Job.id j) s' = Ok job s')
  ∧ (∀ job, job_table_inv (final_state (cancel_job H job s)))
  ∧ job_table_inv (final_state (prune_jobs s)).
Proof.
  intros Hs. split; [|split].
  - intros source config.
    pose proof (import_model_table H source config s Hs) as Himp.
    destruct (import_model H source config s) as [job s'|e s'|s'] eqn:E;
      simpl; [|by split..].
    destruct Himp as [Hs' Hjob]. split; [done|].
    intros job0 s0 [= <- <-]. split; [done|].
    destruct Hs' as (Hnd & Hlive & Hrest).
    destruct (lookup_lt_is_Some_2 _ _ (Hlive job Hjob)) as [j Hj].
    exists j. split; [done|]. by apply get_job_by_id_found.
  - intros job. by apply cancel_job_table.
  - by apply prune_jobs_table.
Qed.

Lemma job_table_kept_witness :
  job_table_inv
    (final_state (import_model sample_host sample_repo ∅ sample_state_queued))
  ∧ job_table_inv (final_state (cancel_job sample_host 0 sample_state_queued))
  ∧ job_table_inv (final_state (prune_jobs sample_state_queued)).
Proof.
  destruct (job_table_kept sample_host sample_state_queued
              sample_state_queued_table) as (Himport & Hcancel & Hprune).
  split; [exact (proj1 (Himport sample_repo ∅))|].
  split; [exact (Hcancel 0) | exact Hprune].
Defined.

(** ** The callbacks of the download queue, case by case *)

(** X7: the started, progress and complete callbacks, called for a
    download job whose URL is not in the download cache, raise [KeyError]
    and leave the state as it was, the lock released. *)
Theorem download_callbacks_unknown_url (H : Host) (download_job : nat)
    (d : DownloadJob.t) (s : State) :
  _lock s = false →
  st_parts s !! download_job = Some d →
  _download_cache s !! DownloadJob.source d = None →
  _download_started_callback download_job s = Raise KeyError s
  ∧ _download_progress_callback H download_job s = Raise KeyError s
  ∧ _download_complete_callback H download_job s = Raise KeyError s.
Proof.
  intros Hlock Hd Hc.
  destruct s as [fs cfg store bus jobs dparts ijobs queue unfinished lock stop
                  dch ich dq cache next]; simpl in *. subst lock.
  unfold _download_started_callback, _download_progress_callback,
    _download_complete_callback, with_lock, get_part, cache_lookup.
  rewrite !bind_unfold. simpl. rewrite Hd. rewrite !bind_unfold. simpl.
  by rewrite Hc.
Qed.

Lemma download_callbacks_unknown_url_witness :
  _download_started_callback 0 sample_state_stray_part
  = Raise KeyError sample_state_stray_part
  ∧ _download_progress_callback sample_host 0 sample_state_stray_part
    = Raise KeyError sample_state_stray_part
  ∧ _download_complete_callback sample_host 0 sample_state_stray_part
    = Raise KeyError sample_state_stray_part.
Proof.
  exact (download_callbacks_unknown_url sample_host 0 _
           sample_state_stray_part eq_refl eq_refl eq_refl).
Defined.

Lemma with_lock_unfold {A} (m : M A) s :
  _lock s = false →
  with_lock m s = match m (set__lock true s) with
                  | Ok a s' => Ok a (set__lock false s')
                  | Raise e s' => Raise e (set__lock false s')
                  | Blocked s' => Blocked s'
                  end.
Proof. intros Hl. unfold with_lock. by rewrite Hl. Qed.

Lemma cancel_download_parts_queued (H : Host) job j s :
  st_jobs s !! job = Some j →
  _stop_event s = false →
  _cancel_download_parts H job s
  = Ok tt
      (let s1 := set_st_parts (cancelled_parts H s j) s in
       if parts_terminal H s j
       then set_st_unfinished_tasks (S (st_unfinished_tasks s))
              (set__install_queue (_install_queue s ++ [job]) s1)
       else s1).
Proof.
  intros Hj Hstop. unfold _cancel_download_parts.
  rewrite (cancel_download_parts_result H _ job j s Hj). rewrite Hstop.
  cbv zeta. destruct (parts_terminal H s j); [|done].
  unfold queue_put, modify. by destruct s.
Qed.







(** X11: the started callback for a part whose URL is in the download
    cache and whose download path lies under the scratch directory of the
    job: the status becomes [DOWNLOADING] whatever it was; a local path
    that still is the scratch directory becomes its entry named by the
    first component of the download path below it (so it no longer is the
    scratch directory), any other local path is kept; a total of zero
    bytes is replaced by the sum over the parts. *)
Theorem download_started_callback_spec (download_job : nat)
    (d : DownloadJob.t) (install_job : nat) (j : Job.t) (s : State)
    (tmpdir p rel : Path) (x : string) (rest : list string) :
  _lock s = false →
  st_parts s !! download_job = Some d →
  _download_cache s !! DownloadJob.source d = Some install_job →
  st_jobs s !! install_job = Some j →
  DownloadJob.download_path d = Some p →
  Job._install_tmpdir j = Some tmpdir →
  PurePath.relative_to p tmpdir = inr rel →
  parts rel = x :: rest →
  let local_path :=
    if bool_decide (Job.local_path j = tmpdir)
    then PurePath.join_str tmpdir x else Job.local_path j in
  let total_bytes :=
    if bool_decide (Job.total_bytes j = 0)
    then sum_parts DownloadJob.total_bytes s j else Job.total_bytes j in
  _download_started_callback download_job s
  = Ok tt
      (set_st_jobs
         (<[install_job :=
              Job.set_total_bytes total_bytes
                (Job.set_local_path local_path
                   (Job.set_status DOWNLOADING j))]> (st_jobs s)) s)
  ∧ (valid_name x → local_path ≠ tmpdir).
Proof.
  intros Hlock Hd Hc Hj Hp Htmp Hrel Hparts local_path total_bytes.
  assert (install_job < length (st_jobs s)) as Hlen by by eapply lookup_lt_Some.
  split.
  - destruct s as [fs cfg store bus jobs dparts ijobs queue unfinished lock
                    stop dch ich dq cache next]; simpl in *. subst lock.
    unfold _download_started_callback, with_lock, update_job, get_job,
      get_part, cache_lookup, modify, gets, mbind, M_bind, mret, M_ret,
      of_sum, raise.
    simpl. rewrite Hd. simpl. rewrite Hc. simpl. rewrite Hj. simpl.
    rewrite Hp. simpl. rewrite list_lookup_insert_eq by done. simpl.
    rewrite Htmp. subst local_path total_bytes.
    destruct j as [jid src cin cout md lp tmp inpl dps b tb st er et].
    simpl in *. subst tmp.
    case_bool_decide as Hlp; simpl.
    + rewrite Hrel. simpl. rewrite Hparts. simpl.
      rewrite list_lookup_insert_eq by done. simpl.
      rewrite list_lookup_insert_eq by (by rewrite length_insert). simpl.
      case_bool_decide; simpl.
      * rewrite list_lookup_insert_eq by (by rewrite length_insert). simpl.
        by rewrite !list_insert_insert_eq.
      * by rewrite !list_insert_insert_eq.
    + rewrite list_lookup_insert_eq by done. simpl.
      case_bool_decide; simpl.
      * rewrite list_lookup_insert_eq by done. simpl.
        by rewrite !list_insert_insert_eq.
      * done.
  - intros Hx. subst local_path. case_bool_decide as Hlp; [|done].
    by apply join_name_ne.
Qed.

Lemma download_started_callback_spec_witness :
  ∃ s', _download_started_callback 1 sample_state_downloading = Ok tt s'
        ∧ (Job.local_path <$> st_jobs s' !! 0)
          = Some (mkPath true ["invokeai"; "models"; "tmpinstall_k3j2x9"; "b"]).
Proof.
  destruct (download_started_callback_spec 1 _ 0 _ sample_state_downloading
              sample_tmpdir _ _ "b" ["unet"; "model.safetensors"]
              eq_refl eq_refl eq_refl eq_refl eq_refl eq_refl eq_refl eq_refl)
    as [Hc _].
  eexists. split; [exact Hc | reflexivity].
Defined.

(** ** Registration and copies

    [_register] read as a whole, and what the copying functions leave on
    disk. *)

Lemma register_result (H : Host) model_path config info s :
  match _register H model_path config info s with
  | Ok key s' =>
      ∃ info0 record,
        match info with
        | Some i => inr i
        | None => probe H (st_fs s) model_path config
                        (AppConfig.hashing_algorithm (_app_config s))
        end = inr info0
        ∧ key = ModelConfig.key info0
        ∧ s' = set__record_store (<[key := record]> (_record_store s)) s
        ∧ _record_store s !! key = None
        ∧ ModelConfig.key record = key
        ∧ ModelConfig.path record
          = PurePath.as_posix
              (stored_path (PurePath.resolve model_path)
                           (AppConfig.models_path (_app_config s)))
  | Raise e s' => s' = s
  | Blocked _ => False
  end.
Proof.
  unfold _register. rewrite bind_unfold. unfold gets.
  cbv beta iota zeta delta [id]. rewrite bind_unfold.
  destruct (match info with
            | Some i => mret i
            | None => of_sum (probe H (st_fs s) model_path config
                                (AppConfig.hashing_algorithm (_app_config s)))
            end s) as [i s1|e s1|s1] eqn:Ei.
  2:{ destruct info; [done|]. unfold of_sum, raise, mret, M_ret in Ei.
      destruct (probe _ _ _ _ _); by simplify_eq. }
  2:{ destruct info; [done|]. unfold of_sum, raise, mret, M_ret in Ei.
      by destruct (probe _ _ _ _ _). }
  assert (s1 = s ∧ match info with
                   | Some i => inr i
                   | None => probe H (st_fs s) model_path config
                               (AppConfig.hashing_algorithm (_app_config s))
                   end = inr i) as [-> Hinfo].
  { unfold of_sum, raise, mret, M_ret in Ei.
    destruct info; [by simplify_eq|].
    destruct (probe _ _ _ _ _); by simplify_eq. }
  rewrite bind_unfold, relativize_eq. rewrite bind_unfold.
  set (i1 := ModelConfig.set_path _ i).
  assert (∃ i2, (match ModelConfig.config_path i1 with
                 | Some config_path =>
                     legacy_config_path ←
                       relativize
                         (PurePath.join_str
                            (AppConfig.legacy_conf_path (_app_config s))
                            config_path)
                         (AppConfig.legacy_conf_path (_app_config s));
                     mret (ModelConfig.set_config_path
                             (Some (PurePath.as_posix legacy_config_path)) i1)
                 | None => mret i1
                 end) s = Ok i2 s
                ∧ ModelConfig.key i2 = ModelConfig.key i1
                ∧ ModelConfig.path i2 = ModelConfig.path i1)
    as (i2 & -> & Hkey & Hpath).
  { destruct (ModelConfig.config_path i1); [|by eexists].
    rewrite bind_unfold, relativize_eq. by eexists. }
  rewrite bind_unfold. unfold add_model.
  destruct (_record_store s !! ModelConfig.key i2) eqn:Estore; [done|].
  exists i, i2. by repeat split.
Qed.

(** ** Copies *)

Lemma mkdirs_lookup_frame q : ∀ p fs fs',
  FS.mkdirs fs q = inr fs' →
  PurePath.is_prefix p q = false →
  FS.lookup fs' p = FS.lookup fs p.
Proof.
  induction q as [|x q IH]; intros p fs fs'; simpl.
  - destruct fs; [done|]. by intros [= <-].
  - destruct fs as [|l0]; [done|].
    destruct (FS.mkdirs (default (Dir []) (FS.assoc x l0)) q) as [|c'] eqn:E;
      [done|].
    intros [= <-]. destruct p as [|y p]; [done|]. simpl.
    destruct (decide (y = x)) as [->|Hne].
    + rewrite bool_decide_eq_true_2 by done. simpl.
      rewrite assoc_set_assoc_eq. intros Hpre.
      destruct (FS.assoc x l0) as [c|]; simpl in E.
      * by apply (IH p c c').
      * rewrite (IH p (Dir []) c') by done. by destruct p.
    + rewrite assoc_set_assoc_ne by done. done.
Qed.

Lemma mkdirs_file_not_prefix q : ∀ p fs fs' d,
  FS.mkdirs fs q = inr fs' →
  FS.lookup fs p = Some (File d) →
  PurePath.is_prefix p q = false.
Proof.
  induction q as [|x q IH]; intros p fs fs' d; simpl.
  - destruct fs; [done|]. intros _. destruct p; [done|]. done.
  - destruct fs as [|l0]; [done|].
    destruct (FS.mkdirs (default (Dir []) (FS.assoc x l0)) q) as [|c'] eqn:E;
      [done|].
    intros _. destruct p as [|y p]; [done|]. simpl.
    destruct (decide (y = x)) as [->|Hne].
    + rewrite bool_decide_eq_true_2 by done. simpl.
      destruct (FS.assoc x l0) as [c|]; [|done]. simpl in E.
      intros Hp. by apply (IH p c c' d).
    + by rewrite bool_decide_eq_false_2.
Qed.

Lemma is_prefix_removelast p : ∀ q,
  PurePath.is_prefix p (removelast q) = true → PurePath.is_prefix p q = true.
Proof.
  induction p as [|x p IH]; intros q; [done|].
  destruct q as [|y q]; [done|]. destruct q as [|z q]; [done|].
  change (removelast (y :: z :: q)) with (y :: removelast (z :: q)).
  cbn [PurePath.is_prefix]. intros [Hxy Hp]%andb_true_iff.
  rewrite Hxy. cbn [andb]. by apply IH.
Qed.

Lemma is_prefix_refl p : PurePath.is_prefix p p = true.
Proof.
  induction p as [|x p IH]; [done|]. simpl.
  by rewrite bool_decide_eq_true_2.
Qed.

Lemma put_file_on_way q : ∀ p fs v d,
  FS.lookup fs p = Some (File d) → PurePath.is_prefix p q = true → p ≠ q →
  FS.put fs q v = None.
Proof.
  induction q as [|x q IH]; intros p fs v d.
  - destruct p; [done|]. done.
  - destruct p as [|y p].
    + simpl. intros [= ->]. done.
    + cbn [PurePath.is_prefix]. intros Hp [Hxy Hpre]%andb_true_iff Hne.
      apply bool_decide_eq_true in Hxy as ->. simpl in Hp. simpl.
      destruct fs as [|l]; [done|].
      destruct (FS.assoc x l) as [c|] eqn:Ea; [|done].
      destruct q as [|z q].
      * destruct p; [done|]. done.
      * rewrite (IH p c v d); [done..|]. congruence.
Qed.

Lemma lookup_file_below q : ∀ p fs n d,
  FS.lookup fs q = Some (File d) → FS.lookup fs p = Some n →
  PurePath.is_prefix q p = true → p = q.
Proof.
  induction q as [|x q IH]; intros p fs n d.
  - simpl. intros [= ->]. destruct p; [done|]. done.
  - destruct p as [|y p]; [done|]. cbn [PurePath.is_prefix].
    simpl. destruct fs as [|l]; [done|].
    intros Hq Hp [Hxy Hpre]%andb_true_iff.
    apply bool_decide_eq_true in Hxy as ->.
    destruct (FS.assoc y l) as [c|]; [|done].
    f_equal. by eapply IH.
Qed.

Lemma lookup_prefix_exists q : ∀ p fs n,
  FS.lookup fs p = Some n → PurePath.is_prefix q p = true →
  is_Some (FS.lookup fs q).
Proof.
  induction q as [|x q IH]; intros p fs n; [by eexists|].
  destruct p as [|y p]; [done|]. cbn [PurePath.is_prefix]. simpl.
  destruct fs as [|l]; [done|].
  intros Hp [Hxy Hpre]%andb_true_iff.
  apply bool_decide_eq_true in Hxy as ->.
  destruct (FS.assoc y l) as [c|]; [|done]. by eapply IH.
Qed.

Lemma lookup_above q : ∀ p fs n,
  FS.lookup fs p = Some n → PurePath.is_prefix q p = true → q ≠ p →
  ∃ l, FS.lookup fs q = Some (Dir l).
Proof.
  induction q as [|x q IH]; intros p fs n.
  - destruct p as [|y p]; [done|]. simpl. destruct fs; [done|]. eauto.
  - destruct p as [|y p]; [done|]. cbn [PurePath.is_prefix]. simpl.
    destruct fs as [|l]; [done|].
    intros Hp [Hxy Hpre]%andb_true_iff Hne.
    apply bool_decide_eq_true in Hxy as ->.
    destruct (FS.assoc y l) as [c|]; [|done].
    eapply IH; [done..|congruence].
Qed.

Lemma copyfile_result fs src dst fs' n :
  FS.lookup fs (parts src) = Some n →
  FS.copyfile fs src dst = inr fs' →
  parts src ≠ parts dst
  ∧ FS.lookup fs' (parts dst) = Some n
  ∧ FS.lookup fs' (parts src) = Some n.
Proof.
  intros Hn. unfold FS.copyfile.
  assert (FS.exists_ fs src = true) as ->
    by (apply bool_decide_eq_true_2; by eexists).
  cbn [andb]. case_bool_decide as Hpne; [done|].
  unfold FS.read. rewrite Hn. destruct n as [d|l]; [|done].
  unfold FS.write.
  assert (PurePath.is_prefix (parts dst) (parts src) = true →
          ∃ l, FS.lookup fs (parts dst) = Some (Dir l)) as Habove.
  { intros Hpre. eapply lookup_above; [done..|congruence]. }
  destruct (PurePath.is_prefix (parts dst) (parts src)) eqn:Eds.
  { destruct Habove as [l ->]; done. }
  assert (∀ fs2, FS.put fs (parts dst) (File d) = Some fs2 →
                 FS.lookup fs2 (parts dst) = Some (File d)
                 ∧ FS.lookup fs2 (parts src) = Some (File d)) as Hput.
  { intros fs2 Eput. split; [by eapply lookup_put_eq|].
    rewrite (lookup_put_frame _ _ _ _ _ Eput); [done..|].
    destruct (PurePath.is_prefix (parts src) (parts dst)) eqn:Esd; [|done].
    by rewrite (put_file_on_way _ (parts src) fs _ d) in Eput. }
  destruct (FS.lookup fs (parts dst)) as [[|l']|]; [|done|];
    (destruct (FS.put fs (parts dst) (File d)) as [fs2|] eqn:Eput; [|done]);
    intros [= <-]; split; try done; by apply Hput.
Qed.

Lemma copytree_result fs src dst fs' n :
  FS.lookup fs (parts src) = Some n →
  FS.copytree fs src dst = inr fs' →
  parts src ≠ parts dst
  ∧ FS.lookup fs' (parts dst) = Some n
  ∧ FS.lookup fs' (parts src) = Some n.
Proof.
  intros Hn. unfold FS.copytree. rewrite Hn. destruct n as [d|l]; [done|].
  destruct (FS.exists_ fs dst) eqn:Eex; [done|].
  destruct (PurePath.is_prefix (parts src) (parts dst)) eqn:Esd; [done|].
  destruct (FS.mkdirs fs (removelast (parts dst))) as [e|fs1] eqn:Emk;
    [by destruct e|].
  destruct (FS.put fs1 (parts dst) (Dir l)) as [fs2|] eqn:Eput; [|done].
  intros [= <-].
  assert (PurePath.is_prefix (parts dst) (parts src) = false) as Eds.
  { destruct (PurePath.is_prefix (parts dst) (parts src)) eqn:E; [|done].
    apply bool_decide_eq_false in Eex. destruct Eex.
    by eapply lookup_prefix_exists. }
  split; [|split].
  - intros Hp. rewrite Hp, is_prefix_refl in Esd. done.
  - by eapply lookup_put_eq.
  - rewrite (lookup_put_frame _ _ _ _ _ Eput) by done.
    rewrite (mkdirs_lookup_frame _ _ _ _ Emk); [done|].
    destruct (PurePath.is_prefix (parts src) (removelast (parts dst))) eqn:E;
      [|done].
    apply is_prefix_removelast in E. congruence.
Qed.

(** What [_copy_model] leaves on disk when it returns: the source as it
    was, and at the destination what is at the source. *)
Lemma copy_model_result old_path new_path s p s' n :
  FS.lookup (st_fs s) (parts old_path) = Some n →
  _copy_model old_path new_path s = Ok p s' →
  p = new_path
  ∧ s' = set_st_fs (st_fs s') s
  ∧ FS.lookup (st_fs s') (parts old_path) = Some n
  ∧ FS.lookup (st_fs s') (parts new_path) = Some n.
Proof.
  intros Hn. unfold _copy_model. case_bool_decide as Heq.
  { intros [= <- <-]. subst. repeat split; try done. by destruct s. }
  rewrite bind_unfold. unfold fs_call at 1.
  destruct (FS.mkdir_parents (st_fs s) (PurePath.parent new_path))
    as [e|fs1] eqn:Emk; [done|].
  rewrite bind_unfold. unfold gets. rewrite bind_unfold.
  assert (st_fs (set_st_fs fs1 s) = fs1) as Hfs1 by by destruct s.
  unfold FS.mkdir_parents, PurePath.parent in Emk. simpl in Emk.
  unfold FS.is_dir. rewrite Hfs1.
  destruct n as [d|l].
  - pose proof (mkdirs_file_not_prefix _ _ _ _ _ Emk Hn) as Hnp.
    assert (FS.lookup fs1 (parts old_path) = Some (File d)) as Hn1
      by by rewrite (mkdirs_lookup_frame _ _ _ _ Emk Hnp).
    rewrite Hn1. unfold fs_call. rewrite Hfs1.
    destruct (FS.copyfile fs1 old_path new_path) as [e|fs2] eqn:Ecp; [done|].
    intros [= <- <-].
    destruct (copyfile_result _ _ _ _ _ Hn1 Ecp) as (_ & Hdst & Hsrc).
    assert (st_fs (set_st_fs fs2 (set_st_fs fs1 s)) = fs2) as ->
      by by destruct s.
    repeat split; first [done | by destruct s].
  - destruct (mkdirs_dir_stable _ _ _ _ _ Emk Hn) as [l1 Hn1]. rewrite Hn1.
    unfold fs_call. rewrite Hfs1.
    destruct (FS.copytree fs1 old_path new_path) as [e|fs2] eqn:Ecp; [done|].
    intros [= <- <-].
    destruct (copytree_result _ _ _ _ _ Hn1 Ecp) as (_ & Hdst & Hsrc).
    assert (st_fs (set_st_fs fs2 (set_st_fs fs1 s)) = fs2) as ->
      by by destruct s.
    assert (PurePath.is_prefix (parts old_path) (removelast (parts new_path))
            = false) as Hnp.
    { destruct (PurePath.is_prefix _ (removelast _)) eqn:E; [|done].
      apply is_prefix_removelast in E. revert Ecp. unfold FS.copytree.
      rewrite Hn1. destruct (FS.exists_ fs1 new_path); [done|]. by rewrite E. }
    rewrite (mkdirs_lookup_frame _ _ _ _ Emk Hnp), Hn in Hn1.
    injection Hn1 as <-.
    repeat split; first [done | by destruct s].
Qed.



(** ** Deleting a model and scanning for missing ones *)

Lemma stored_path_valid p root :
  Forall valid_name (parts p) → Forall valid_name (parts (stored_path p root)).
Proof.
  intros Hp. unfold stored_path. destruct (PurePath.is_relative_to p root);
    [|done]. simpl. by apply Forall_drop.
Qed.

(** The path that a record written by [_register] leads back to. *)
Lemma recorded_path_registered p root :
  anchored p = true → Forall valid_name (parts p) →
  PurePath.join_str root (PurePath.as_posix (stored_path p root)) = p.
Proof.
  intros Ha Hp. rewrite join_str_as_posix by by apply stored_path_valid.
  destruct (stored_path_spec p root Ha) as (_ & Hin & Hout).
  destruct (PurePath.is_relative_to p root) eqn:E; [by apply Hin|].
  rewrite Hout by done. unfold PurePath.join. by rewrite Ha.
Qed.

Lemma resolve_parts p : parts (PurePath.resolve p) = parts p.
Proof. done. Qed.

(** X13: [delete] undoes [_register]. For a model outside the models
    directory the record goes and the disk is untouched: the state is the
    one before the registration. For a model inside the models directory
    the record goes and so do the files: nothing is left at the path of
    the model; when nothing was there, only the record goes. *)
Theorem delete_after_register (H : Host) (model_path : Path)
    (config : gmap string string) (info : option ModelConfig.t)
    (s s1 : State) (key : string) :
  Forall valid_name (parts model_path) →
  _register H model_path config info s = Ok key s1 →
  let p := PurePath.resolve model_path in
  let root := AppConfig.models_path (_app_config s) in
  (PurePath.is_relative_to p root = false → delete_ key s1 = Ok tt s)
  ∧ (PurePath.is_relative_to p root = true →
     (FS.lookup (st_fs s) (parts p) = None → delete_ key s1 = Ok tt s)
     ∧ (∀ n, FS.lookup (st_fs s) (parts p) = Some n → parts p ≠ [] →
          ∃ fs', delete_ key s1 = Ok tt (set_st_fs fs' s)
                 ∧ FS.lookup fs' (parts p) = None)).
Proof.
  intros Hvalid Hreg p root.
  pose proof (register_result H model_path config info s) as Hres.
  rewrite Hreg in Hres.
  destruct Hres as (info0 & record & _ & _ & -> & Hnone & Hkey & Hpath).
  fold p root in Hpath.
  assert (PurePath.join_str root (ModelConfig.path record) = p) as Hback.
  { rewrite Hpath. by apply recorded_path_registered. }
  set (s1 := set__record_store (<[key:=record]> (_record_store s)) s).
  assert (∀ fs', del_model key (set_st_fs fs' s1) = Ok tt (set_st_fs fs' s))
    as Hdel.
  { intros fs'. unfold del_model, s1. destruct s; simpl in *.
    rewrite lookup_insert_eq. by rewrite delete_insert_id. }
  assert (unregister key s1 = Ok tt s) as Hunreg.
  { unfold unregister.
    replace s1 with (set_st_fs (st_fs s) s1) by (unfold s1; by destruct s).
    rewrite Hdel. by destruct s. }
  assert (_record_store s1 !! key = Some record) as Hrec
    by (unfold s1; destruct s; simpl; apply lookup_insert_eq).
  assert (AppConfig.models_path (_app_config s1) = root) as Hroot
    by (unfold s1; by destruct s).
  assert (st_fs s1 = st_fs s) as Hfs by (unfold s1; by destruct s).
  assert (delete_ key s1
          = if PurePath.is_relative_to p root
            then unconditionally_delete key s1 else unregister key s1)
    as Hdelete.
  { unfold delete_. rewrite bind_unfold. unfold get_model at 1. rewrite Hrec.
    rewrite bind_unfold. unfold gets at 1. cbv beta iota zeta delta [id].
    rewrite Hroot, Hback. by destruct (PurePath.is_relative_to p root). }
  assert (unconditionally_delete key s1
          = match FS.lookup (st_fs s) (parts p) with
            | Some (File _) =>
                (fs_call (λ fs, FS.unlink fs p);; unregister key) s1
            | Some (Dir _) =>
                (fs_call (λ fs, FS.rmtree fs p);; unregister key) s1
            | None => unregister key s1
            end) as Huncond.
  { unfold unconditionally_delete. rewrite bind_unfold. unfold get_model.
    rewrite Hrec. rewrite bind_unfold. unfold gets.
    cbv beta iota zeta delta [id]. rewrite Hroot, Hback.
    unfold FS.is_file, FS.is_dir. rewrite Hfs.
    by destruct (FS.lookup (st_fs s) (parts p)) as [[|]|]. }
  rewrite Hdelete, Huncond. clearbody p root. split.
  - by intros ->.
  - intros ->. split.
    + by intros ->.
    + intros n Hn Hne. rewrite Hn.
      destruct (remove_exists _ _ _ Hne Hn) as [fs' Hrm].
      exists fs'. split; [|by eapply lookup_remove_eq].
      destruct n as [d|l]; rewrite bind_unfold; unfold fs_call, unregister;
        rewrite Hfs; unfold FS.unlink, FS.rmtree; rewrite Hn, Hrm;
        by rewrite Hdel.
Qed.

Lemma sample_model_path_valid : Forall valid_name (parts sample_model_path).
Proof. repeat (constructor; [by repeat split|]). constructor. Qed.

Lemma delete_after_register_witness :
  ∃ fs', delete_ "key-foo" sample_state_registered
         = Ok tt (set_st_fs fs' sample_state)
         ∧ FS.lookup fs' (parts sample_model_path) = None.
Proof.
  assert (_register sample_host sample_model_path ∅ None sample_state
          = Ok "key-foo" sample_state_registered) as Hrun
    by (vm_compute; reflexivity).
  destruct (delete_after_register sample_host sample_model_path ∅ None
              sample_state sample_state_registered "key-foo"
              sample_model_path_valid Hrun) as [_ Hin].
  destruct (Hin eq_refl) as [_ Hthere].
  apply (Hthere (Dir [("weights", File "0123")]) eq_refl).
  discriminate.
Defined.

Lemma all_models_elem s record :
  record ∈ all_models s ↔ ∃ key, _record_store s !! key = Some record.
Proof.
  unfold all_models. rewrite list_elem_of_fmap. split.
  - intros ([k r] & -> & Hin). apply elem_of_map_to_list in Hin. by exists k.
  - intros [k Hk]. exists (k, record). split; [done|].
    by apply elem_of_map_to_list.
Qed.

(** The record that [_register] writes leads back to the model. *)
Lemma register_recorded (H : Host) model_path config info s s1 key :
  Forall valid_name (parts model_path) →
  _register H model_path config info s = Ok key s1 →
  ∃ record,
    _record_store s1 !! key = Some record
    ∧ recorded_path s1 record = PurePath.resolve model_path.
Proof.
  intros Hvalid Hreg.
  pose proof (register_result H model_path config info s) as Hres.
  rewrite Hreg in Hres.
  destruct Hres as (info0 & record & _ & _ & -> & Hnone & Hkey & Hpath).
  exists record.
  set (s1 := set__record_store (<[key:=record]> (_record_store s)) s).
  split; [unfold s1; destruct s; simpl; apply lookup_insert_eq|].
  unfold recorded_path.
  assert (AppConfig.models_path (_app_config s1)
          = AppConfig.models_path (_app_config s)) as ->
    by (unfold s1; by destruct s).
  rewrite Hpath. by rewrite recorded_path_registered.
Qed.

(** X14: the record that [_register] writes leads back to the resolved
    path of the model, and [_scan_for_missing_models] reports it exactly
    when nothing exists at that path. *)
Theorem missing_after_register (H : Host) (model_path : Path)
    (config : gmap string string) (info : option ModelConfig.t)
    (s s1 : State) (key : string) :
  Forall valid_name (parts model_path) →
  _register H model_path config info s = Ok key s1 →
  ∃ record,
    _record_store s1 !! key = Some record
    ∧ recorded_path s1 record = PurePath.resolve model_path
    ∧ (record ∈ _scan_for_missing_models s1
       ↔ FS.exists_ (st_fs s1) (PurePath.resolve model_path) = false).
Proof.
  intros Hvalid Hreg.
  destruct (register_recorded _ _ _ _ _ _ _ Hvalid Hreg)
    as (record & Hrec & Hback).
  exists record. split; [done|]. split; [done|].
  unfold _scan_for_missing_models.
  rewrite list_elem_of_In, filter_In, <- list_elem_of_In, Hback.
  rewrite negb_true_iff, all_models_elem. split; [by intros []|].
  intros Hex. split; [by exists key|done].
Qed.

Lemma missing_after_register_witness :
  ∃ record,
    _record_store sample_state_registered !! "key-foo" = Some record
    ∧ record ∉ _scan_for_missing_models sample_state_registered.
Proof.
  assert (_register sample_host sample_model_path ∅ None sample_state
          = Ok "key-foo" sample_state_registered) as Hrun
    by (vm_compute; reflexivity).
  destruct (missing_after_register sample_host sample_model_path ∅ None
              sample_state sample_state_registered "key-foo"
              sample_model_path_valid Hrun)
    as (record & Hrec & _ & Hmissing).
  exists record. split; [exact Hrec|].
  intros Hin. apply Hmissing in Hin. discriminate Hin.
Defined.

(** ** The matcher and what a pattern matches *)

Lemma is_Some_or {A} (o1 o2 : option A) :
  is_Some (match o1 with Some c => Some c | None => o2 end)
  ↔ is_Some o1 ∨ is_Some o2.
Proof.
  destruct o1; split; eauto. intros [[? ?]|?]; [done|done].
Qed.

Lemma plus_from_is_Some p : ∀ s k,
  is_Some (Regex.plus_from p s k) ↔
  ∃ pre post, s = pre +:+ post ∧ pre ≠ "" ∧ str_forall p pre = true
              ∧ is_Some (k post).
Proof.
  induction s as [|c s IH]; intros k.
  - simpl. split; [by intros [? ?]|].
    intros (pre & post & E & Hne & _). destruct pre; [done|].
    by rewrite str_append_cons in E.
  - cbn [Regex.plus_from]. destruct (p c) eqn:Ec.
    + rewrite is_Some_or, IH. split.
      * intros [(pre & post & -> & Hne & Hall & Hk)|Hk].
        -- exists (String c pre), post. rewrite str_append_cons.
           repeat split; try done. simpl. by rewrite Ec.
        -- exists (String c ""), s. repeat split; try done. simpl.
           by rewrite Ec.
      * intros (pre & post & E & Hne & Hall & Hk).
        destruct pre as [|c' pre]; [done|].
        rewrite str_append_cons in E. injection E as <- ->.
        simpl in Hall. apply andb_true_iff in Hall as [_ Hall].
        destruct pre as [|c2 pre]; [by right|].
        left. exists (String c2 pre), post. by repeat split.
    + split; [by intros [? ?]|].
      intros (pre & post & E & Hne & Hall & Hk).
      destruct pre as [|c' pre]; [done|].
      rewrite str_append_cons in E. injection E as <- ->.
      simpl in Hall. rewrite Ec in Hall. done.
Qed.

(** The matcher finds a match exactly when the pattern has one, for a
    continuation whose success does not depend on the groups. *)
Lemma run_is_Some r : ∀ s caps k,
  (∀ s' c1 c2, is_Some (k s' c1) → is_Some (k s' c2)) →
  is_Some (Regex.run r s caps k) ↔ ∃ s', re_lang r s s' ∧ is_Some (k s' caps).
Proof.
  induction r as [l|p|p|r1 IH1 r2 IH2|r1 IH1 r2 IH2|r1 IH1|n r1 IH1|];
    intros s caps k Hk; cbn [Regex.run re_lang].
  - destruct (Regex.strip_prefix l s) as [s'|] eqn:E.
    + apply strip_prefix_spec in E as ->. split; [eauto|].
      intros (s2 & E & Hs2). apply str_append_inj_l in E as <-. done.
    + rewrite strip_prefix_None in E. split; [by intros [? ?]|].
      intros (s2 & -> & _). by destruct (E s2).
  - destruct s as [|c s]; [split; [by intros [? ?]|by intros (? & (? & ? & ?) & ?)]|].
    destruct (p c) eqn:Ec.
    + split; [eauto 6|]. by intros (s' & (c' & [= <- <-] & _) & Hs').
    + split; [by intros [? ?]|].
      intros (s' & (c' & [= <- <-] & Hc) & _). congruence.
  - rewrite plus_from_is_Some. split.
    + intros (pre & post & -> & Hne & Hall & Hpost). eauto 6.
    + intros (s' & (pre & -> & Hne & Hall) & Hs'). eauto 6.
  - rewrite IH1.
    2:{ intros s' c1 c2. rewrite !IH2 by done.
        intros (s2 & Hl & Hs2). exists s2. split; [done|]. by eapply Hk. }
    split.
    + intros (m & Hm & Hrun). apply IH2 in Hrun as (s' & Hs' & Hks'); [|done].
      eauto.
    + intros (s' & (m & Hm & Hs') & Hks'). exists m. split; [done|].
      apply IH2; [done|]. eauto.
  - rewrite is_Some_or, IH1, IH2 by done. split.
    + intros [(s' & ? & ?)|(s' & ? & ?)]; eauto.
    + intros (s' & [?|?] & ?); eauto.
  - rewrite is_Some_or, IH1 by done. split.
    + intros [(s' & ? & ?)|?]; eauto.
    + intros (s' & [?| ->] & ?); eauto.
  - rewrite IH1.
    2:{ intros s' c1 c2. apply Hk. }
    split; intros (s' & ? & ?); exists s'; (split; [done|]); by eapply Hk.
  - case_bool_decide as E; [case_bool_decide as E'|]; simpl.
    + split; [eauto|]. by intros (s' & [-> _] & ?).
    + split; [eauto|]. by intros (s' & [-> _] & ?).
    + case_bool_decide as E'; simpl.
      * split; [eauto|]. by intros (s' & [-> _] & ?).
      * split; [by intros [? ?]|]. intros (s' & [-> [?|?]] & ?); done.
Qed.

Lemma match_is_Some r s :
  is_Some (Regex.match_ r s) ↔ ∃ s', re_lang r s s'.
Proof.
  unfold Regex.match_. rewrite run_is_Some by eauto.
  split; intros (s' & ?); [by exists s'; tauto|eauto].
Qed.

Lemma str_forall_none_of cs x :
  str_forall (Regex.none_of cs) x = true ↔ ∀ c, Str.mem c cs = true → Str.mem c x = false.
Proof.
  induction x as [|d x IH]; simpl; [done|].
  rewrite andb_true_iff, IH. unfold Regex.none_of. rewrite negb_true_iff.
  split.
  - intros [Hd Hx] c Hc. rewrite (Hx c Hc), orb_false_r.
    destruct (Ascii.eqb_spec c d) as [->|]; [congruence|done].
  - intros Hall. split.
    + destruct (Str.mem d cs) eqn:E; [|done].
      specialize (Hall d E). by rewrite Ascii.eqb_refl in Hall.
    + intros c Hc. specialize (Hall c Hc).
      by apply orb_false_iff in Hall as [_ ?].
Qed.

Lemma str_forall_no_slash x :
  str_forall (Regex.none_of "/") x = true ↔ Str.mem "/" x = false.
Proof.
  rewrite str_forall_none_of. split.
  - intros Hall. by apply Hall.
  - intros Hx c Hc. simpl in Hc. rewrite orb_false_r in Hc.
    by apply Ascii.eqb_eq in Hc as ->.
Qed.

Lemma hf_url_re_spec u :
  is_Some (Regex.match_ hf_url_re u) ↔ hf_repo_url u.
Proof.
  rewrite match_is_Some. unfold hf_url_re, Regex.seq, hf_repo_url.
  cbn [re_lang]. split.
  - intros (s' & m1 & -> & m2 & Hs & m3 & -> & m4 & (c & -> & Hc) & m5 & ->
            & m6 & (owner & -> & Hown & Hoall) & m7 & ->
            & m8 & (repo & -> & Hrepo & Hrall) & -> & Hend).
    apply str_forall_no_slash in Hoall, Hrall.
    assert (c ≠ Regex.newline) as Hc'.
    { unfold Regex.any_char in Hc. apply negb_true_iff in Hc.
      by apply Ascii.eqb_neq in Hc. }
    assert (repo +:+ m8 ≠ "") as Hrepo'.
    { destruct repo; [done|]. by rewrite str_append_cons. }
    assert (Str.mem "/" (repo +:+ m8) = false) as Hrall'.
    { rewrite str_mem_app, Hrall. by destruct Hend as [->| ->]. }
    destruct Hs as [->|<-].
    + exists "https"%string, c, owner, (repo +:+ m8). by repeat split; auto.
    + exists "http"%string, c, owner, (repo +:+ m8). by repeat split; auto.
  - intros (scheme & c & owner & repo & -> & Hs & Hc & Hown & Hrepo
            & Hoall & Hrall).
    apply str_forall_no_slash in Hoall, Hrall.
    assert (Regex.any_char c = true) as Hc'.
    { unfold Regex.any_char. apply negb_true_iff. by apply Ascii.eqb_neq. }
    exists "".
    destruct Hs as [->| ->].
    + eexists. split; [reflexivity|]. eexists. split; [by right|].
      eexists. split; [reflexivity|]. eexists. split; [by exists c|].
      eexists. split; [reflexivity|]. eexists. split; [by exists owner|].
      eexists. split; [reflexivity|]. eexists. split.
      { exists repo. by rewrite str_append_nil_r. }
      split; [done|by left].
    + eexists. split; [reflexivity|]. eexists. split; [by left|].
      eexists. split; [reflexivity|]. eexists. split; [by exists c|].
      eexists. split; [reflexivity|]. eexists. split; [by exists owner|].
      eexists. split; [reflexivity|]. eexists. split.
      { exists repo. by rewrite str_append_nil_r. }
      split; [done|by left].
Qed.

(** X15: [get_fetcher_from_url] finds a fetcher exactly for the URLs
    that, in lower case, read [http://] or [https://], [huggingface], one
    character other than a newline, [co/], an owner and a repository name
    without slash, and nothing more; every other URL raises [ValueError]
    with the URL in the message. *)
Theorem get_fetcher_from_url_spec (url : string) :
  (hf_repo_url (Str.lower url) → get_fetcher_from_url url = inr tt)
  ∧ (¬ hf_repo_url (Str.lower url) →
     get_fetcher_from_url url
     = inl (ValueError ("Unsupported model source: '" +:+ url +:+ "'"))).
Proof.
  unfold get_fetcher_from_url.
  destruct (Regex.match_ hf_url_re (Str.lower url)) as [m|] eqn:E.
  - split; [done|]. intros Hno. destruct Hno. apply hf_url_re_spec.
    rewrite E. by eexists.
  - split; [|done]. intros Hyes. apply hf_url_re_spec in Hyes.
    rewrite E in Hyes. by destruct Hyes.
Qed.

Lemma get_fetcher_from_url_spec_witness :
  get_fetcher_from_url "https://HuggingFace.co/a/b" = inr tt
  ∧ get_fetcher_from_url "https://example.com/model.safetensors"
    = inl (ValueError
             "Unsupported model source: 'https://example.com/model.safetensors'").
Proof.
  split.
  - apply (proj1 (get_fetcher_from_url_spec "https://HuggingFace.co/a/b")).
    exists "https", "."%char, "a", "b". by repeat split; [right|..].
  - reflexivity.
Defined.

(** [+] is greedy: the longest run of characters of the class is tried
    first. *)
Lemma plus_from_greedy p pre : ∀ post k r,
  pre ≠ "" → str_forall p pre = true →
  match post with String c _ => p c = false | EmptyString => True end →
  k post = Some r →
  Regex.plus_from p (pre +:+ post) k = Some r.
Proof.
  induction pre as [|c pre IH]; intros post k r Hne Hall Hpost Hk; [done|].
  rewrite str_append_cons. cbn [Regex.plus_from].
  simpl in Hall. apply andb_true_iff in Hall as [-> Hall].
  destruct pre as [|c2 pre].
  - change ("" +:+ post) with post.
    assert (Regex.plus_from p post k = None) as ->; [|done].
    destruct post as [|d post]; [done|]. simpl. by rewrite Hpost.
  - by rewrite (IH post k r).
Qed.

Lemma str_take_all s : Str.take (String.length s) s = s.
Proof. induction s as [|c s IH]; [done|]. simpl. by rewrite IH. Qed.

Lemma str_forall_repo x :
  str_forall (Regex.none_of "/:") x = true
  ↔ Str.mem "/" x = false ∧ Str.mem ":" x = false.
Proof.
  rewrite str_forall_none_of. split.
  - intros Hall. split; by apply Hall.
  - intros [Hs Hc] c Hm. simpl in Hm. rewrite orb_false_r in Hm.
    apply orb_true_iff in Hm as [E|E]; apply Ascii.eqb_eq in E as ->; done.
Qed.

Lemma hf_repoid_plain (vs : list string) (owner repo : string) :
  owner ≠ "" → repo ≠ "" →
  Str.mem "/" owner = false → Str.mem ":" owner = false →
  Str.mem "/" repo = false → Str.mem ":" repo = false →
  Regex.match_ (hf_repoid_re vs) (owner +:+ "/" +:+ repo)
  = Some {[1 := owner +:+ "/" +:+ repo]}.
Proof.
  intros Hown Hrepo Ho1 Ho2 Hr1 Hr2.
  unfold Regex.match_, hf_repoid_re, Regex.seq. cbn [Regex.run].
  erewrite (plus_from_greedy _ owner ("/" +:+ repo)); [reflexivity|done| | |].
  - by apply str_forall_repo.
  - done.
  - cbv beta. rewrite (str_append_cons "/" "" repo).
    cbn [Regex.run Regex.strip_prefix]. rewrite Ascii.eqb_refl.
    change ("" +:+ repo) with repo.
    rewrite <- (str_append_nil_r repo) at 1.
    erewrite (plus_from_greedy _ repo ""); [reflexivity|done| |done|].
    + by apply str_forall_repo.
    + cbv beta. cbn [Regex.run Regex.strip_prefix].
      rewrite bool_decide_eq_true_2 by done. cbn [orb].
      change (String.length "") with 0.
      rewrite Nat.sub_0_r, str_take_all. done.
Qed.

(** X16: a string [owner/repo] that names nothing on disk, with owner
    and repository name non-empty and free of [/] and [:], is read by
    [heuristic_import] as the repository of that id, without variant or
    subfolder, with the access token that was given. *)
Theorem heuristic_source_repo_id (H : Host) (owner repo : string)
    (access_token : option string) (inplace : option bool) (s : State) :
  owner ≠ "" → repo ≠ "" →
  Str.mem "/" owner = false → Str.mem ":" owner = false →
  Str.mem "/" repo = false → Str.mem ":" repo = false →
  let source := owner +:+ "/" +:+ repo in
  FS.exists_ (st_fs s) (PurePath.of_string source) = false →
  heuristic_source H source access_token inplace s
  = Ok (HFModelSource source None None access_token) s.
Proof.
  intros Hown Hrepo Ho1 Ho2 Hr1 Hr2 source Hex.
  unfold heuristic_source. rewrite bind_unfold. unfold gets.
  cbv beta iota zeta delta [id]. rewrite Hex.
  unfold source. rewrite hf_repoid_plain by done.
  reflexivity.
Qed.

Lemma heuristic_source_repo_id_witness :
  heuristic_source sample_host "stabilityai/sdxl-turbo" None None sample_state
  = Ok (HFModelSource "stabilityai/sdxl-turbo" None None None) sample_state.
Proof.
  apply (heuristic_source_repo_id sample_host "stabilityai" "sdxl-turbo"
           None None sample_state); done.
Defined.

(** ** Submitting a local source *)

Lemma similar_jobs_app_new (jobs : list Job.t) source table j :
  (∀ r, r ∈ table → r < length jobs) →
  List.filter
    (λ r, match (jobs ++ [j]) !! r with
          | Some x => bool_decide (Job.source x = source)
                      && negb (Job.in_terminal_state x)
          | None => false
          end) table
  = List.filter
      (λ r, match jobs !! r with
            | Some x => bool_decide (Job.source x = source)
                        && negb (Job.in_terminal_state x)
            | None => false
            end) table.
Proof.
  induction table as [|r table IH]; intros Hvalid; [done|]. simpl.
  rewrite lookup_app_l by (apply Hvalid; left).
  rewrite IH; [done|]. intros x Hx. apply Hvalid. by right.
Qed.



(** X18: a repository or a URL whose metadata lists no file is refused:
    [import_model] raises [ValueError] and the state is the one before the
    call: no scratch directory, no job, no id given out. *)
Theorem import_model_no_files (H : Host) (config : gmap string string)
    (s : State) :
  (∀ repo_id variant subfolder access_token metadata,
     let source := HFModelSource repo_id variant subfolder access_token in
     similar_jobs s source = [] →
     hf_from_id H repo_id variant (or_else variant (guess_variant H)) subfolder
     = inr (metadata, []) →
     ∃ msg, import_model H source config s = Raise (ValueError msg) s)
  ∧ (∀ url access_token metadata,
       let source := URLModelSource url access_token in
       similar_jobs s source = [] →
       get_fetcher_from_url url = inr tt →
       hf_from_url H url = inr (metadata, []) →
       ∃ msg, import_model H source config s = Raise (ValueError msg) s).
Proof.
  split.
  - intros repo_id variant subfolder access_token metadata source Hsim Hfiles.
    unfold import_model. rewrite bind_unfold. unfold gets at 1.
    cbv beta iota zeta delta [id]. rewrite Hsim. unfold source.
    rewrite bind_unfold. unfold _import_from_hf. rewrite bind_unfold.
    rewrite Hfiles. simpl. by eexists.
  - intros url access_token metadata source Hsim Hfetch Hfiles.
    unfold import_model. rewrite bind_unfold. unfold gets at 1.
    cbv beta iota zeta delta [id]. rewrite Hsim. unfold source.
    rewrite bind_unfold. unfold _import_from_url. rewrite bind_unfold.
    rewrite Hfetch. rewrite bind_unfold. rewrite Hfiles. simpl. by eexists.
Qed.

Lemma import_model_no_files_witness :
  ∃ msg, import_model sample_host_bare sample_repo ∅ sample_state
         = Raise (ValueError msg) sample_state.
Proof.
  apply (proj1 (import_model_no_files sample_host_bare ∅ sample_state)
           "a/b" None None None OtherMetadata eq_refl eq_refl).
Defined.

(** ** Submitting a URL *)

Lemma mkdir_new fs dir nm l :
  FS.lookup fs dir = Some (Dir l) →
  FS.lookup fs (dir ++ [nm]) = None →
  ∃ fs', FS.mkdir fs (mkPath true (dir ++ [nm])) = inr fs'
         ∧ FS.lookup fs' (dir ++ [nm]) = Some (Dir [])
         ∧ FS.put fs (dir ++ [nm]) (Dir []) = Some fs'.
Proof.
  intros Hdir Hnone. unfold FS.mkdir. simpl. rewrite Hnone.
  rewrite removelast_last, Hdir.
  assert (is_Some (FS.put fs (dir ++ [nm]) (Dir []))) as [fs' Hput].
  { clear Hnone. revert fs l Hdir.
    induction dir as [|x dir IH]; intros fs l Hdir; simpl in *.
    - injection Hdir as ->. by eexists.
    - destruct fs as [|l0]; [done|].
      destruct (FS.assoc x l0) as [c|]; [|done].
      destruct (IH c l Hdir) as [c' ->].
      destruct (dir ++ [nm]) eqn:E; [by destruct dir|]. by eexists. }
  rewrite Hput. exists fs'. split; [done|]. split; [|done].
  by eapply lookup_put_eq.
Qed.

Ltac mstep :=
  cbv beta iota zeta delta
    [mbind M_bind mret M_ret gets modify fs_call _next_id with_lock new_job
     new_part update_job get_job get_part of_sum raise for_each id fst snd
     st_fs _app_config _record_store _event_bus st_jobs st_parts _install_jobs
     _install_queue st_unfinished_tasks _lock _stop_event
     _downloads_changed_event _install_completed_event _download_queue
     _download_cache _next_job_id
     set_st_fs set__app_config set__record_store set__event_bus set_st_jobs
     set_st_parts set__install_jobs set__install_queue set_st_unfinished_tasks
     set__lock set__stop_event set__downloads_changed_event
     set__install_completed_event set__download_queue set__download_cache
     set__next_job_id
     rf_url rf_path rf_size FS.mkdir_parents source_access_token
     Job.id Job.source Job.config_in Job.config_out Job.source_metadata
     Job.local_path Job._install_tmpdir Job.inplace Job.download_parts
     Job.bytes Job.total_bytes Job.status Job.error Job.error_type
     Job.set_status Job.set_config_in Job.set_config_out Job.set_local_path
     Job.set__install_tmpdir Job.set_download_parts Job.set_bytes
     Job.set_total_bytes Job.set_error_fields Job.cancel].

Lemma insert_app_last {A} (l : list A) x y :
  <[length l := x]> (l ++ [y]) = l ++ [x].
Proof.
  rewrite insert_app_r_alt by done. by rewrite Nat.sub_diag.
Qed.

Lemma lookup_app_last {A} (l : list A) x : (l ++ [x]) !! length l = Some x.
Proof. rewrite lookup_app_r by done. by rewrite Nat.sub_diag. Qed.

(** X19: [import_model] of a URL for which there is no metadata fetcher:
    an empty scratch directory is created in the models directory, a job
    with the next id waits with that directory as its local path, one
    download job for the URL with the scratch directory as destination is
    handed to the download queue and entered in the download cache, and
    nothing is put in the install queue yet. *)
Theorem import_url_model_spec (H : Host) (url : string)
    (access_token : option string) (config : gmap string string)
    (s : State) (l : list (string * node)) :
  let root := AppConfig.models_path (_app_config s) in
  let name := TMPDIR_PREFIX +:+ mkdtemp_suffix H (st_fs s) in
  let tmpdir := mkPath true (parts root ++ [name]) in
  let job := length (st_jobs s) in
  let part := length (st_parts s) in
  _lock s = false →
  similar_jobs s (URLModelSource url access_token) = [] →
  get_fetcher_from_url url
  = inl (ValueError ("Unsupported model source: '" +:+ url +:+ "'")) →
  anchored root = true →
  valid_name name →
  FS.lookup (st_fs s) (parts root) = Some (Dir l) →
  FS.lookup (st_fs s) (parts tmpdir) = None →
  ∃ s',
    import_model H (URLModelSource url access_token) config s = Ok job s'
    ∧ st_jobs s'
      = st_jobs s
        ++ [Job.mk (_next_job_id s) (URLModelSource url access_token) config
                   None None tmpdir (Some tmpdir) false [part] 0 0 WAITING
                   None None]
    ∧ st_parts s'
      = st_parts s
        ++ [DownloadJob.mk url tmpdir access_token None 0 0 None false false]
    ∧ _download_cache s' = <[url := job]> (_download_cache s)
    ∧ _download_queue s' = _download_queue s ++ [part]
    ∧ _install_jobs s' = _install_jobs s ++ [job]
    ∧ _install_queue s' = _install_queue s
    ∧ _next_job_id s' = S (_next_job_id s)
    ∧ FS.lookup (st_fs s') (parts tmpdir) = Some (Dir [])
    ∧ FS.put (st_fs s) (parts tmpdir) (Dir []) = Some (st_fs s').
Proof.
  intros root name tmpdir job part Hlock Hsim Hfetch Hroot Hname Hdir Hnone.
  subst tmpdir job part. cbn [parts] in *.
  destruct (mkdir_new _ _ _ _ Hdir Hnone) as (fs' & Hmk & Hnew & Hput).
  assert (PurePath.join_str root name = mkPath true (parts root ++ [name]))
    as Htmp.
  { unfold PurePath.join_str. rewrite of_string_name by done.
    unfold PurePath.join. simpl. by rewrite Hroot. }
  assert (FS.mkdirs fs' (parts root ++ [name] ++ []) = inr fs') as Hmkdirs.
  { rewrite app_nil_r. by eapply mkdirs_existing. }
  unfold import_model. rewrite bind_unfold. unfold gets at 1.
  cbv beta iota zeta delta [id]. rewrite Hsim.
  unfold _import_from_url. rewrite Hfetch.
  unfold _import_remote_model.
  destruct s as [fs cfg store bus jobs dparts ijobs queue unfinished lock
                  stop dch ich dq cache next].
  cbv beta iota zeta delta
    [st_fs _app_config _record_store _event_bus st_jobs st_parts _install_jobs
     _install_queue st_unfinished_tasks _lock _stop_event
     _downloads_changed_event _install_completed_event _download_queue
     _download_cache _next_job_id] in *.
  subst lock. mstep. fold root. fold name. rewrite Htmp, Hmk. mstep.
  rewrite !lookup_app_last. mstep. rewrite !insert_app_last.
  change (PurePath.relative_to (mkPath false []) (mkPath false []))
    with (inr (A:=exn) (mkPath false [])).
  mstep. rewrite !lookup_app_last. mstep. rewrite !insert_app_last.
  unfold PurePath.join, PurePath.parent. cbn [anchored parts removelast app].
  rewrite !app_nil_r. rewrite (mkdirs_existing _ _ _ Hnew). mstep.
  rewrite !lookup_app_last. mstep. rewrite !insert_app_last.
  cbn [Nat.add app].
  eexists. split; [reflexivity|]. by repeat split.
Qed.

Lemma import_url_model_spec_witness :
  ∃ s', import_model sample_host
          (URLModelSource "https://example.com/model.safetensors" None) ∅
          sample_state = Ok 0 s'
        ∧ _download_cache s' !! "https://example.com/model.safetensors"
          = Some 0
        ∧ FS.lookup (st_fs s') (parts sample_tmpdir) = Some (Dir []).
Proof.
  assert (valid_name "tmpinstall_k3j2x9") as Hname by (by repeat split).
  destruct (import_url_model_spec sample_host
              "https://example.com/model.safetensors" None ∅ sample_state
              [("sdxl",
                Dir [("main",
                      Dir [("x.safetensors", File "installed");
                           ("foo", Dir [("weights", File "0123")])])])]
              eq_refl eq_refl eq_refl eq_refl
              Hname
              eq_refl eq_refl)
    as (s' & Hc & _ & _ & Hcache & _ & _ & _ & _ & Hdir & _).
  exists s'. split; [exact Hc|]. split; [by rewrite Hcache | exact Hdir].
Defined.

(** ** The scan for orphaned models *)

(** X20: the callback of the scan for orphaned models. A path that is
    already installed is found and nothing is registered; a path under
    [core] of the models directory is skipped; any other path is found,
    after at most one record has been added under a key that was free: a
    duplicate is ignored, any other failure of the registration is raised
    with the state unchanged. *)
Theorem on_model_found_spec (H : Host) (installed : list Path)
    (model_path : Path) (s : State) :
  let resolved_path := PurePath.resolve model_path in
  let core :=
    PurePath.as_posix
      (PurePath.join_str (AppConfig.models_path (_app_config s)) "core") in
  (resolved_path ∈ installed →
   on_model_found H installed model_path s = Ok true s)
  ∧ (resolved_path ∉ installed →
     String.prefix core (PurePath.as_posix resolved_path) = true →
     on_model_found H installed model_path s = Ok false s)
  ∧ (resolved_path ∉ installed →
     String.prefix core (PurePath.as_posix resolved_path) = false →
     match on_model_found H installed model_path s with
     | Ok found s' =>
         found = true
         ∧ (s' = s
            ∨ ∃ key record,
                s' = set__record_store (<[key := record]> (_record_store s)) s
                ∧ _record_store s !! key = None)
     | Raise e s' => e ≠ DuplicateModelException ∧ s' = s
     | Blocked _ => False
     end).
Proof.
  intros resolved_path core. unfold on_model_found.
  rewrite bind_unfold. unfold gets. cbv beta iota zeta delta [id].
  fold resolved_path core. split; [|split].
  - intros Hin. by rewrite bool_decide_eq_true_2.
  - intros Hnotin Hcore. rewrite bool_decide_eq_false_2 by done.
    by rewrite Hcore.
  - intros Hnotin Hcore. rewrite bool_decide_eq_false_2 by done.
    rewrite Hcore. rewrite bind_unfold. unfold try_except.
    rewrite bind_unfold. unfold register_path.
    pose proof (register_result H model_path
                  (register_path_config H model_path ∅) None s) as Hres.
    destruct (_register H model_path _ None s) as [key s1|e s1|s1];
      [| |done].
    + destruct Hres as (info0 & record & _ & _ & -> & Hnone & _).
      split; [done|]. right. by exists key, record.
    + subst s1. destruct e; simpl; try done. split; [done|]. by left.
Qed.

Lemma on_model_found_spec_witness :
  on_model_found sample_host [sample_model_path] sample_model_path
                 sample_state = Ok true sample_state
  ∧ on_model_found sample_host []
      (mkPath true ["invokeai"; "models"; "core"; "upscaler"]) sample_state
    = Ok false sample_state.
Proof.
  split.
  - apply (proj1 (on_model_found_spec sample_host [sample_model_path]
                    sample_model_path sample_state)).
    apply list_elem_of_here.
  - apply (proj1 (proj2 (on_model_found_spec sample_host []
                           (mkPath true ["invokeai"; "models"; "core";
                                         "upscaler"]) sample_state)));
      [apply not_elem_of_nil | reflexivity].
Defined.

(** X21: a model that has been registered is among the installed paths
    that [_register_orphaned_models] computes, so the scan finds it and
    registers nothing. *)
Theorem registered_model_found (H : Host) (model_path : Path)
    (config : gmap string string) (info : option ModelConfig.t)
    (s s1 : State) (key : string) :
  Forall valid_name (parts model_path) →
  _register H model_path config info s = Ok key s1 →
  PurePath.resolve model_path ∈ installed_model_paths s1
  ∧ on_model_found H (installed_model_paths s1) model_path s1 = Ok true s1.
Proof.
  intros Hvalid Hreg.
  destruct (register_recorded _ _ _ _ _ _ _ Hvalid Hreg)
    as (record & Hrec & Hback).
  assert (PurePath.resolve model_path ∈ installed_model_paths s1) as Hin.
  { unfold installed_model_paths. apply list_elem_of_fmap.
    exists record. split; [done|]. apply all_models_elem. by exists key. }
  split; [done|].
  unfold on_model_found. rewrite bind_unfold. unfold gets.
  cbv beta iota zeta delta [id]. by rewrite bool_decide_eq_true_2.
Qed.

Lemma registered_model_found_witness :
  on_model_found sample_host (installed_model_paths sample_state_registered)
                 sample_model_path sample_state_registered
  = Ok true sample_state_registered.
Proof.
  assert (_register sample_host sample_model_path ∅ None sample_state
          = Ok "key-foo" sample_state_registered) as Hrun
    by (vm_compute; reflexivity).
  exact (proj2 (registered_model_found sample_host sample_model_path ∅ None
                  sample_state sample_state_registered "key-foo"
                  sample_model_path_valid Hrun)).
Defined.

(** ** Entries of a directory *)

Lemma lookup_app p : ∀ fs q,
  FS.lookup fs (p ++ q)
  = match FS.lookup fs p with Some n => FS.lookup n q | None => None end.
Proof.
  induction p as [|x p IH]; intros fs q; [done|]. simpl.
  destruct fs as [|l]; [done|]. destruct (FS.assoc x l); [|done]. apply IH.
Qed.

Lemma remove_child root : ∀ fs l nm c,
  FS.lookup fs root = Some (Dir l) → FS.assoc nm l = Some c →
  ∃ fs', FS.remove fs (root ++ [nm]) = Some fs'
         ∧ FS.lookup fs' root = Some (Dir (FS.del_assoc nm l)).
Proof.
  induction root as [|x root IH]; intros fs l nm c Hroot Hc; simpl in *.
  - injection Hroot as ->. rewrite Hc. by eexists.
  - destruct fs as [|l0]; [done|].
    destruct (FS.assoc x l0) as [c0|] eqn:Ex; [|done].
    destruct (IH c0 l nm c Hroot Hc) as (c0' & Hrm & Hl).
    rewrite Hrm. destruct (root ++ [nm]) eqn:E; [by destruct root|].
    eexists. split; [done|]. simpl. by rewrite assoc_set_assoc_eq.
Qed.

Lemma is_prefix_app_l p q : PurePath.is_prefix p (p ++ q) = true.
Proof.
  induction p as [|x p IH]; [done|]. simpl.
  by rewrite bool_decide_eq_true_2.
Qed.

Lemma is_prefix_trans p q r :
  PurePath.is_prefix p q = true → PurePath.is_prefix q r = true →
  PurePath.is_prefix p r = true.
Proof.
  revert q r. induction p as [|x p IH]; intros q r; [done|].
  destruct q as [|y q]; [done|]. destruct r as [|z r]; [done|]. simpl.
  intros [Hxy Hpq]%andb_true_iff [Hyz Hqr]%andb_true_iff.
  apply bool_decide_eq_true in Hxy as ->. rewrite Hyz. simpl. by eapply IH.
Qed.

Lemma is_prefix_snoc p : ∀ q x,
  PurePath.is_prefix p (q ++ [x]) = true →
  PurePath.is_prefix p q = true ∨ p = q ++ [x].
Proof.
  induction p as [|y p IH]; intros q x; [by left|].
  destruct q as [|z q]; simpl.
  - intros [Hyx Hp]%andb_true_iff. apply bool_decide_eq_true in Hyx as ->.
    destruct p; [by right|done].
  - intros [Hyz Hp]%andb_true_iff. apply bool_decide_eq_true in Hyz as ->.
    rewrite bool_decide_eq_true_2 by done. simpl.
    destruct (IH q x Hp) as [?| ->]; [by left|by right].
Qed.

(** Removing the entries [ns] of the directory [root], one [rmtree] after
    the other. *)
Lemma rmtree_entries (a : bool) (root : list string) (s0 : State) :
  ∀ (ns : list string) (fs : node) (l : list (string * node)),
  FS.lookup fs root = Some (Dir l) →
  (∀ nm, nm ∈ ns → ∃ l', FS.assoc nm l = Some (Dir l')) →
  NoDup ns →
  ∃ fs' l',
    for_each ((λ nm, mkPath a (root ++ [nm])) <$> ns)
             (λ tmpdir, fs_call (λ fs, FS.rmtree fs tmpdir))
             (set_st_fs fs s0)
    = Ok tt (set_st_fs fs' s0)
    ∧ FS.lookup fs' root = Some (Dir l')
    ∧ (∀ nm, FS.assoc nm l'
             = if bool_decide (nm ∈ ns) then None else FS.assoc nm l)
    ∧ (∀ p, PurePath.is_prefix root p = false →
            PurePath.is_prefix p root = false →
            FS.lookup fs' p = FS.lookup fs p).
Proof.
  induction ns as [|nm ns IH]; intros fs l Hroot Hdirs Hnd.
  - exists fs, l. repeat split; try done.
  - apply NoDup_cons in Hnd as [Hnm Hnd].
    destruct (Hdirs nm ltac:(left)) as [lnm Hlnm].
    destruct (remove_child root fs l nm _ Hroot Hlnm) as (fs1 & Hrm & Hroot1).
    destruct (IH fs1 (FS.del_assoc nm l) Hroot1) as (fs' & l' & Hrun & Hroot' & Hassoc & Hframe);
      [|done|].
    { intros x Hx. destruct (Hdirs x ltac:(by right)) as [lx Hlx].
      exists lx. rewrite assoc_del_assoc_ne; [done|]. intros ->. done. }
    exists fs', l'. split; [|split; [done|split]].
    + cbn [fmap list_fmap for_each]. rewrite bind_unfold.
      unfold fs_call at 1.
      assert (st_fs (set_st_fs fs s0) = fs) as -> by by destruct s0.
      unfold FS.rmtree. cbn [parts].
      rewrite lookup_app, Hroot. cbn [FS.lookup]. rewrite Hlnm, Hrm.
      assert (set_st_fs fs1 (set_st_fs fs s0) = set_st_fs fs1 s0) as ->
        by by destruct s0.
      done.
    + intros x. rewrite Hassoc. destruct (decide (x = nm)) as [->|Hne].
      * rewrite (bool_decide_eq_true_2 (nm ∈ nm :: ns)) by left.
        rewrite assoc_del_assoc_eq. by case_bool_decide.
      * rewrite assoc_del_assoc_ne by done.
        case_bool_decide as Hx; case_bool_decide as Hx'; try done.
        -- destruct Hx'. by right.
        -- apply elem_of_cons in Hx' as [?|?]; done.
    + intros p Hp1 Hp2. rewrite Hframe by done.
      eapply lookup_remove_frame; [done| |].
      * destruct (PurePath.is_prefix (root ++ [nm]) p) eqn:E; [|done].
        rewrite (is_prefix_trans root (root ++ [nm]) p) in Hp1; [done| |done].
        apply is_prefix_app_l.
      * destruct (PurePath.is_prefix p (root ++ [nm])) eqn:E; [|done].
        apply is_prefix_snoc in E as [E| ->]; [congruence|].
        by rewrite is_prefix_app_l in Hp1.
Qed.

Lemma assoc_is_Some nm (l : list (string * node)) :
  is_Some (FS.assoc nm l) ↔ nm ∈ l.*1.
Proof.
  induction l as [|[y n] l IH]; simpl.
  - split; [by intros [? ?]|by intros ?%elem_of_nil].
  - case_bool_decide as E.
    + subst. split; [intros _; left|by eexists].
    + rewrite IH. split; [by right|]. by intros [?|?]%elem_of_cons.
Qed.

(** X22: [_remove_dangling_install_dirs], when the entries of the models
    directory named [tmpinstall_...] are directories: afterwards no entry
    of that name is left, every other entry of the models directory is as
    it was, and so is the disk outside the models directory; nothing but
    the disk changes. *)
Theorem remove_dangling_install_dirs_spec (s : State)
    (l : list (string * node)) :
  let root := AppConfig.models_path (_app_config s) in
  FS.lookup (st_fs s) (parts root) = Some (Dir l) →
  (∀ nm n, FS.assoc nm l = Some n →
           String.prefix TMPDIR_PREFIX nm = true → ∃ l', n = Dir l') →
  ∃ fs',
    _remove_dangling_install_dirs s = Ok tt (set_st_fs fs' s)
    ∧ (∀ nm, String.prefix TMPDIR_PREFIX nm = true →
             FS.lookup fs' (parts root ++ [nm]) = None)
    ∧ (∀ nm rest, String.prefix TMPDIR_PREFIX nm = false →
                  FS.lookup fs' (parts root ++ nm :: rest)
                  = FS.lookup (st_fs s) (parts root ++ nm :: rest))
    ∧ (∀ p, PurePath.is_prefix (parts root) p = false →
            PurePath.is_prefix p (parts root) = false →
            FS.lookup fs' p = FS.lookup (st_fs s) p).
Proof.
  intros root Hroot Hdirs.
  set (ns := filter (λ nm, String.prefix TMPDIR_PREFIX nm = true)
                    (remove_dups l.*1)).
  assert (∀ nm, nm ∈ ns ↔ nm ∈ l.*1 ∧ String.prefix TMPDIR_PREFIX nm = true)
    as Hns.
  { intros nm. unfold ns. rewrite list_elem_of_filter, elem_of_remove_dups.
    tauto. }
  destruct (rmtree_entries (anchored root) (parts root) s ns (st_fs s) l)
    as (fs' & l' & Hrun & Hroot' & Hassoc & Hframe); [done| | |].
  { intros nm [Hin Hpre]%Hns. apply assoc_is_Some in Hin as [n Hn].
    destruct (Hdirs nm n Hn Hpre) as [l0 ->]. by exists l0. }
  { apply NoDup_filter, NoDup_remove_dups. }
  exists fs'. split; [|split; [|split; [|done]]].
  - unfold _remove_dangling_install_dirs. rewrite bind_unfold. unfold gets.
    cbv beta iota zeta delta [id]. unfold glob_prefix. fold root.
    rewrite Hroot. fold ns.
    replace s with (set_st_fs (st_fs s) s) at 1 by by destruct s.
    apply Hrun.
  - intros nm Hpre. rewrite lookup_app, Hroot'. cbn [FS.lookup].
    rewrite Hassoc. case_bool_decide as Hin; [done|].
    destruct (FS.assoc nm l) as [n|] eqn:En; [|done].
    destruct Hin. apply Hns. split; [|done]. apply assoc_is_Some. by eexists.
  - intros nm rest Hpre. rewrite !lookup_app, Hroot, Hroot'. cbn [FS.lookup].
    rewrite Hassoc. case_bool_decide as Hin; [|done].
    apply Hns in Hin as [_ ?]. congruence.
Qed.

Lemma remove_dangling_install_dirs_spec_witness :
  ∃ fs',
    _remove_dangling_install_dirs sample_state_remote
    = Ok tt (set_st_fs fs' sample_state_remote)
    ∧ FS.lookup fs' (parts sample_tmpdir) = None
    ∧ FS.lookup fs' (parts sample_dest) = Some (File "installed").
Proof.
  destruct (remove_dangling_install_dirs_spec sample_state_remote
              [("sdxl",
                Dir [("main",
                      Dir [("x.safetensors", File "installed");
                           ("foo", Dir [("weights", File "0123")])])]);
               ("tmpinstall_k3j2x9",
                Dir [("b", Dir [("unet", Dir []); ("vae", Dir [])])])]
              eq_refl)
    as (fs' & Hc & Hgone & Hkept & _).
  { intros nm n. simpl. repeat case_bool_decide; try done.
    - intros [= <-]. by subst nm.
    - intros [= <-]. by eexists. }
  exists fs'. split; [exact Hc|]. split.
  - exact (Hgone "tmpinstall_k3j2x9" eq_refl).
  - exact (Hkept "sdxl" ["main"; "x.safetensors"] eq_refl).
Defined.

(** ** Moving a model to the place of its base and type *)

Lemma with_stem_parent p st path :
  PurePath.with_stem p st = inr path →
  PurePath.parent path = PurePath.parent p ∧ parts path ≠ [].
Proof.
  unfold PurePath.with_stem, PurePath.with_name.
  case_bool_decide; [done|]. destruct (_ || _); [done|].
  intros [= <-]. unfold PurePath.parent. simpl.
  rewrite removelast_last. split; [done|]. by destruct (removelast (parts p)).
Qed.

(** The path that the loop of [_move_model] settles on is the destination
    or one of its siblings. *)
Lemma unique_path_parent fs : ∀ fuel p n q,
  parts p ≠ [] →
  unique_path fuel fs p n = Some (inr q) →
  PurePath.parent q = PurePath.parent p ∧ parts q ≠ [].
Proof.
  induction fuel as [|fuel IH]; intros p n q Hp; simpl.
  - destruct (negb (FS.exists_ fs p)); [|done]. by intros [= <-].
  - destruct (negb (FS.exists_ fs p)); [by intros [= <-]|].
    destruct (PurePath.with_stem p _) as [e|path] eqn:Ew; [done|].
    destruct (with_stem_parent _ _ _ Ew) as [Hpar Hne].
    destruct (negb (FS.exists_ fs path)).
    + intros Hq. destruct (IH path (S n) q Hne Hq) as [? ?]. split; [congruence|done].
    + by apply IH.
Qed.

Lemma move_model_result fuel old_path new_path s p s' :
  parts new_path ≠ [] →
  old_path ≠ new_path →
  _move_model fuel old_path new_path s = Some (Ok p s') →
  PurePath.parent p = PurePath.parent new_path ∧ parts p ≠ []
  ∧ s' = set_st_fs (st_fs s') s.
Proof.
  intros Hne Hdiff. unfold _move_model.
  rewrite bool_decide_eq_false_2 by done. unfold fs_call at 1.
  destruct (FS.mkdir_parents (st_fs s) (PurePath.parent new_path))
    as [e|fs1]; [done|].
  assert (st_fs (set_st_fs fs1 s) = fs1) as -> by by destruct s.
  destruct (unique_path fuel fs1 new_path 1) as [[e|q]|] eqn:Eu; [done| |done].
  rewrite bind_unfold. unfold fs_call.
  assert (st_fs (set_st_fs fs1 s) = fs1) as -> by by destruct s.
  destruct (FS.move fs1 old_path q) as [e|fs2]; [done|].
  intros [= <- <-]. destruct (unique_path_parent _ _ _ _ _ Hne Eu) as [? ?].
  repeat split; first [done | by destruct s].
Qed.

Lemma parts_snoc p :
  parts p ≠ [] → parts p = parts (PurePath.parent p) ++ [PurePath.name p].
Proof.
  intros Hne. unfold PurePath.parent, PurePath.name. simpl.
  by apply app_removelast_last.
Qed.

Lemma is_prefix_length p : ∀ q,
  PurePath.is_prefix p q = true → length p ≤ length q.
Proof.
  induction p as [|x p IH]; intros q; simpl; [lia|].
  destruct q as [|y q]; [done|]. intros [_ Hp]%andb_true_iff.
  apply IH in Hp. simpl. lia.
Qed.

Lemma join_str_name p x :
  valid_name x → anchored (PurePath.join_str p x) = anchored p
                 ∧ parts (PurePath.join_str p x) = parts p ++ [x].
Proof.
  intros Hx. unfold PurePath.join_str. rewrite of_string_name by done.
  by unfold PurePath.join.
Qed.

(** X23: [sync_model_path] for a registered model. A model outside the
    models directory, or already at [base/type/name], is returned as it is
    and nothing changes. A model inside the models directory whose place
    [base/type/name] is free is moved there and its record gets the path
    [base/type/name]; when the move fails the error is raised and the
    record is unchanged. Whenever a record is returned it is the old one or
    the old one with the path [base/type/<file name>]. *)
Theorem sync_model_path_spec (fuel : nat) (key : string)
    (model : ModelConfig.t) (s : State) :
  let models_dir := AppConfig.models_path (_app_config s) in
  let old_path := PurePath.join_str models_dir (ModelConfig.path model) in
  let new_path :=
    PurePath.join_str
      (PurePath.join_str
         (PurePath.join_str models_dir (ModelConfig.base model))
         (ModelConfig.type model))
      (PurePath.name old_path) in
  _record_store s !! key = Some model →
  (PurePath.is_relative_to old_path models_dir = false →
   sync_model_path fuel key s = Some (Ok model s))
  ∧ (old_path = new_path → sync_model_path fuel key s = Some (Ok model s))
  ∧ (PurePath.is_relative_to old_path models_dir = true →
     valid_name (ModelConfig.base model) →
     valid_name (ModelConfig.type model) →
     valid_name (PurePath.name old_path) →
     (old_path ≠ new_path →
      FS.exists_ (st_fs s) new_path = false →
      let model' :=
        ModelConfig.set_path
          (Str.join_slash [ModelConfig.base model; ModelConfig.type model;
                           PurePath.name old_path]) model in
      sync_model_path fuel key s
      = Some
          match FS.mkdir_parents (st_fs s) (PurePath.parent new_path) with
          | inl e => Raise e s
          | inr fs1 =>
              match FS.move fs1 old_path new_path with
              | inl e => Raise e (set_st_fs fs1 s)
              | inr fs2 =>
                  Ok model'
                     (set__record_store
                        (<[key := model']> (_record_store s))
                        (set_st_fs fs2 s))
              end
          end)
     ∧ ∀ model' s',
         sync_model_path fuel key s = Some (Ok model' s') →
         model' = model
         ∨ ∃ file_name,
             model' = ModelConfig.set_path
                        (Str.join_slash [ModelConfig.base model;
                                         ModelConfig.type model; file_name])
                        model
             ∧ _record_store s' = <[key := model']> (_record_store s)).
Proof.
  intros models_dir old_path new_path Hrec.
  unfold sync_model_path, get_model. rewrite Hrec.
  fold models_dir old_path new_path.
  split; [|split].
  - intros Hrel. by rewrite Hrel.
  - intros Heq. destruct (PurePath.is_relative_to old_path models_dir); [|done].
    cbn [negb]. by rewrite (bool_decide_eq_true_2 _ Heq).
  - intros Hrel Hbase Htype Hname. rewrite Hrel. cbn [negb].
    destruct (join_str_name models_dir _ Hbase) as [Ha1 Hp1].
    destruct (join_str_name (PurePath.join_str models_dir (ModelConfig.base model))
                _ Htype) as [Ha2 Hp2].
    destruct (join_str_name
                (PurePath.join_str
                   (PurePath.join_str models_dir (ModelConfig.base model))
                   (ModelConfig.type model)) _ Hname) as [Ha3 Hp3].
    fold new_path in Ha3, Hp3.
    assert (parts new_path ≠ []) as Hne.
    { rewrite Hp3. intros E. by apply app_eq_nil in E as [_ ?]. }
    split.
    { intros Hdiff Hfree. rewrite Hfree.
      rewrite (bool_decide_eq_false_2 _ Hdiff). cbn [orb andb].
      unfold _move_model. rewrite (bool_decide_eq_false_2 _ Hdiff).
      unfold fs_call at 1.
      destruct (FS.mkdir_parents (st_fs s) (PurePath.parent new_path))
        as [e|fs1] eqn:Emk; [done|].
      assert (st_fs (set_st_fs fs1 s) = fs1) as Hfs1 by by destruct s.
      rewrite Hfs1.
      assert (FS.exists_ fs1 new_path = false) as Hfree1.
      { unfold FS.exists_ in *. unfold FS.mkdir_parents in Emk.
        rewrite (mkdirs_lookup_frame _ _ _ _ Emk); [done|].
        destruct (PurePath.is_prefix _ _) eqn:E; [|done].
        apply is_prefix_length in E. rewrite (parts_snoc new_path Hne) in E.
        unfold PurePath.parent in E. cbn [parts] in E.
        rewrite length_app in E. simpl in E. lia. }
      assert (unique_path fuel fs1 new_path 1 = Some (inr new_path)) as ->.
      { destruct fuel; simpl; by rewrite Hfree1. }
      rewrite bind_unfold. unfold fs_call. rewrite Hfs1.
      destruct (FS.move fs1 old_path new_path) as [e|fs2]; [done|].
      unfold mret at 1, M_ret. rewrite bind_unfold.
      unfold PurePath.relative_to, PurePath.is_relative_to.
      rewrite Ha3, Ha2, Ha1, bool_decide_eq_true_2 by done. cbn [andb].
      rewrite Hp3, Hp2, Hp1, <- !app_assoc, is_prefix_app_l. cbn [of_sum].
      unfold mret at 1, M_ret. rewrite drop_app_length. rewrite bind_unfold.
      unfold update_model_path.
      assert (_record_store (set_st_fs fs2 (set_st_fs fs1 s)) = _record_store s)
        as -> by by destruct s.
      rewrite Hrec. unfold mret, M_ret. by destruct s. }
    intros model' s'.
    destruct (bool_decide (old_path = new_path) || _) eqn:Esame.
    { intros [= <- <-]. by left. }
    apply orb_false_iff in Esame as [Hdiff _].
    apply bool_decide_eq_false in Hdiff.
    destruct (_move_model fuel old_path new_path s) as [[p s1|e s1|s1]|] eqn:Emv;
      [|done..].
    destruct (move_model_result _ _ _ _ _ _ Hne Hdiff Emv)
      as (Hpar & Hpne & Hs1).
    assert (parts p = parts models_dir
                      ++ [ModelConfig.base model; ModelConfig.type model;
                          PurePath.name p]) as Hparts.
    { rewrite (parts_snoc p Hpne), Hpar.
      unfold PurePath.parent. cbn [parts]. rewrite Hp3, removelast_last.
      rewrite Hp2, Hp1. by rewrite <- !app_assoc. }
    assert (anchored p = anchored models_dir) as Hanch.
    { assert (anchored (PurePath.parent p) = anchored (PurePath.parent new_path))
        as E by by rewrite Hpar.
      unfold PurePath.parent in E. simpl in E. congruence. }
    rewrite bind_unfold. unfold PurePath.relative_to, PurePath.is_relative_to.
    rewrite Hanch, bool_decide_eq_true_2 by done. cbn [andb].
    rewrite Hparts, is_prefix_app_l. cbn [of_sum]. unfold mret at 1, M_ret.
    rewrite drop_app_length. rewrite bind_unfold.
    unfold update_model_path.
    assert (_record_store s1 = _record_store s) as Hstore
      by (rewrite Hs1; by destruct s).
    rewrite Hstore, Hrec. intros [= <- <-]. right.
    exists (PurePath.name p). split; [done|]. by destruct s1.
Qed.

Lemma sync_model_path_spec_witness :
  ∃ s', sync_model_path 0 "key-foo" sample_state_rebased
        = Some (Ok (ModelConfig.mk "key-foo" "sd-1" "main" "foo"
                                   "sd-1/main/foo" None) s')
        ∧ FS.lookup (st_fs s')
                    ["invokeai"; "models"; "sd-1"; "main"; "foo"; "weights"]
          = Some (File "0123").
Proof.
  assert (valid_name "sd-1" ∧ valid_name "main" ∧ valid_name "foo")
    as (Hbase & Htype & Hname) by (by repeat split).
  destruct (sync_model_path_spec 0 "key-foo" _ sample_state_rebased eq_refl)
    as (_ & _ & Hmove).
  destruct (Hmove eq_refl Hbase Htype Hname) as [Hfree _].
  eexists. split.
  - apply Hfree; [discriminate | reflexivity].
  - reflexivity.
Defined.

(** ** Registering in place *)

Lemma register_ok (H : Host) model_path config info info0 s :
  match info with
  | Some i => inr i
  | None => probe H (st_fs s) model_path config
                  (AppConfig.hashing_algorithm (_app_config s))
  end = inr info0 →
  _record_store s !! ModelConfig.key info0 = None →
  _register H model_path config info s
  = Ok (ModelConfig.key info0)
       (set__record_store
          (<[ModelConfig.key info0 :=
               registered_record (_app_config s) model_path info0]>
             (_record_store s)) s).
Proof.
  intros Hinfo Hnone. unfold _register. rewrite bind_unfold. unfold gets.
  cbv beta iota zeta delta [id]. rewrite bind_unfold.
  assert (match info with
          | Some i => mret i
          | None => of_sum (probe H (st_fs s) model_path config
                              (AppConfig.hashing_algorithm (_app_config s)))
          end s = Ok info0 s) as ->.
  { destruct info; [by injection Hinfo as ->|]. by rewrite Hinfo. }
  rewrite bind_unfold, relativize_eq. rewrite bind_unfold.
  unfold registered_record.
  set (i1 := ModelConfig.set_path _ info0).
  destruct (ModelConfig.config_path i1) as [cp|] eqn:Ecp.
  - rewrite bind_unfold, relativize_eq. unfold mret at 1, M_ret.
    rewrite bind_unfold. unfold add_model.
    assert (ModelConfig.key (ModelConfig.set_config_path
              (Some (PurePath.as_posix
                       (stored_path
                          (PurePath.join_str
                             (AppConfig.legacy_conf_path (_app_config s)) cp)
                          (AppConfig.legacy_conf_path (_app_config s))))) i1)
            = ModelConfig.key info0) as Hk by done.
    by rewrite Hk, Hnone.
  - unfold mret at 1, M_ret. rewrite bind_unfold. unfold add_model.
    assert (ModelConfig.key i1 = ModelConfig.key info0) as Hk by done.
    by rewrite Hk, Hnone.
Qed.

Lemma register_fails (H : Host) model_path config info s :
  (∀ e, match info with
        | Some i => inr i
        | None => probe H (st_fs s) model_path config
                        (AppConfig.hashing_algorithm (_app_config s))
        end = inl e →
        _register H model_path config info s = Raise e s)
  ∧ (∀ info0 c,
       match info with
       | Some i => inr i
       | None => probe H (st_fs s) model_path config
                       (AppConfig.hashing_algorithm (_app_config s))
       end = inr info0 →
       _record_store s !! ModelConfig.key info0 = Some c →
       _register H model_path config info s = Raise DuplicateModelException s).
Proof.
  split.
  - intros e He. unfold _register. rewrite bind_unfold. unfold gets.
    cbv beta iota zeta delta [id]. rewrite bind_unfold.
    destruct info; [done|]. by rewrite He.
  - intros info0 c Hinfo Hc. unfold _register. rewrite bind_unfold.
    unfold gets. cbv beta iota zeta delta [id]. rewrite bind_unfold.
    assert (match info with
            | Some i => mret i
            | None => of_sum (probe H (st_fs s) model_path config
                                (AppConfig.hashing_algorithm (_app_config s)))
            end s = Ok info0 s) as ->.
    { destruct info; [by injection Hinfo as ->|]. by rewrite Hinfo. }
    rewrite bind_unfold, relativize_eq. rewrite bind_unfold.
    set (i1 := ModelConfig.set_path _ info0).
    destruct (ModelConfig.config_path i1) as [cp|] eqn:Ecp.
    + rewrite bind_unfold, relativize_eq. unfold mret at 1, M_ret.
      rewrite bind_unfold. unfold add_model.
      assert (ModelConfig.key (ModelConfig.set_config_path
                (Some (PurePath.as_posix
                         (stored_path
                            (PurePath.join_str
                               (AppConfig.legacy_conf_path (_app_config s)) cp)
                            (AppConfig.legacy_conf_path (_app_config s))))) i1)
              = ModelConfig.key info0) as Hk by done.
      by rewrite Hk, Hc.
    + unfold mret at 1, M_ret. rewrite bind_unfold. unfold add_model.
      assert (ModelConfig.key i1 = ModelConfig.key info0) as Hk by done.
      by rewrite Hk, Hc.
Qed.

(** X24: [register_path] read as a whole. The probe is run with the
    configuration completed by [source] and [source_type]; when it fails
    its error is raised, when the key of the probed model is taken
    [Duplicate] is raised, and in both cases the state is unchanged;
    otherwise the key is returned and exactly the record of the model is
    added. *)
Theorem register_path_spec (H : Host) (model_path : Path)
    (config : gmap string string) (s : State) :
  register_path H model_path config s
  = match probe H (st_fs s) model_path
                (register_path_config H model_path config)
                (AppConfig.hashing_algorithm (_app_config s)) with
    | inl e => Raise e s
    | inr info =>
        match _record_store s !! ModelConfig.key info with
        | Some _ => Raise DuplicateModelException s
        | None =>
            Ok (ModelConfig.key info)
               (set__record_store
                  (<[ModelConfig.key info :=
                       registered_record (_app_config s) model_path info]>
                     (_record_store s)) s)
        end
    end.
Proof.
  unfold register_path.
  destruct (probe _ _ _ _ _) as [e|info] eqn:Ep.
  - by apply (register_fails H model_path _ None s).
  - destruct (_record_store s !! ModelConfig.key info) as [c|] eqn:Ec.
    + by eapply (proj2 (register_fails H model_path _ None s)).
    + by apply (register_ok H model_path _ None).
Qed.

Lemma registered_record_key cfg model_path info :
  ModelConfig.key (registered_record cfg model_path info)
  = ModelConfig.key info.
Proof.
  unfold registered_record.
  by destruct (ModelConfig.config_path (ModelConfig.set_path _ info)).
Qed.

Ltac wstep :=
  cbv beta iota zeta delta
    [mbind M_bind mret M_ret gets modify fs_call _next_id with_lock new_job
     new_part update_job get_job get_part of_sum raise for_each id fst snd
     st_fs _app_config _record_store _event_bus st_jobs st_parts _install_jobs
     _install_queue st_unfinished_tasks _lock _stop_event
     _downloads_changed_event _install_completed_event _download_queue
     _download_cache _next_job_id
     set_st_fs set__app_config set__record_store set__event_bus set_st_jobs
     set_st_parts set__install_jobs set__install_queue set_st_unfinished_tasks
     set__lock set__stop_event set__downloads_changed_event
     set__install_completed_event set__download_queue set__download_cache
     set__next_job_id
     Job.id Job.source Job.config_in Job.config_out Job.source_metadata
     Job.local_path Job._install_tmpdir Job.inplace Job.download_parts
     Job.bytes Job.total_bytes Job.status Job.error Job.error_type
     Job.set_status Job.set_config_in Job.set_config_out Job.set_local_path
     Job.set__install_tmpdir Job.set_download_parts Job.set_bytes
     Job.set_total_bytes Job.set_error_fields Job.cancel
     Job.cancelled Job.errored Job.waiting Job.downloads_done
     _install_next_item_step install_job_block try_finally try_except
     process_job finish_job queue_get queue_task_done queue_put
     _register_or_install _stat_size _signal_job_running
     _signal_job_completed emit get_model register_path local_job
     default from_option].

(** X25: one iteration of the install worker on an in-place job without
    scratch directory that waits (or whose downloads are done), when the
    probe accepts the model and its key is free: the job ends [COMPLETED]
    with its byte counts set to the size on disk, its configuration
    completed and the new record as its result; the record is added to the
    store, the running and the completed event are emitted in that order,
    the latch is set, the queue item is marked done, and the disk is
    unchanged. *)
Theorem install_step_inplace (H : Host) (job n : nat) (q : list nat)
    (j : Job.t) (info : ModelConfig.t) (s : State) :
  let size := FS.stat_size (st_fs s) (Job.local_path j) in
  let record := registered_record (_app_config s) (Job.local_path j) info in
  let key := ModelConfig.key info in
  let j' :=
    Job.mk (Job.id j) (Job.source j) (inplace_config H j) (Some record)
           (Job.source_metadata j) (Job.local_path j) None true
           (Job.download_parts j) size size COMPLETED (Job.error j)
           (Job.error_type j) in
  let events :=
    [emit_model_install_running (str_source H (Job.source j));
     emit_model_install_completed (str_source H (Job.source j)) key
                                  (Job.id j)] in
  _stop_event s = false →
  _install_queue s = job :: q →
  st_unfinished_tasks s = S n →
  st_jobs s !! job = Some j →
  Job.status j = WAITING ∨ Job.status j = DOWNLOADS_DONE →
  Job.inplace j = true →
  Job._install_tmpdir j = None →
  probe H (st_fs s) (Job.local_path j) (inplace_config H j)
        (AppConfig.hashing_algorithm (_app_config s)) = inr info →
  _record_store s !! key = None →
  _install_next_item_step H s
  = Ok Continue
       (set_st_unfinished_tasks n
          (set__install_completed_event true
             (set__event_bus ((λ log, log ++ events) <$> _event_bus s)
                (set__record_store (<[key := record]> (_record_store s))
                   (set_st_jobs (<[job := j']> (st_jobs s))
                      (set__install_queue q s)))))).
Proof.
  intros size record key j' events Hstop Hq Hn Hj Hstatus Hin Htmp Hprobe
    Hnone.
  pose proof (lookup_lt_Some _ _ _ Hj) as Hlt.
  destruct s as [fs cfg store bus jobs dparts ijobs queue unfinished lock
                  stop dch ich dq cache next].
  destruct j as [jid src cin cout meta lp tmp inpl dps b tb st er ert].
  cbv beta iota zeta delta
    [st_fs _app_config _record_store _event_bus st_jobs st_parts _install_jobs
     _install_queue st_unfinished_tasks _lock _stop_event
     _downloads_changed_event _install_completed_event _download_queue
     _download_cache _next_job_id Job.status Job.inplace Job._install_tmpdir
     Job.local_path] in *.
  subst stop queue unfinished inpl tmp.
  subst size record key j' events.
  cbv beta iota zeta delta
    [Job.id Job.source Job.source_metadata Job.download_parts Job.error
     Job.error_type].
  assert (∀ x, <[job:=x]> jobs !! job = Some x) as Hins.
  { intros x. by apply list_lookup_insert_eq. }
  wstep. rewrite Hj. wstep.
  assert (bool_decide (st = CANCELLED) = false) as ->.
  { apply bool_decide_eq_false_2. by destruct Hstatus as [->| ->]. }
  assert (bool_decide (st = ERROR) = false) as ->.
  { apply bool_decide_eq_false_2. by destruct Hstatus as [->| ->]. }
  assert (bool_decide (st = WAITING) || bool_decide (st = DOWNLOADS_DONE)
          = true) as ->.
  { destruct Hstatus as [->| ->]; by rewrite ?orb_true_r. }
  unfold inplace_config, job_config in *.
  cbv beta iota zeta delta
    [Job.source Job.config_in Job.source_metadata Job.local_path] in *.
  destruct bus as [log|]; destruct meta as [[]|];
    (wstep;
     repeat (rewrite ?list_insert_insert_eq;
             first [rewrite Hj | rewrite Hins]; wstep);
     erewrite (register_ok H lp _ None info); [|exact Hprobe|exact Hnone];
     wstep; rewrite lookup_insert_eq;
     repeat (wstep; rewrite ?list_insert_insert_eq;
             first [rewrite Hj | rewrite Hins]);
     wstep; rewrite ?list_insert_insert_eq).
  all: try reflexivity.
  all: cbn [fmap option_fmap option_map];
    by rewrite <- app_assoc, registered_record_key.
Qed.

Lemma install_step_inplace_witness :
  ∃ s', _install_next_item_step sample_host sample_state_inplace
        = Ok Continue s'
        ∧ (Job.status <$> st_jobs s' !! 0) = Some COMPLETED
        ∧ st_fs s' = sample_fs
        ∧ (ModelConfig.path <$> _record_store s' !! "key-x.safetensors")
          = Some "/downloads/x.safetensors".
Proof.
  eexists. split.
  - apply (install_step_inplace sample_host 0 0 [] _ _ sample_state_inplace
             eq_refl eq_refl eq_refl eq_refl (or_introl eq_refl) eq_refl
             eq_refl eq_refl eq_refl).
  - split; [reflexivity|]. split; reflexivity.
Defined.
